(** * Pathfinding visualizer: Dijkstra and A* on a square grid

    A shallow embedding of [pathfinding_algorithm.py] (class [Pathfinder])
    together with the part of [gui.py] that decides when a search is started:
    the geometry of the window and the handling of mouse and keys.
    Python dictionaries are finite maps, Python sets are finite sets, the
    [PriorityQueue] is a bag of tuples from which [get] removes the least one,
    and the [while] loops run on fuel. *)

From stdpp Require Import gmap list.
From Stdlib Require Import ZArith Lia.

(** ** Vertices *)

(** A [Vertex] object is identified by its position [(row, col)]: the grid
    holds exactly one object per position, and the code compares vertices by
    identity. *)
Definition Vertex : Type := (Z * Z)%type.

(** Modelled from the spec: vertex.py is not part of the sources at hand.  The
    state of a vertex is one of the seven markers of the data model, and each
    [make_*] method stores the corresponding marker (a pure data update). *)
Inductive VertexState :=
  | Default | Wall | Start | Destination | Visiting | Visited | Path.

Global Instance VertexState_eq_dec : EqDecision VertexState.
Proof. solve_decision. Defined.

Definition get_position (v : Vertex) : Z * Z := v.

(** ** Python values used by the bookkeeping *)

(** A cost is a Python [int] or [float("inf")]. *)
Inductive num := Int (z : Z) | Inf.

Global Instance num_eq_dec : EqDecision num.
Proof. solve_decision. Defined.

Definition num_add (a : num) (k : Z) : num :=
  match a with
  | Int z => Int (z + k)
  | Inf => Inf
  end.

Definition num_ltb (a b : num) : bool :=
  match a, b with
  | Int x, Int y => (x <? y)%Z
  | Int _, Inf => true
  | Inf, _ => false
  end.

Inductive exn := KeyError | AttributeError | IndexError | ValueError.

Global Instance exn_eq_dec : EqDecision exn.
Proof. solve_decision. Defined.

(** A computation over a mutable state either completes or raises; the state
    reached so far survives the exception. *)
Inductive result (S : Type) :=
  | Ok (s : S)
  | Raise (e : exn) (s : S).
Global Arguments Ok {S} s.
Global Arguments Raise {S} e s.

(** [for x in l: body] *)
Fixpoint for_each {A S : Type} (body : S → A → result S) (s : S) (l : list A)
  : result S :=
  match l with
  | [] => Ok s
  | x :: l' =>
      match body s x with
      | Ok s' => for_each body s' l'
      | Raise e s' => Raise e s'
      end
  end.

(** How a call of a search method ends. *)
Inductive outcome := Returned (b : bool) | Raised (e : exn).

(** A [while] loop run on fuel: it finished, or the fuel ran out in the state
    shown. *)
Inductive fueled (S : Type) :=
  | Finished (s : S)
  | OutOfFuel (s : S).
Global Arguments Finished {S} s.
Global Arguments OutOfFuel {S} s.

Global Instance outcome_eq_dec : EqDecision outcome.
Proof. solve_decision. Defined.

(** ** The priority queue *)

(** The tuples [(priority, count, vertex)] put on the queue. *)
Definition entry : Type := (num * nat * Vertex)%type.

Definition entry_key (e : entry) : num := e.1.1.
Definition entry_count (e : entry) : nat := e.1.2.
Definition entry_vertex (e : entry) : Vertex := e.2.

(** Python's tuple order on the first two components.  The third component is
    compared only when two tuples agree on both, which the insertion counter
    rules out. *)
Definition entry_ltb (a b : entry) : bool :=
  num_ltb (entry_key a) (entry_key b)
  || (bool_decide (entry_key a = entry_key b) && (entry_count a <? entry_count b)).

Definition queue_put (q : list entry) (e : entry) : list entry := e :: q.

(** [queue.get()]: the least tuple and the remaining ones. *)
Fixpoint queue_get (q : list entry) : option (entry * list entry) :=
  match q with
  | [] => None
  | e :: q' =>
      match queue_get q' with
      | None => Some (e, [])
      | Some (m, r) => if entry_ltb m e then Some (m, e :: r) else Some (e, q')
      end
  end.

(** ** The world outside the local variables *)

Inductive event_type := QUIT | KEYDOWN | OTHER_EVENT.

Global Instance event_type_eq_dec : EqDecision event_type.
Proof. solve_decision. Defined.

(** What a run does to its surroundings, in the order it does it. *)
Inductive action :=
  | APoll                              (* pygame.event.get() *)
  | AQuit                              (* pygame.quit() *)
  | APop (v : Vertex)                  (* queue.get() *)
  | AMark (v : Vertex) (s : VertexState) (* v.make_...() *)
  | ADraw.                             (* gui.draw(grid) *)

Global Instance action_eq_dec : EqDecision action.
Proof. solve_decision. Defined.

Record World := mkWorld {
  vstate : gmap Vertex VertexState;  (* the state attribute of every vertex *)
  polls : nat;                       (* calls of pygame.event.get() so far *)
  log : list action                  (* newest first *)
}.

Definition trace (w : World) : list action := rev (log w).

Definition record (a : action) (w : World) : World :=
  mkWorld (vstate w) (polls w) (a :: log w).

Definition set_state (v : Vertex) (s : VertexState) (w : World) : World :=
  mkWorld (<[v := s]> (vstate w)) (polls w) (AMark v s :: log w).

Definition make_start := λ v, set_state v Start.
Definition make_wall := λ v, set_state v Wall.
Definition make_visiting := λ v, set_state v Visiting.
Definition make_visited := λ v, set_state v Visited.
Definition make_path := λ v, set_state v Path.

(** [gui.draw(grid)] reads the vertices and paints them: nothing the
    bookkeeping depends on changes.  The call is recorded and taken to return.
    That is what pygame does as long as [pygame.quit()] has not been called;
    after it the display surface is gone and the call raises [pygame.error],
    which the model does not follow: see [quit_free]. *)
Definition draw (w : World) : World := record ADraw w.

Record Pathfinder := mkPathfinder {
  grid : list (list Vertex);
  start : option Vertex;
  destination : option Vertex
}.

(** [abs(x1 - x2) + abs(y1 - y2)] *)
Definition manhatten_distance (current destination : Z * Z) : Z :=
  let '(x1, y1) := current in
  let '(x2, y2) := destination in
  (Z.abs (x1 - x2) + Z.abs (y1 - y2))%Z.

(** ** Bookkeeping shared by the two searches *)

(** Both methods keep a counter, the queue, a set of the vertices currently on
    the queue, the predecessor map and a cost map.  [dijkstra] calls the set
    [visited] and the cost map [distance]; [a_star_search] calls them
    [open_set] and [g_score]. *)
Record Bk := mkBk {
  count : nat;
  queue : list entry;
  open_set : gset Vertex;
  came_from : gmap Vertex Vertex;
  g_score : gmap Vertex num
}.

Abbreviation visited := open_set (only parsing).
Abbreviation distance := g_score (only parsing).

(** [{vertex: float("inf") for row in grid for vertex in row}] *)
Definition all_inf (grid : list (list Vertex)) : gmap Vertex num :=
  foldr (λ v m, <[v := Inf]> m) ∅ (concat grid).

(** ** The grid *)

(** [GUI.__initialize_grid]: one vertex per position of a [rows] x [rows]
    board. *)
Definition initialize_grid (rows : nat) : list (list Vertex) :=
  map (λ row, map (λ col, (Z.of_nat row, Z.of_nat col)) (seq 0 rows)) (seq 0 rows).

(** Modelled from the spec: [Vertex.update_neighbors] (vertex.py) is not part
    of the sources at hand.  The neighbours of a cell are the four axis-aligned
    adjacent cells, in the order up, down, left, right, kept when they lie on
    the board and are not walls. *)
Definition in_bounds (rows : nat) (v : Vertex) : bool :=
  (0 <=? v.1)%Z && (v.1 <? Z.of_nat rows)%Z && (0 <=? v.2)%Z && (v.2 <? Z.of_nat rows)%Z.

Definition update_neighbors (rows : nat) (is_wall : Vertex → bool) (v : Vertex)
  : list Vertex :=
  let '(row, col) := v in
  filter (λ u, in_bounds rows u && negb (is_wall u))
         [ (row - 1, col); (row + 1, col); (row, col - 1); (row, col + 1) ]%Z.

(** ** Maze generation *)

Section Maze.

(** [round(len(grid) * len(grid) * 0.3)] is computed in floating point; the
    number of picks is left open, as a function of [len(grid) * len(grid)]. *)
Variable round_density : nat → nat.

(** The raw value behind the k-th call of [randrange]. *)
Variable rand : nat → nat.

(** [randrange(bound)], at the k-th call: a value below [bound], or
    [ValueError] for an empty range. *)
Definition randrange (k bound : nat) : option nat :=
  if decide (bound = 0) then None else Some (rand k mod bound).

(** The body of [for i in range(n + 1)].  The state is the world and the number
    of [randrange] calls made so far. *)
Definition maze_pick (pf : Pathfinder) (st : World * nat) (i : nat)
  : result (World * nat) :=
  let '(w, k) := st in
  match randrange k (length (grid pf)) with
  | None => Raise ValueError st
  | Some row =>
      match randrange (S k) (length (grid pf)) with
      | None => Raise ValueError (w, S k)
      | Some col =>
          match grid pf !! row ≫= (.!! col) with
          | None => Raise IndexError (w, S (S k))
          | Some v =>
              if decide (Some v ≠ start pf ∧ Some v ≠ destination pf)
              then Ok (make_wall v w, S (S k))
              else Ok (w, S (S k))
          end
      end
  end.

(** [Pathfinder.generate_maze] *)
Definition generate_maze (pf : Pathfinder) (w : World) : result (World * nat) :=
  let n := round_density (length (grid pf) * length (grid pf)) in
  for_each (maze_pick pf) (w, 0) (seq 0 (n + 1)).

End Maze.

(** ** The key handler of the GUI *)

Inductive key := K_a | K_c | K_d | K_m | K_other.

Global Instance key_eq_dec : EqDecision key.
Proof. solve_decision. Defined.

(** The local variables of [GUI.run] that the key handler reads and writes. *)
Record GuiState := mkGuiState {
  started : bool;
  gui_start : option Vertex;
  gui_destination : option Vertex
}.

(** What the handler goes on to do. *)
Inductive command :=
  | RunDijkstra (pf : Pathfinder)
  | RunAStar (pf : Pathfinder)
  | GenerateMaze (pf : Pathfinder)
  | ResetGrid
  | NoCommand.

(** Python's truth value of [start] or [destination]: [None] is false, a
    vertex is true. *)
Definition truthy (v : option Vertex) : bool :=
  match v with Some _ => true | None => false end.

(** The [if event.type == pygame.KEYDOWN] block of [GUI.run].  [pf] is the
    pathfinder built just before it from the grid, start and destination of
    that moment; [user_input] is the answer to the reset dialog, asked when a
    search has already been started and the key is not [K_c]. *)
Definition on_keydown (k : key) (user_input : bool) (grid : list (list Vertex))
    (g : GuiState) : command * GuiState :=
  let pf := mkPathfinder grid (gui_start g) (gui_destination g) in
  let g :=
    if started g && negb (bool_decide (k = K_c)) then
      if user_input then mkGuiState false None None else g
    else g in
  if bool_decide (k = K_d) && negb (started g) && truthy (gui_start g)
     && truthy (gui_destination g) then
    (RunDijkstra pf, mkGuiState true (gui_start g) (gui_destination g))
  else if bool_decide (k = K_a) && negb (started g) && truthy (gui_start g)
          && truthy (gui_destination g) then
    (RunAStar pf, mkGuiState true (gui_start g) (gui_destination g))
  else if bool_decide (k = K_m) && negb (started g) then (GenerateMaze pf, g)
  else if bool_decide (k = K_c) then (ResetGrid, mkGuiState false None None)
  else (NoCommand, g).

(** ** The window and the mouse of the GUI *)

(** [self.__gap = width // rows] in [GUI.__init__]; [None] stands for the
    ZeroDivisionError of [rows = 0]. *)
Definition gui_gap (rows width : Z) : option Z :=
  if decide (rows = 0%Z) then None else Some (width / rows)%Z.

(** [GUI.__get_clicked_position]; [None] stands for the ZeroDivisionError of a
    gap of zero. *)
Definition get_clicked_position (gap : Z) (position : Z * Z) : option (Z * Z) :=
  let '(x, y) := position in
  if decide (gap = 0%Z) then None else Some (x / gap, y / gap)%Z.

(** [l[i]] for a Python list: a negative index counts from the end; [None]
    stands for IndexError. *)
Definition py_index {A : Type} (l : list A) (i : Z) : option A :=
  if decide (0 ≤ i)%Z then l !! Z.to_nat i
  else if decide (- Z.of_nat (length l) ≤ i)%Z then l !! Z.to_nat (Z.of_nat (length l) + i)
  else None.

(** [node = grid[row][column]] in [GUI.run], for the position of a click. *)
Definition clicked_node (gap : Z) (grid : list (list Vertex)) (position : Z * Z)
  : option Vertex :=
  get_clicked_position gap position ≫= λ '(row, column),
  py_index grid row ≫= λ r, py_index r column.

(** The method of the clicked vertex that the handler calls. *)
Inductive mouse_action :=
  | MakeStart (v : Vertex)
  | MakeDestination (v : Vertex)
  | MakeWall (v : Vertex)
  | ResetNode (v : Vertex).

(** The mouse part of the event loop of [GUI.run], for the vertex [node] under
    the pointer: [left] and [right] are [pygame.mouse.get_pressed()[0]] and
    [[2]], and [node_is_wall] is what [node.is_wall()] returns. *)
Definition on_mouse (left right : bool) (node : Vertex) (node_is_wall : bool)
    (g : GuiState) : option mouse_action * GuiState :=
  if left then
    if negb (truthy (gui_start g)) && bool_decide (Some node ≠ gui_destination g)
       && negb node_is_wall then
      (Some (MakeStart node), mkGuiState (started g) (Some node) (gui_destination g))
    else if negb (truthy (gui_destination g)) && bool_decide (Some node ≠ gui_start g)
            && negb node_is_wall then
      (Some (MakeDestination node), mkGuiState (started g) (gui_start g) (Some node))
    else if bool_decide (Some node ≠ gui_start g)
            && bool_decide (Some node ≠ gui_destination g) && negb (started g) then
      (Some (MakeWall node), g)
    else (None, g)
  else if right then
    (Some (ResetNode node),
     mkGuiState (started g)
       (if bool_decide (Some node = gui_start g) then None else gui_start g)
       (if bool_decide (Some node = gui_destination g) then None
        else gui_destination g))
  else (None, g).

(** What the event loop reads for one event. *)
Record gui_event := mkGuiEvent {
  ev_type : event_type;
  ev_key : key;                  (* event.key, for a KEYDOWN event *)
  ev_left : bool;
  ev_right : bool;
  ev_node : Vertex;              (* the vertex under the pointer *)
  ev_node_is_wall : bool;
  ev_answer : bool;              (* the answer to the reset dialog *)
  ev_grid : list (list Vertex)   (* the grid at that moment *)
}.

(** The body of [for event in pygame.event.get()] in [GUI.run]: the mouse
    first, whatever the type of the event, then the key of a KEYDOWN event. *)
Definition handle_event (ev : gui_event) (g : GuiState)
  : option mouse_action * command * GuiState :=
  let '(m, g) := on_mouse (ev_left ev) (ev_right ev) (ev_node ev)
                          (ev_node_is_wall ev) g in
  if decide (ev_type ev = KEYDOWN) then
    let '(c, g) := on_keydown (ev_key ev) (ev_answer ev) (ev_grid ev) g in (m, c, g)
  else (m, NoCommand, g).

(** The commands that a sequence of events leads to, and the state after
    it. *)
Fixpoint handle_events (evs : list gui_event) (g : GuiState)
  : list command * GuiState :=
  match evs with
  | [] => ([], g)
  | ev :: evs =>
      let '(_, c, g) := handle_event ev g in
      let '(cs, g) := handle_events evs g in
      (c :: cs, g)
  end.

(** ** Reading a world *)

Definition no_events : nat → list event_type := λ _, [].

(** The event streams in which no QUIT ever arrives.  A search calls
    [pygame.quit()] for a QUIT event and goes on; from then on pygame raises
    [pygame.error] at the next [gui.draw(grid)] or [pygame.event.get()], and
    the model, whose [draw] and [poll_events] always return, describes the
    code only up to that call.  On a stream that is [quit_free] nothing of the
    kind happens and a run of the model is a run of the code from end to end:
    statements about whole runs are made for these streams. *)
Definition quit_free (events : nat → list event_type) : Prop :=
  ∀ k, QUIT ∉ events k.
Definition blank : World := mkWorld ∅ 0 [].

Definition mark_of (a : action) : option (Vertex * VertexState) :=
  match a with AMark v s => Some (v, s) | _ => None end.

Definition pop_of (a : action) : option Vertex :=
  match a with APop v => Some v | _ => None end.

Definition path_mark_of (a : action) : option Vertex :=
  match a with AMark v Path => Some v | _ => None end.

(** The vertices marked [Path], and the vertices taken off the queue, oldest
    first. *)
Definition path_marks (w : World) : list Vertex := omap path_mark_of (trace w).
Definition pops (w : World) : list Vertex := omap pop_of (trace w).

Section Engine.

(** The cached [neighbors] attribute of every vertex, filled by
    [update_neighbors] before a search and not touched during it. *)
Variable neighbors : Vertex → list Vertex.

(** The events [pygame.event.get()] returns at its k-th call. *)
Variable events_at : nat → list event_type.

(** [for event in pygame.event.get(): if event.type == pygame.QUIT: pygame.quit()].
    The k-th call returns [events_at k]; every QUIT in it is answered by a
    call of [pygame.quit()], and the loop over the events runs to its end.
    A call of [pygame.event.get()] made after [pygame.quit()] raises
    [pygame.error] in the code; the model returns the next events instead, so
    it is the code's on the streams that are [quit_free], and otherwise up to
    the first drawing or poll after a QUIT. *)
Definition poll_events (w : World) : World :=
  foldl (λ w ev, if decide (ev = QUIT) then record AQuit w else w)
        (mkWorld (vstate w) (S (polls w)) (APoll :: log w))
        (events_at (polls w)).

(** [__reconstruct_path] *)
Fixpoint reconstruct_path (fuel : nat) (came_from : gmap Vertex Vertex)
    (current : Vertex) (w : World) : fueled World :=
  match came_from !! current with
  | None => Finished w
  | Some prev =>
      match fuel with
      | O => OutOfFuel w
      | S fuel' => reconstruct_path fuel' came_from prev (draw (make_path prev w))
      end
  end.

(** What one turn of the [while] loop of a search leads to: the next turn, the
    end of the call, or a path reconstruction that the fuel does not cover. *)
Inductive step (S : Type) :=
  | Continue (s : S)
  | Stop (o : outcome) (s : S)
  | Starved (s : S).
Global Arguments Continue {S} s.
Global Arguments Stop {S} o s.
Global Arguments Starved {S} s.

(** *** dijkstra *)

(** The body of [for neighbor in current.neighbors].  The tuple put on the
    queue carries [distance[neighbor]], read back right after it was stored. *)
Definition dijkstra_relax (destination : option Vertex) (current : Vertex)
    (st : World * Bk) (neighbor : Vertex) : result (World * Bk) :=
  let '(w, b) := st in
  match distance b !! current with
  | None => Raise KeyError st
  | Some dc =>
      let temp_distance := num_add dc 1 in
      match distance b !! neighbor with
      | None => Raise KeyError st
      | Some dn =>
          if num_ltb temp_distance dn then
            let came_from' := <[neighbor := current]> (came_from b) in
            let distance' := <[neighbor := temp_distance]> (distance b) in
            if decide (neighbor ∈ visited b) then
              Ok (w, mkBk (count b) (queue b) (visited b) came_from' distance')
            else
              let count' := S (count b) in
              let b' := mkBk count'
                          (queue_put (queue b) (temp_distance, count', neighbor))
                          ({[neighbor]} ∪ visited b) came_from' distance' in
              if decide (Some neighbor = destination) then Ok (w, b')
              else Ok (make_visiting neighbor w, b')
          else Ok st
      end
  end.

(** One turn of [while not queue.empty()], from the tuple [e] that
    [queue.get()] returned and the tuples [queue'] left on the queue.  The fuel
    is for the path reconstruction. *)
Definition dijkstra_body (fuel : nat) (start : Vertex) (destination : option Vertex)
    (e : entry) (queue' : list entry) (st : World * Bk)
  : step (World * Bk) :=
  let '(w, b) := st in
  let w := poll_events w in
  let current := entry_vertex e in
  let w := record (APop current) w in
  if decide (current ∈ visited b) then
    let b := mkBk (count b) queue' (visited b ∖ {[current]})
                  (came_from b) (distance b) in
    if decide (Some current = destination) then
      match reconstruct_path fuel (came_from b) current w with
      | OutOfFuel w => Starved (w, b)
      | Finished w => Stop (Returned true) (make_start start w, b)
      end
    else
      match for_each (dijkstra_relax destination current) (w, b)
                     (neighbors current) with
      | Raise e st => Stop (Raised e) st
      | Ok (w, b) =>
          let w := draw w in
          let w := if decide (current = start) then w
                   else make_visited current w in
          Continue (w, b)
      end
  else Stop (Raised KeyError)
            (w, mkBk (count b) queue' (visited b) (came_from b) (distance b)).

Definition dijkstra_iter (fuel : nat) (start : Vertex) (destination : option Vertex)
    (st : World * Bk) : step (World * Bk) :=
  match queue_get (queue st.2) with
  | None => Stop (Returned false) st
  | Some (e, queue') => dijkstra_body fuel start destination e queue' st
  end.

(** The loop: how the call ended, or [None] when the fuel ran out first, and
    the state reached. *)
Fixpoint dijkstra_loop (fuel : nat) (start : Vertex) (destination : option Vertex)
    (st : World * Bk) : option outcome * (World * Bk) :=
  match fuel with
  | O => (None, st)
  | S fuel' =>
      match dijkstra_iter fuel' start destination st with
      | Continue st' => dijkstra_loop fuel' start destination st'
      | Stop o st' => (Some o, st')
      | Starved st' => (None, st')
      end
  end.

Definition dijkstra_init (grid : list (list Vertex)) (start : Vertex) : Bk :=
  mkBk 0 (queue_put [] (Int 0, 0, start)) {[start]} ∅
       (<[start := Int 0]> (all_inf grid)).

(** [Pathfinder.dijkstra].  With [start = None] the queue holds [None]; it is
    taken off in the first iteration, and the method raises at
    [self.__start.make_start()] (when the destination is [None] as well) or at
    [current.neighbors]. *)
Definition dijkstra (fuel : nat) (pf : Pathfinder) (w : World)
  : option outcome * World :=
  match start pf with
  | None => (Some (Raised AttributeError), poll_events w)
  | Some s =>
      let '(o, (w', _)) :=
        dijkstra_loop fuel s (destination pf) (w, dijkstra_init (grid pf) s) in
      (o, w')
  end.

(** *** a_star_search *)

(** The heuristic of a vertex, as [a_star_search] calls it. *)
Definition h (destination : Vertex) (v : Vertex) : Z :=
  manhatten_distance (get_position v) (get_position destination).

(** The body of [for neighbor in current.neighbors].  The tuple put on the
    queue carries [f_score[neighbor]], read back right after it was stored. *)
Definition a_star_relax (destination : Vertex) (current : Vertex)
    (st : World * Bk * gmap Vertex num) (neighbor : Vertex)
  : result (World * Bk * gmap Vertex num) :=
  let '(w, b, f_score) := st in
  match g_score b !! current with
  | None => Raise KeyError st
  | Some gc =>
      let temp_g_score := num_add gc 1 in
      match g_score b !! neighbor with
      | None => Raise KeyError st
      | Some gn =>
          if num_ltb temp_g_score gn then
            let came_from' := <[neighbor := current]> (came_from b) in
            let g_score' := <[neighbor := temp_g_score]> (g_score b) in
            let fn := num_add temp_g_score (h destination neighbor) in
            let f_score' := <[neighbor := fn]> f_score in
            if decide (neighbor ∈ open_set b) then
              Ok (w, mkBk (count b) (queue b) (open_set b) came_from' g_score',
                  f_score')
            else
              let count' := S (count b) in
              let b' := mkBk count' (queue_put (queue b) (fn, count', neighbor))
                          ({[neighbor]} ∪ open_set b) came_from' g_score' in
              if decide (neighbor = destination) then Ok (w, b', f_score')
              else Ok (make_visiting neighbor w, b', f_score')
          else Ok st
      end
  end.

Definition a_star_body (fuel : nat) (start destination : Vertex)
    (e : entry) (queue' : list entry) (st : World * Bk * gmap Vertex num)
  : step (World * Bk * gmap Vertex num) :=
  let '(w, b, f_score) := st in
  let w := poll_events w in
  let current := entry_vertex e in
  let w := record (APop current) w in
  if decide (current ∈ open_set b) then
    let b := mkBk (count b) queue' (open_set b ∖ {[current]})
                  (came_from b) (g_score b) in
    if decide (current = destination) then
      match reconstruct_path fuel (came_from b) current w with
      | OutOfFuel w => Starved (w, b, f_score)
      | Finished w => Stop (Returned true) (make_start start w, b, f_score)
      end
    else
      match for_each (a_star_relax destination current) (w, b, f_score)
                     (neighbors current) with
      | Raise e st => Stop (Raised e) st
      | Ok (w, b, f_score) =>
          let w := draw w in
          let w := if decide (current = start) then w
                   else make_visited current w in
          Continue (w, b, f_score)
      end
  else Stop (Raised KeyError)
            (w, mkBk (count b) queue' (open_set b) (came_from b) (g_score b),
             f_score).

Definition a_star_iter (fuel : nat) (start destination : Vertex)
    (st : World * Bk * gmap Vertex num)
  : step (World * Bk * gmap Vertex num) :=
  match queue_get (queue st.1.2) with
  | None => Stop (Returned false) st
  | Some (e, queue') => a_star_body fuel start destination e queue' st
  end.

Fixpoint a_star_loop (fuel : nat) (start destination : Vertex)
    (st : World * Bk * gmap Vertex num)
  : option outcome * (World * Bk * gmap Vertex num) :=
  match fuel with
  | O => (None, st)
  | S fuel' =>
      match a_star_iter fuel' start destination st with
      | Continue st' => a_star_loop fuel' start destination st'
      | Stop o st' => (Some o, st')
      | Starved st' => (None, st')
      end
  end.

Definition a_star_init (grid : list (list Vertex)) (start destination : Vertex)
  : Bk * gmap Vertex num :=
  (mkBk 0 (queue_put [] (Int 0, 0, start)) {[start]} ∅
        (<[start := Int 0]> (all_inf grid)),
   <[start := Int (h destination start)]> (all_inf grid)).

(** [Pathfinder.a_star_search].  Without a start or a destination the method
    raises at [get_position()], while it fills [f_score] and before its
    loop. *)
Definition a_star_search (fuel : nat) (pf : Pathfinder) (w : World)
  : option outcome * World :=
  match start pf, destination pf with
  | Some s, Some d =>
      let '(b, f_score) := a_star_init (grid pf) s d in
      let '(o, (w', _, _)) := a_star_loop fuel s d (w, b, f_score) in
      (o, w')
  | _, _ => (Some (Raised AttributeError), w)
  end.

(** *** The bookkeeping on its own *)

(** What the two loop bodies do to the bookkeeping, with the priority of a
    new tuple left open: [key temp v] for a vertex [v] reached at cost
    [temp]. *)
Definition relax_bk (key : num → Vertex → num) (current : Vertex) (b : Bk)
    (neighbor : Vertex) : result Bk :=
  match g_score b !! current with
  | None => Raise KeyError b
  | Some gc =>
      let temp := num_add gc 1 in
      match g_score b !! neighbor with
      | None => Raise KeyError b
      | Some gn =>
          if num_ltb temp gn then
            let came_from' := <[neighbor := current]> (came_from b) in
            let g_score' := <[neighbor := temp]> (g_score b) in
            if decide (neighbor ∈ open_set b) then
              Ok (mkBk (count b) (queue b) (open_set b) came_from' g_score')
            else
              Ok (mkBk (S (count b))
                       (queue_put (queue b) (key temp neighbor, S (count b), neighbor))
                       ({[neighbor]} ∪ open_set b) came_from' g_score')
          else Ok b
      end
  end.

Definition body_bk (key : num → Vertex → num) (destination : option Vertex)
    (e : entry) (queue' : list entry) (b : Bk) : step Bk :=
  let current := entry_vertex e in
  if decide (current ∈ open_set b) then
    let b := mkBk (count b) queue' (open_set b ∖ {[current]})
                  (came_from b) (g_score b) in
    if decide (Some current = destination) then Stop (Returned true) b
    else
      match for_each (relax_bk key current) b (neighbors current) with
      | Raise e b => Stop (Raised e) b
      | Ok b => Continue b
      end
  else Stop (Raised KeyError)
            (mkBk (count b) queue' (open_set b) (came_from b) (g_score b)).

Definition iter_bk (key : num → Vertex → num) (destination : option Vertex)
    (b : Bk) : step Bk :=
  match queue_get (queue b) with
  | None => Stop (Returned false) b
  | Some (e, queue') => body_bk key destination e queue' b
  end.

Fixpoint search_bk (key : num → Vertex → num) (destination : option Vertex)
    (fuel : nat) (b : Bk) : option outcome * Bk :=
  match fuel with
  | O => (None, b)
  | S fuel' =>
      match iter_bk key destination b with
      | Continue b' => search_bk key destination fuel' b'
      | Stop o b' => (Some o, b')
      | Starved b' => (None, b')
      end
  end.

Definition dijkstra_key : num → Vertex → num := λ temp _, temp.
Definition a_star_key (destination : Vertex) : num → Vertex → num :=
  λ temp v, num_add temp (h destination v).

(** ** The order of the tuples on the queue *)

Lemma entry_ltb_spec (a b : entry) :
  entry_ltb a b = true ↔
  match entry_key a, entry_key b with
  | Int x, Int y => (x < y)%Z ∨ (x = y ∧ entry_count a < entry_count b)
  | Int _, Inf => True
  | Inf, Int _ => False
  | Inf, Inf => entry_count a < entry_count b
  end.
Proof.
  unfold entry_ltb.
  destruct (entry_key a) as [x|], (entry_key b) as [y|]; simpl;
    rewrite ?orb_true_iff, ?andb_true_iff, ?bool_decide_eq_true,
            ?Z.ltb_lt, ?Nat.ltb_lt;
    intuition (try congruence; try lia).
Qed.

Lemma entry_ltb_irrefl (a : entry) : entry_ltb a a = false.
Proof.
  apply not_true_is_false. rewrite entry_ltb_spec.
  destruct (entry_key a); lia.
Qed.

Lemma entry_ltb_negtrans (a b c : entry) :
  entry_ltb a b = false → entry_ltb b c = false → entry_ltb a c = false.
Proof.
  intros H1%not_true_iff_false H2%not_true_iff_false.
  apply not_true_iff_false. revert H1 H2. rewrite !entry_ltb_spec.
  destruct (entry_key a), (entry_key b), (entry_key c); try lia; try tauto.
Qed.

Lemma entry_ltb_total (a b : entry) :
  entry_ltb a b = false → entry_ltb b a = false →
  entry_key a = entry_key b ∧ entry_count a = entry_count b.
Proof.
  intros H1%not_true_iff_false H2%not_true_iff_false.
  revert H1 H2. rewrite !entry_ltb_spec.
  destruct (entry_key a), (entry_key b); try tauto; intros; split;
    first [lia | done | f_equal; lia].
Qed.

Lemma queue_get_None (q : list entry) : queue_get q = None ↔ q = [].
Proof.
  destruct q as [|e q]; [done|]. simpl.
  destruct (queue_get q) as [[m r]|]; [destruct (entry_ltb m e)|]; done.
Qed.

Lemma queue_get_perm (q : list entry) e r :
  queue_get q = Some (e, r) → q ≡ₚ e :: r.
Proof.
  revert e r. induction q as [|a q IH]; intros e r; [done|]. simpl.
  destruct (queue_get q) as [[m r']|] eqn:Hq.
  - destruct (entry_ltb m a); intros [= <- <-]; [|done].
    rewrite (IH _ _ eq_refl). apply Permutation_swap.
  - intros [= <- <-]. apply queue_get_None in Hq. by subst.
Qed.

Lemma queue_get_least (q : list entry) e r :
  queue_get q = Some (e, r) → ∀ x, x ∈ r → entry_ltb x e = false.
Proof.
  revert e r. induction q as [|a q IH]; intros e r; [done|]. simpl.
  destruct (queue_get q) as [[m r']|] eqn:Hq.
  - specialize (IH _ _ eq_refl).
    destruct (entry_ltb m a) eqn:Hma; intros [= <- <-] x Hx.
    + apply elem_of_cons in Hx as [->|Hx]; [|by apply IH].
      apply not_true_iff_false. intros Ham.
      apply entry_ltb_spec in Hma, Ham.
      destruct (entry_key a), (entry_key m); lia || tauto.
    + apply queue_get_perm in Hq. rewrite Hq in Hx.
      apply elem_of_cons in Hx as [->|Hx]; [done|].
      eapply entry_ltb_negtrans; [by apply IH|done].
  - intros [= <- <-] x Hx. by apply elem_of_nil in Hx.
Qed.

(** ** Streams without a QUIT *)

Lemma no_events_quit_free : quit_free no_events.
Proof. intros k. apply not_elem_of_nil. Qed.

(** ** Loops over lists *)

Definition result_map {S T : Type} (f : S → T) (r : result S) : result T :=
  match r with
  | Ok s => Ok (f s)
  | Raise e s => Raise e (f s)
  end.

(** The bookkeeping side of a turn: it has no fuel to run out of, and a
    starved reconstruction stands for the return that follows it. *)
Definition step_bk {S : Type} (f : S → Bk) (r : step S) : step Bk :=
  match r with
  | Continue s => Continue (f s)
  | Stop o s => Stop o (f s)
  | Starved s => Stop (Returned true) (f s)
  end.

Definition result_state {S : Type} (r : result S) : S :=
  match r with Ok s => s | Raise _ s => s end.

Definition step_state {S : Type} (r : step S) : S :=
  match r with Continue s => s | Stop _ s => s | Starved s => s end.

Lemma for_each_cons_Ok {A S : Type} (body : S → A → result S) s x l s' :
  body s x = Ok s' → for_each body s (x :: l) = for_each body s' l.
Proof. intros H. simpl. by rewrite H. Qed.

Lemma for_each_cons_Raise {A S : Type} (body : S → A → result S) s x l e s' :
  body s x = Raise e s' → for_each body s (x :: l) = Raise e s'.
Proof. intros H. simpl. by rewrite H. Qed.

Lemma for_each_map {A S T : Type} (f : S → T) (body1 : S → A → result S)
    (body2 : T → A → result T) (l : list A) (s : S) :
  (∀ s x, result_map f (body1 s x) = body2 (f s) x) →
  result_map f (for_each body1 s l) = for_each body2 (f s) l.
Proof.
  intros Hb. revert s. induction l as [|x l IH]; intros s; [done|]. simpl.
  rewrite <- Hb. destruct (body1 s x); simpl; [apply IH | done].
Qed.

(** An invariant of the body holds in whatever state the loop ends. *)
Lemma for_each_inv {A S : Type} (P : S → Prop) (body : S → A → result S)
    (l : list A) (s : S) :
  (∀ s x, x ∈ l → P s → P (result_state (body s x))) →
  P s → P (result_state (for_each body s l)).
Proof.
  revert s. induction l as [|x l IH]; intros s Hb Hs; [done|]. simpl.
  specialize (Hb s x) as Hx. 
  destruct (body s x) eqn:Hbx; simpl in *.
  - apply IH; [|apply Hx; [left|done]].
    intros s1 y Hy. apply Hb. by right.
  - apply Hx; [left|done].
Qed.

(** ** The searches and their bookkeeping *)

Lemma dijkstra_relax_bk destination current st neighbor :
  result_map snd (dijkstra_relax destination current st neighbor)
  = relax_bk dijkstra_key current st.2 neighbor.
Proof.
  destruct st as [w b]. unfold dijkstra_relax, relax_bk, dijkstra_key. simpl.
  destruct (g_score b !! current); [|done]. simpl.
  destruct (g_score b !! neighbor); [|done].
  destruct (num_ltb _ _); [|done].
  repeat case_decide; done.
Qed.

Lemma a_star_relax_bk destination current st neighbor :
  result_map (λ x, x.1.2) (a_star_relax destination current st neighbor)
  = relax_bk (a_star_key destination) current st.1.2 neighbor.
Proof.
  destruct st as [[w b] f]. unfold a_star_relax, relax_bk, a_star_key. simpl.
  destruct (g_score b !! current); [|done]. simpl.
  destruct (g_score b !! neighbor); [|done].
  destruct (num_ltb _ _); [|done].
  repeat case_decide; done.
Qed.

Lemma dijkstra_body_bk fuel start destination e queue' st :
  step_bk snd (dijkstra_body fuel start destination e queue' st)
  = body_bk dijkstra_key destination e queue' st.2.
Proof.
  destruct st as [w b]. unfold dijkstra_body, body_bk. simpl.
  case_decide; [|done].
  case_decide.
  - by destruct (reconstruct_path _ _ _ _).
  - match goal with |- context [for_each ?f ?s ?l] =>
      pose proof (for_each_map snd f (relax_bk dijkstra_key (entry_vertex e)) l s
                    (dijkstra_relax_bk destination (entry_vertex e))) as Hm;
      destruct (for_each f s l) as [[w' b']|x [w' b']] end;
    simpl in Hm; by rewrite <- Hm.
Qed.

Lemma a_star_body_bk fuel start destination e queue' st :
  step_bk (λ x, x.1.2) (a_star_body fuel start destination e queue' st)
  = body_bk (a_star_key destination) (Some destination) e queue' st.1.2.
Proof.
  destruct st as [[w b] f]. unfold a_star_body, body_bk. simpl.
  case_decide; [|done].
  case_decide as Hd.
  - rewrite decide_True by congruence.
    by destruct (reconstruct_path _ _ _ _).
  - rewrite decide_False by congruence.
    match goal with |- context [for_each ?f ?s ?l] =>
      pose proof (for_each_map (λ x, x.1.2) f
                    (relax_bk (a_star_key destination) (entry_vertex e)) l s
                    (a_star_relax_bk destination (entry_vertex e))) as Hm;
      destruct (for_each f s l) as [[[w' b'] f']|x [[w' b'] f']] end;
    simpl in Hm; by rewrite <- Hm.
Qed.

Lemma dijkstra_iter_bk fuel start destination st :
  step_bk snd (dijkstra_iter fuel start destination st)
  = iter_bk dijkstra_key destination st.2.
Proof.
  unfold dijkstra_iter, iter_bk.
  destruct (queue_get _) as [[e q']|]; [apply dijkstra_body_bk|done].
Qed.

Lemma a_star_iter_bk fuel start destination st :
  step_bk (λ x, x.1.2) (a_star_iter fuel start destination st)
  = iter_bk (a_star_key destination) (Some destination) st.1.2.
Proof.
  unfold a_star_iter, iter_bk.
  destruct (queue_get _) as [[e q']|]; [apply a_star_body_bk|done].
Qed.

(** A run and the run of its bookkeeping agree, except that the former may
    run out of fuel while it reconstructs the path. *)
Definition agree {S : Type} (f : S → Bk) (r : option outcome * S)
    (r' : option outcome * Bk) : Prop :=
  f r.2 = r'.2 ∧ (r.1 = r'.1 ∨ (r.1 = None ∧ r'.1 = Some (Returned true))).

Lemma dijkstra_loop_bk fuel start destination st :
  agree snd (dijkstra_loop fuel start destination st)
        (search_bk dijkstra_key destination fuel st.2).
Proof.
  revert st. induction fuel as [|fuel IH]; intros st; [by split; [|left]|]. simpl.
  rewrite <- (dijkstra_iter_bk fuel start).
  destruct (dijkstra_iter _ _ _ _) as [st1|o1 st1|st1]; simpl;
    [apply IH|by split; [|left]|by split; [|right]].
Qed.

Lemma a_star_loop_bk fuel start destination st :
  agree (λ x, x.1.2) (a_star_loop fuel start destination st)
        (search_bk (a_star_key destination) (Some destination) fuel st.1.2).
Proof.
  revert st. induction fuel as [|fuel IH]; intros st; [by split; [|left]|]. simpl.
  rewrite <- (a_star_iter_bk fuel start).
  destruct (a_star_iter _ _ _ _) as [st1|o1 st1|st1]; simpl;
    [apply IH|by split; [|left]|by split; [|right]].
Qed.

(** ** Well-formed bookkeeping *)

(** What every state of either loop satisfies: the set of queued vertices
    mirrors the queue, which holds a vertex at most once; the counter bounds
    the counts on the queue, which are all different; costs are not negative,
    finite for queued vertices, and strictly smaller at a predecessor. *)
Record wf_bk (b : Bk) : Prop := {
  wf_nodup : NoDup (entry_vertex <$> queue b);
  wf_open : ∀ v, v ∈ open_set b ↔ v ∈ entry_vertex <$> queue b;
  wf_count : ∀ e, e ∈ queue b → entry_count e ≤ count b;
  wf_count_nodup : NoDup (entry_count <$> queue b);
  wf_nonneg : ∀ v z, g_score b !! v = Some (Int z) → (0 ≤ z)%Z;
  wf_queue_finite : ∀ e, e ∈ queue b →
    ∃ z, g_score b !! entry_vertex e = Some (Int z);
  wf_came_from : ∀ v u, came_from b !! v = Some u →
    ∃ du dv, g_score b !! u = Some (Int du) ∧ g_score b !! v = Some (Int dv)
             ∧ (du < dv)%Z
}.

Lemma num_ltb_Int_inv (a b : num) :
  num_ltb a b = true → ∃ z, a = Int z ∧ (b = Inf ∨ ∃ y, b = Int y ∧ (z < y)%Z).
Proof.
  destruct a as [z|], b as [y|]; simpl; try done.
  - intros ?%Z.ltb_lt. eauto 6.
  - eauto.
Qed.

Lemma relax_bk_wf key current b neighbor :
  wf_bk b → wf_bk (result_state (relax_bk key current b neighbor)).
Proof.
  intros Hwf. unfold relax_bk, queue_put.
  destruct (g_score b !! current) as [gc|] eqn:Hc; [|done]. simpl.
  destruct (g_score b !! neighbor) as [gn|] eqn:Hn; [|done].
  destruct (num_ltb _ _) eqn:Hlt; [|done].
  apply num_ltb_Int_inv in Hlt as (t & Ht & Hgn).
  destruct gc as [c|]; [|done]. simpl in Ht. injection Ht as <-.
  assert (0 ≤ c)%Z as Hc0 by (by eapply wf_nonneg).
  assert (current ≠ neighbor) as Hne.
  { intros ->. rewrite Hc in Hn. injection Hn as <-.
    destruct Hgn as [?|(y & [= <-] & ?)]; [done|lia]. }
  assert (∀ v z, <[neighbor:=Int (c + 1)]> (g_score b) !! v = Some (Int z) → (0 ≤ z)%Z)
    as Hnonneg.
  { intros v z. rewrite lookup_insert. case_decide.
    - intros [= <-]. lia.
    - by apply wf_nonneg. }
  assert (∀ v u, <[neighbor:=current]> (came_from b) !! v = Some u →
    ∃ du dv, <[neighbor:=Int (c + 1)]> (g_score b) !! u = Some (Int du)
             ∧ <[neighbor:=Int (c + 1)]> (g_score b) !! v = Some (Int dv)
             ∧ (du < dv)%Z) as Hcf.
  { intros v u. rewrite !lookup_insert. case_decide as Hv.
    - intros [= <-]. rewrite decide_False by done.
      exists c, (c + 1)%Z. split_and!; [done|done|lia].
    - intros (du & dv & Hu & Hv' & Hlt)%(wf_came_from _ Hwf).
      case_decide as Hu'.
      + subst u. exists (c + 1)%Z, dv. split_and!; [done|done|].
        rewrite Hn in Hu. injection Hu as ->.
        destruct Hgn as [?|(y & [= <-] & ?)]; [done|lia].
      + eauto. }
  case_decide as Hopen; simpl.
  - constructor; simpl; try apply Hwf; try done.
    intros e He. destruct (decide (entry_vertex e = neighbor)) as [->|].
    + exists (c + 1)%Z. by rewrite lookup_insert_eq.
    + rewrite lookup_insert_ne by done. by apply wf_queue_finite.
  - constructor; simpl; try done.
    + apply NoDup_cons. split; [|apply Hwf].
      by rewrite <- (wf_open _ Hwf).
    + intros v. rewrite elem_of_cons, elem_of_union, elem_of_singleton.
      by rewrite (wf_open _ Hwf).
    + intros e [->|He]%elem_of_cons; [done|].
      apply (wf_count _ Hwf) in He. lia.
    + apply NoDup_cons. split; [|apply Hwf].
      intros (e & He1 & He2)%list_elem_of_fmap.
      apply (wf_count _ Hwf) in He2. unfold entry_count in *. simpl in *. lia.
    + intros e [->|He]%elem_of_cons.
      * exists (c + 1)%Z. by rewrite lookup_insert_eq.
      * destruct (decide (entry_vertex e = neighbor)) as [->|].
        -- exists (c + 1)%Z. by rewrite lookup_insert_eq.
        -- rewrite lookup_insert_ne by done. by apply wf_queue_finite.
Qed.

Lemma for_each_relax_bk_wf key current b l :
  wf_bk b → wf_bk (result_state (for_each (relax_bk key current) b l)).
Proof.
  apply (for_each_inv wf_bk). intros s x _. apply relax_bk_wf.
Qed.

(** Taking the least tuple off a well-formed queue. *)
Lemma wf_bk_pop b e queue' :
  wf_bk b → queue_get (queue b) = Some (e, queue') →
  entry_vertex e ∈ open_set b
  ∧ (∃ z, g_score b !! entry_vertex e = Some (Int z))
  ∧ wf_bk (mkBk (count b) queue' (open_set b ∖ {[entry_vertex e]})
                (came_from b) (g_score b)).
Proof.
  intros Hwf Hq%queue_get_perm.
  assert (∀ x, x ∈ queue b ↔ x = e ∨ x ∈ queue') as Hin.
  { intros x. by rewrite Hq, elem_of_cons. }
  pose proof (wf_nodup _ Hwf) as Hnd. rewrite Hq, fmap_cons in Hnd.
  apply NoDup_cons in Hnd as [Hnd1 Hnd2].
  pose proof (wf_count_nodup _ Hwf) as Hcnd. rewrite Hq, fmap_cons in Hcnd.
  apply NoDup_cons in Hcnd as [_ Hcnd].
  split_and!.
  - apply (wf_open _ Hwf). rewrite Hq, fmap_cons. left.
  - apply (wf_queue_finite _ Hwf). apply Hin. by left.
  - constructor; simpl; try apply Hwf; try done.
    + intros v. rewrite elem_of_difference, elem_of_singleton, (wf_open _ Hwf).
      rewrite Hq, fmap_cons, elem_of_cons. split; [tauto|].
      intros Hv. split; [by right|]. by intros ->.
    + intros x Hx. apply (wf_count _ Hwf), Hin. by right.
    + intros x Hx. apply (wf_queue_finite _ Hwf), Hin. by right.
Qed.

Lemma body_bk_wf key destination e queue' b :
  wf_bk b → queue_get (queue b) = Some (e, queue') →
  wf_bk (step_state (body_bk key destination e queue' b)).
Proof.
  intros Hwf Hq. destruct (wf_bk_pop _ _ _ Hwf Hq) as (Hin & _ & Hwf').
  unfold body_bk. rewrite decide_True by done.
  case_decide; [done|].
  pose proof (for_each_relax_bk_wf key (entry_vertex e) _ (neighbors (entry_vertex e)) Hwf') as H'.
  by destruct (for_each _ _ _).
Qed.

Lemma iter_bk_wf key destination b :
  wf_bk b → wf_bk (step_state (iter_bk key destination b)).
Proof.
  intros Hwf. unfold iter_bk.
  destruct (queue_get _) as [[e q']|] eqn:Hq; [by apply body_bk_wf|done].
Qed.

Lemma search_bk_wf key destination fuel b :
  wf_bk b → wf_bk (search_bk key destination fuel b).2.
Proof.
  revert b. induction fuel as [|fuel IH]; intros b Hwf; [done|]. simpl.
  pose proof (iter_bk_wf key destination b Hwf) as H'.
  destruct (iter_bk _ _ _); simpl in H'; [by apply IH|done..].
Qed.

Lemma all_inf_lookup grid v z : all_inf grid !! v ≠ Some (Int z).
Proof.
  unfold all_inf. induction (concat grid) as [|x l IH]; simpl; [done|].
  rewrite lookup_insert. by case_decide.
Qed.

Lemma init_wf grid start :
  wf_bk (mkBk 0 (queue_put [] (Int 0, 0, start)) {[start]} ∅
              (<[start := Int 0]> (all_inf grid))).
Proof.
  unfold queue_put. constructor; simpl.
  - apply NoDup_singleton.
  - intros v. by rewrite elem_of_singleton, list_elem_of_singleton.
  - by intros e ->%list_elem_of_singleton.
  - apply NoDup_singleton.
  - intros v z. rewrite lookup_insert. case_decide; [intros [= <-]; lia|].
    intros ?. by destruct (all_inf_lookup grid v z).
  - intros e ->%list_elem_of_singleton. exists 0%Z. by rewrite lookup_insert_eq.
  - intros v u. by rewrite lookup_empty.
Qed.

(** ** Path reconstruction comes to an end *)

Lemma reconstruct_path_terminates b :
  wf_bk b → ∀ (n : nat) v fuel w,
  (∀ z, g_score b !! v = Some (Int z) → (z ≤ Z.of_nat n)%Z) → n ≤ fuel →
  ∃ w', reconstruct_path fuel (came_from b) v w = Finished w'.
Proof.
  intros Hwf. induction n as [|n IH]; intros v fuel w Hv Hfuel.
  - destruct fuel; simpl; destruct (came_from b !! v) as [u|] eqn:Hu; eauto.
    + apply (wf_came_from _ Hwf) in Hu as (du & dv & Hdu & Hdv & Hlt).
      apply Hv in Hdv. apply (wf_nonneg _ Hwf) in Hdu. lia.
    + apply (wf_came_from _ Hwf) in Hu as (du & dv & Hdu & Hdv & Hlt).
      apply Hv in Hdv. apply (wf_nonneg _ Hwf) in Hdu. lia.
  - destruct fuel as [|fuel]; [lia|]. simpl.
    destruct (came_from b !! v) as [u|] eqn:Hu; [|eauto].
    apply IH; [|lia]. intros z Hz.
    apply (wf_came_from _ Hwf) in Hu as (du & dv & Hdu & Hdv & Hlt).
    apply Hv in Hdv. rewrite Hdu in Hz. injection Hz as <-. lia.
Qed.

Lemma reconstruct_path_fuel b v :
  wf_bk b → ∃ K, ∀ fuel w, K ≤ fuel →
  ∃ w', reconstruct_path fuel (came_from b) v w = Finished w'.
Proof.
  intros Hwf. destruct (g_score b !! v) as [[z|]|] eqn:Hv.
  - exists (Z.to_nat z). intros fuel w Hf.
    apply (reconstruct_path_terminates b Hwf (Z.to_nat z)); [|done].
    intros z' Hz'. rewrite Hv in Hz'. injection Hz' as <-.
    apply (wf_nonneg _ Hwf) in Hv. lia.
  - exists 0. intros fuel w _.
    apply (reconstruct_path_terminates b Hwf 0); [|lia].
    intros z' Hz'. by rewrite Hv in Hz'.
  - exists 0. intros fuel w _.
    apply (reconstruct_path_terminates b Hwf 0); [|lia].
    intros z' Hz'. by rewrite Hv in Hz'.
Qed.

(** ** What a run writes to the log *)

Lemma trace_record a w : trace (record a w) = trace w ++ [a].
Proof. done. Qed.

Lemma trace_set_state v s w : trace (set_state v s w) = trace w ++ [AMark v s].
Proof. done. Qed.

Lemma trace_draw w : trace (draw w) = trace w ++ [ADraw].
Proof. done. Qed.

(** One [AQuit] per [QUIT] event. *)
Definition quits (evs : list event_type) : list action :=
  omap (λ ev, if decide (ev = QUIT) then Some AQuit else None) evs.

Lemma poll_events_fold evs w :
  let w' := foldl (λ w ev, if decide (ev = QUIT) then record AQuit w else w) w evs in
  trace w' = trace w ++ quits evs ∧ vstate w' = vstate w ∧ polls w' = polls w.
Proof.
  revert w. induction evs as [|ev evs IH]; intros w; simpl.
  { by rewrite app_nil_r. }
  destruct (IH (if decide (ev = QUIT) then record AQuit w else w)) as (-> & -> & ->).
  unfold quits. simpl. case_decide; simpl; [|done].
  by rewrite trace_record, <- app_assoc.
Qed.

Lemma trace_poll_events w :
  trace (poll_events w) = trace w ++ APoll :: quits (events_at (polls w)).
Proof.
  unfold poll_events.
  destruct (poll_events_fold (events_at (polls w))
              (mkWorld (vstate w) (S (polls w)) (APoll :: log w))) as (-> & _).
  unfold trace. simpl. by rewrite <- app_assoc.
Qed.

Lemma vstate_poll_events w : vstate (poll_events w) = vstate w.
Proof.
  unfold poll_events.
  by destruct (poll_events_fold (events_at (polls w))
              (mkWorld (vstate w) (S (polls w)) (APoll :: log w))) as (_ & -> & _).
Qed.

Lemma polls_poll_events w : polls (poll_events w) = S (polls w).
Proof.
  unfold poll_events.
  by destruct (poll_events_fold (events_at (polls w))
              (mkWorld (vstate w) (S (polls w)) (APoll :: log w))) as (_ & _ & ->).
Qed.

(** ** Path reconstruction *)

Definition fueled_state {S : Type} (r : fueled S) : S :=
  match r with Finished s => s | OutOfFuel s => s end.

(** The vertices that [__reconstruct_path] walks through after [v]. *)
Fixpoint predecessors (fuel : nat) (came_from : gmap Vertex Vertex) (v : Vertex)
  : list Vertex :=
  match came_from !! v with
  | None => []
  | Some u =>
      match fuel with
      | O => []
      | S fuel' => u :: predecessors fuel' came_from u
      end
  end.

(** [l] is the whole chain of predecessors of [v]: it follows [came_from] and
    ends at the vertex that has no entry. *)
Fixpoint is_chain (came_from : gmap Vertex Vertex) (v : Vertex) (l : list Vertex)
  : Prop :=
  match l with
  | [] => came_from !! v = None
  | u :: l' => came_from !! v = Some u ∧ is_chain came_from u l'
  end.

Definition path_actions (l : list Vertex) : list action :=
  l ≫= λ u, [AMark u Path; ADraw].

Lemma reconstruct_path_trace fuel cf v w :
  trace (fueled_state (reconstruct_path fuel cf v w))
  = trace w ++ path_actions (predecessors fuel cf v).
Proof.
  revert v w. induction fuel as [|fuel IH]; intros v w; simpl;
    destruct (cf !! v) as [u|]; simpl; rewrite ?app_nil_r; try done.
  unfold make_path. rewrite IH, trace_draw, trace_set_state, <- !app_assoc. done.
Qed.

Lemma reconstruct_path_vstate fuel cf v w :
  vstate (fueled_state (reconstruct_path fuel cf v w))
  = foldl (λ m u, <[u := Path]> m) (vstate w) (predecessors fuel cf v).
Proof.
  revert v w. induction fuel as [|fuel IH]; intros v w; simpl;
    destruct (cf !! v) as [u|]; simpl; try done.
Qed.

Lemma reconstruct_path_finished fuel cf v w w' :
  reconstruct_path fuel cf v w = Finished w' →
  is_chain cf v (predecessors fuel cf v).
Proof.
  revert v w. induction fuel as [|fuel IH]; intros v w; simpl;
    destruct (cf !! v) as [u|] eqn:Hu; simpl; try done.
  intros H'. split; [done|]. by eapply IH.
Qed.

Lemma is_chain_finished cf v l fuel w :
  is_chain cf v l → length l ≤ fuel →
  predecessors fuel cf v = l
  ∧ ∃ w', reconstruct_path fuel cf v w = Finished w'.
Proof.
  revert v fuel w. induction l as [|u l IH]; intros v fuel w; simpl.
  - intros Hv _. destruct fuel; simpl; rewrite Hv; eauto.
  - intros [Hv Hl] Hf. destruct fuel as [|fuel]; [lia|]. simpl. rewrite Hv.
    destruct (IH u fuel (draw (make_path u w)) Hl) as [-> ?]; [lia|]. done.
Qed.

Lemma is_chain_functional cf v l1 l2 :
  is_chain cf v l1 → is_chain cf v l2 → l1 = l2.
Proof.
  revert v l2. induction l1 as [|u l1 IH]; intros v [|u2 l2]; simpl; try done.
  - intros -> [? _]. done.
  - intros [-> _] ?. done.
  - intros [Hu H1] [Hu2 H2]. rewrite Hu in Hu2. injection Hu2 as <-.
    f_equal. by eapply IH.
Qed.

Lemma is_chain_suffix cf v l1 u l2 :
  is_chain cf v (l1 ++ u :: l2) → is_chain cf u l2.
Proof.
  revert v. induction l1 as [|x l1 IH]; intros v; simpl.
  - by intros [_ ?].
  - intros [_ ?]. by eapply IH.
Qed.

(** A chain that ends does not come back to where it started. *)
Lemma is_chain_not_in cf v l : is_chain cf v l → v ∉ l.
Proof.
  intros Hc (l1 & l2 & ->)%list_elem_of_split.
  pose proof (is_chain_suffix _ _ _ _ _ Hc) as Hs.
  pose proof (is_chain_functional _ _ _ _ Hc Hs) as Heq.
  apply (f_equal length) in Heq. rewrite length_app in Heq. simpl in Heq. lia.
Qed.

Lemma is_chain_last cf v l :
  is_chain cf v l → ∃ x, last (v :: l) = Some x ∧ cf !! x = None.
Proof.
  revert v. induction l as [|u l IH]; intros v; [by exists v|].
  intros [_ Hl]. apply IH in Hl as (x & Hx & Hn). exists x. by split.
Qed.

(** In a search, the chain of a vertex stays strictly below its cost. *)
Lemma predecessors_below b fuel v u :
  wf_bk b → u ∈ predecessors fuel (came_from b) v →
  ∃ du dv, g_score b !! u = Some (Int du) ∧ g_score b !! v = Some (Int dv)
           ∧ (du < dv)%Z.
Proof.
  intros Hwf. revert v. induction fuel as [|fuel IH]; intros v; simpl;
    destruct (came_from b !! v) as [p|] eqn:Hp; try by intros ?%elem_of_nil.
  apply (wf_came_from _ Hwf) in Hp as (dp & dv & Hdp & Hdv & Hlt).
  intros [->|Hu]%elem_of_cons; [eauto|].
  apply IH in Hu as (du & dp' & Hdu & Hdp' & Hlt').
  rewrite Hdp in Hdp'. injection Hdp' as <-.
  exists du, dv. split_and!; [done|done|lia].
Qed.

(** ** What one turn writes to the log *)

Local Ltac trace_eq :=
  repeat (progress (rewrite <- ?app_assoc; simpl)); done.

(** What a turn may do after it has taken [current] off the queue: draw, mark
    a neighbour other than the destination as visiting, mark [current] as
    visited when it is neither the start nor the destination; or, when
    [current] is the destination, mark its predecessors as path and the start
    as start. *)
Definition tail_action (fuel : nat) (start : Vertex) (destination : option Vertex)
    (came_from : gmap Vertex Vertex) (current : Vertex) (a : action) : Prop :=
  match a with
  | ADraw => True
  | AMark v Visiting => Some v ≠ destination ∧ Some current ≠ destination
                        ∧ v ∈ neighbors current
  | AMark v Visited => v = current ∧ current ≠ start ∧ Some current ≠ destination
  | AMark v Path => Some current = destination
                    ∧ v ∈ predecessors fuel came_from current
  | AMark v Start => v = start ∧ Some current = destination
  | _ => False
  end.

Lemma dijkstra_relax_trace destination current w b neighbor :
  ∃ acts,
    trace (result_state (dijkstra_relax destination current (w, b) neighbor)).1
    = trace w ++ acts
    ∧ Forall (λ a, a = AMark neighbor Visiting ∧ Some neighbor ≠ destination) acts.
Proof.
  unfold dijkstra_relax.
  destruct (g_score b !! current); [|by exists []; rewrite app_nil_r].
  destruct (g_score b !! neighbor); [|by exists []; rewrite app_nil_r].
  destruct (num_ltb _ _); [|by exists []; rewrite app_nil_r].
  repeat case_decide; simpl; try (by exists []; rewrite app_nil_r).
  exists [AMark neighbor Visiting]. split; [done|]. by repeat constructor.
Qed.

Lemma a_star_relax_trace destination current w b f neighbor :
  ∃ acts,
    trace (result_state (a_star_relax destination current (w, b, f) neighbor)).1.1
    = trace w ++ acts
    ∧ Forall (λ a, a = AMark neighbor Visiting ∧ neighbor ≠ destination) acts.
Proof.
  unfold a_star_relax.
  destruct (g_score b !! current); [|by exists []; rewrite app_nil_r].
  destruct (g_score b !! neighbor); [|by exists []; rewrite app_nil_r].
  destruct (num_ltb _ _); [|by exists []; rewrite app_nil_r].
  repeat case_decide; simpl; try (by exists []; rewrite app_nil_r).
  exists [AMark neighbor Visiting]. split; [done|]. by repeat constructor.
Qed.

Lemma for_each_trace {S : Type} (world : S → World) (P : Vertex → action → Prop)
    (body : S → Vertex → result S) (l : list Vertex) (s : S) :
  (∀ s x, ∃ acts, trace (world (result_state (body s x))) = trace (world s) ++ acts
                  ∧ Forall (P x) acts) →
  ∃ acts, trace (world (result_state (for_each body s l))) = trace (world s) ++ acts
          ∧ Forall (λ a, ∃ x, x ∈ l ∧ P x a) acts.
Proof.
  intros Hb. revert s. induction l as [|x l IH]; intros s; simpl.
  { exists []. by rewrite app_nil_r. }
  destruct (Hb s x) as (acts1 & Ht1 & Hf1).
  assert (Forall (λ a, ∃ y, y ∈ x :: l ∧ P y a) acts1) as Hf1'.
  { eapply Forall_impl; [exact Hf1|]. intros a Ha. exists x. split; [left|done]. }
  destruct (body s x) as [s1|e s1]; simpl in *.
  - destruct (IH s1) as (acts2 & Ht2 & Hf2).
    exists (acts1 ++ acts2). rewrite Ht2, Ht1, <- app_assoc. split; [done|].
    apply Forall_app. split; [done|].
    eapply Forall_impl; [exact Hf2|]. intros a (y & Hy & Ha).
    exists y. split; [by right|done].
  - by exists acts1.
Qed.

Lemma dijkstra_body_trace fuel start destination e queue' w b :
  ∃ tail,
    trace (step_state (dijkstra_body fuel start destination e queue' (w, b))).1
    = trace w ++ APoll :: quits (events_at (polls w)) ++ APop (entry_vertex e) :: tail
    ∧ Forall (tail_action fuel start destination (came_from b) (entry_vertex e)) tail.
Proof.
  unfold dijkstra_body. set (current := entry_vertex e).
  assert (trace (record (APop current) (poll_events w))
          = trace w ++ APoll :: quits (events_at (polls w)) ++ [APop current]) as Hpre.
  { rewrite trace_record, trace_poll_events, <- app_assoc. done. }
  case_decide; simpl; [|exists []; split; [rewrite Hpre; trace_eq|done]].
  case_decide as Hd; simpl.
  - pose proof (reconstruct_path_trace fuel (came_from b) current
                  (record (APop current) (poll_events w))) as Hr.
    assert (Forall (tail_action fuel start destination (came_from b) current)
              (path_actions (predecessors fuel (came_from b) current))) as Hpath.
    { unfold path_actions. apply Forall_forall. intros a (u & Ha & Hu)%list_elem_of_bind.
      apply elem_of_cons in Ha as [->|Ha]; [done|].
      apply list_elem_of_singleton in Ha as ->. done. }
    destruct (reconstruct_path _ _ _ _) as [w'|w']; simpl in *.
    + exists (path_actions (predecessors fuel (came_from b) current)
              ++ [AMark start Start]).
      unfold make_start. rewrite trace_set_state, Hr, Hpre, <- ?app_assoc.
      split; [trace_eq|]. apply Forall_app. split; [done|]. by repeat constructor.
    + exists (path_actions (predecessors fuel (came_from b) current)).
      rewrite Hr, Hpre. split; [trace_eq|done].
  - match goal with |- context [for_each ?f ?s ?l] =>
      destruct (for_each_trace fst
                  (λ x a, a = AMark x Visiting ∧ Some x ≠ destination) f l s)
        as (acts & Ht & Hf);
      [intros [w1 b1] x; apply dijkstra_relax_trace|];
      destruct (for_each f s l) as [[w' b']|x [w' b']] end; simpl in *.
    + assert (Forall (tail_action fuel start destination (came_from b) current) acts)
        as Hacts.
      { eapply Forall_impl; [exact Hf|]. by intros a (x & Hx & -> & Hn). }
      case_decide.
      * exists (acts ++ [ADraw]). rewrite trace_draw, Ht, Hpre, <- ?app_assoc.
        split; [trace_eq|]. apply Forall_app. split; [done|]. by repeat constructor.
      * exists (acts ++ [ADraw; AMark current Visited]).
        unfold make_visited. rewrite trace_set_state, trace_draw, Ht, Hpre, <- ?app_assoc.
        split; [trace_eq|]. apply Forall_app. split; [done|]. by repeat constructor.
    + exists acts. rewrite Ht, Hpre. split; [trace_eq|].
      eapply Forall_impl; [exact Hf|]. by intros a (y & Hy & -> & Hn).
Qed.

Lemma a_star_body_trace fuel start destination e queue' w b f :
  ∃ tail,
    trace (step_state (a_star_body fuel start destination e queue' (w, b, f))).1.1
    = trace w ++ APoll :: quits (events_at (polls w)) ++ APop (entry_vertex e) :: tail
    ∧ Forall (tail_action fuel start (Some destination) (came_from b) (entry_vertex e))
             tail.
Proof.
  unfold a_star_body. set (current := entry_vertex e).
  assert (trace (record (APop current) (poll_events w))
          = trace w ++ APoll :: quits (events_at (polls w)) ++ [APop current]) as Hpre.
  { rewrite trace_record, trace_poll_events, <- app_assoc. done. }
  case_decide; simpl; [|exists []; split; [rewrite Hpre; trace_eq|done]].
  case_decide as Hd; simpl.
  - pose proof (reconstruct_path_trace fuel (came_from b) current
                  (record (APop current) (poll_events w))) as Hr.
    assert (Forall (tail_action fuel start (Some destination) (came_from b) current)
              (path_actions (predecessors fuel (came_from b) current))) as Hpath.
    { unfold path_actions. apply Forall_forall. intros a (u & Ha & Hu)%list_elem_of_bind.
      apply elem_of_cons in Ha as [->|Ha]; [by split; [congruence|]|].
      apply list_elem_of_singleton in Ha as ->. done. }
    destruct (reconstruct_path _ _ _ _) as [w'|w']; simpl in *.
    + exists (path_actions (predecessors fuel (came_from b) current)
              ++ [AMark start Start]).
      unfold make_start. rewrite trace_set_state, Hr, Hpre, <- ?app_assoc.
      split; [trace_eq|]. apply Forall_app. split; [done|].
      repeat constructor. congruence.
    + exists (path_actions (predecessors fuel (came_from b) current)).
      rewrite Hr, Hpre. split; [trace_eq|done].
  - assert (Some current ≠ Some destination) as Hd' by congruence.
    match goal with |- context [for_each ?f ?s ?l] =>
      destruct (for_each_trace (λ x, x.1.1)
                  (λ x a, a = AMark x Visiting ∧ x ≠ destination) f l s)
        as (acts & Ht & Hf);
      [intros [[w1 b1] f1] x; apply a_star_relax_trace|];
      destruct (for_each f s l) as [[[w' b'] f']|x [[w' b'] f']] end; simpl in *.
    + assert (Forall (tail_action fuel start (Some destination) (came_from b) current)
                acts) as Hacts.
      { eapply Forall_impl; [exact Hf|]. intros a (x & Hx & -> & Hn).
        split_and!; [congruence|done|done]. }
      case_decide.
      * exists (acts ++ [ADraw]). rewrite trace_draw, Ht, Hpre, <- ?app_assoc.
        split; [trace_eq|]. apply Forall_app. split; [done|]. by repeat constructor.
      * exists (acts ++ [ADraw; AMark current Visited]).
        unfold make_visited. rewrite trace_set_state, trace_draw, Ht, Hpre, <- ?app_assoc.
        split; [trace_eq|]. apply Forall_app. split; [done|]. by repeat constructor.
    + exists acts. rewrite Ht, Hpre. split; [trace_eq|].
      eapply Forall_impl; [exact Hf|]. intros a (y & Hy & -> & Hn).
      split_and!; [congruence|done|done].
Qed.

(** ** The states a search goes through *)

Inductive dijkstra_reachable (grid : list (list Vertex)) (start : Vertex)
    (destination : option Vertex) : World * Bk → Prop :=
  | dijkstra_reach_init w :
      dijkstra_reachable grid start destination (w, dijkstra_init grid start)
  | dijkstra_reach_step fuel st st' :
      dijkstra_reachable grid start destination st →
      dijkstra_iter fuel start destination st = Continue st' →
      dijkstra_reachable grid start destination st'.

Inductive a_star_reachable (grid : list (list Vertex)) (start destination : Vertex)
  : World * Bk * gmap Vertex num → Prop :=
  | a_star_reach_init w :
      a_star_reachable grid start destination
        (w, (a_star_init grid start destination).1,
            (a_star_init grid start destination).2)
  | a_star_reach_step fuel st st' :
      a_star_reachable grid start destination st →
      a_star_iter fuel start destination st = Continue st' →
      a_star_reachable grid start destination st'.

Lemma step_state_bk {S : Type} (f : S → Bk) (r : step S) :
  step_state (step_bk f r) = f (step_state r).
Proof. by destruct r. Qed.

Lemma dijkstra_iter_wf fuel start destination st :
  wf_bk st.2 → wf_bk (step_state (dijkstra_iter fuel start destination st)).2.
Proof.
  intros Hwf. rewrite <- (step_state_bk snd), dijkstra_iter_bk.
  by apply iter_bk_wf.
Qed.

Lemma a_star_iter_wf fuel start destination st :
  wf_bk st.1.2 → wf_bk (step_state (a_star_iter fuel start destination st)).1.2.
Proof.
  intros Hwf. rewrite <- (step_state_bk (λ x, x.1.2)), a_star_iter_bk.
  by apply iter_bk_wf.
Qed.

Lemma dijkstra_reachable_wf grid start destination st :
  dijkstra_reachable grid start destination st → wf_bk st.2.
Proof.
  induction 1 as [w|fuel st st' _ IH Hi]; [apply init_wf|].
  pose proof (dijkstra_iter_wf fuel start destination st IH) as H'.
  by rewrite Hi in H'.
Qed.

Lemma a_star_reachable_wf grid start destination st :
  a_star_reachable grid start destination st → wf_bk st.1.2.
Proof.
  induction 1 as [w|fuel st st' _ IH Hi]; [apply init_wf|].
  pose proof (a_star_iter_wf fuel start destination st IH) as H'.
  by rewrite Hi in H'.
Qed.

(** ** When a search returns *)

Lemma pops_app w acts w' :
  trace w' = trace w ++ acts → pops w' = pops w ++ omap pop_of acts.
Proof. unfold pops. intros ->. apply omap_app. Qed.

Lemma quits_no_pop evs : omap pop_of (quits evs) = [].
Proof.
  unfold quits. induction evs as [|ev evs IH]; [done|]. simpl.
  case_decide; simpl; done.
Qed.

Lemma tail_no_pop fuel start destination cf current tail :
  Forall (tail_action fuel start destination cf current) tail →
  omap pop_of tail = [].
Proof.
  induction 1 as [|a tail Ha _ IH]; [done|].
  destruct a; try done; simpl in *; exact IH.
Qed.

(** How a turn ends tells whether the vertex it took off the queue is the
    destination. *)
Definition turn_class {S : Type} (current : Vertex) (destination : option Vertex)
    (r : step S) : Prop :=
  match r with
  | Continue _ => Some current ≠ destination
  | Stop (Returned true) _ => Some current = destination
  | Stop (Returned false) _ => False
  | Stop (Raised _) _ => Some current ≠ destination
  | Starved _ => Some current = destination
  end.

Lemma dijkstra_body_class fuel start destination e queue' st :
  turn_class (entry_vertex e) destination
    (dijkstra_body fuel start destination e queue' st)
  ∨ entry_vertex e ∉ open_set st.2.
Proof.
  destruct st as [w b]. unfold dijkstra_body. simpl.
  case_decide; [left|by right].
  case_decide; simpl.
  - by destruct (reconstruct_path _ _ _ _).
  - by destruct (for_each _ _ _) as [[??]|? [??]].
Qed.

Lemma a_star_body_class fuel start destination e queue' st :
  turn_class (entry_vertex e) (Some destination)
    (a_star_body fuel start destination e queue' st)
  ∨ entry_vertex e ∉ open_set st.1.2.
Proof.
  destruct st as [[w b] f]. unfold a_star_body. simpl.
  case_decide; [left|by right].
  case_decide; simpl.
  - destruct (reconstruct_path _ _ _ _); simpl; congruence.
  - destruct (for_each _ _ _) as [[[??]?]|? [[??]?]]; simpl; congruence.
Qed.

Lemma dijkstra_body_pops fuel start destination e queue' st :
  pops (step_state (dijkstra_body fuel start destination e queue' st)).1
  = pops st.1 ++ [entry_vertex e].
Proof.
  destruct st as [w b].
  destruct (dijkstra_body_trace fuel start destination e queue' w b)
    as (tail & Ht & Hf).
  rewrite (pops_app _ _ _ Ht). f_equal.
  change (omap pop_of (quits (events_at (polls w)) ++ APop (entry_vertex e) :: tail)
          = [entry_vertex e]).
  rewrite omap_app, quits_no_pop.
  change (entry_vertex e :: omap pop_of tail = [entry_vertex e]).
  by rewrite (tail_no_pop _ _ _ _ _ _ Hf).
Qed.


(** ** Relaxation *)

(** The body of the neighbour loop, for a neighbour whose distance is at hand. *)
Lemma dijkstra_relax_spec (destination : option Vertex) (current neighbor : Vertex)
    (w : World) (b : Bk) (dc dn : num) :
  distance b !! current = Some dc →
  distance b !! neighbor = Some dn →
  let candidate := num_add dc 1 in
  ∃ w' b',
    dijkstra_relax destination current (w, b) neighbor = Ok (w', b')
    ∧ (num_ltb candidate dn = true →
       distance b' = <[neighbor := candidate]> (distance b)
       ∧ came_from b' = <[neighbor := current]> (came_from b)
       ∧ (neighbor ∉ visited b →
          count b' = S (count b)
          ∧ queue b' = queue_put (queue b) (candidate, S (count b), neighbor)
          ∧ visited b' = {[neighbor]} ∪ visited b
          ∧ w' = if decide (Some neighbor = destination) then w
                 else make_visiting neighbor w)
       ∧ (neighbor ∈ visited b →
          count b' = count b ∧ queue b' = queue b ∧ visited b' = visited b
          ∧ w' = w))
    ∧ (num_ltb candidate dn = false → w' = w ∧ b' = b).
Proof.
  intros Hc Hn candidate. unfold dijkstra_relax. rewrite Hc, Hn.
  fold candidate. destruct (num_ltb candidate dn) eqn:Hlt.
  - destruct (decide (neighbor ∈ visited b)) as [Hin|Hin];
      [|destruct (decide (Some neighbor = destination)) as [Hd|Hd]];
      eexists _, _; (split; [done|]); simpl; (split; [|done]); intros _;
      (split; [done|]); (split; [done|]); split; intros ?; try done;
      split_and!; try done; by case_decide.
  - exists w, b. split; [done|]. split; [done|]. done.
Qed.

(** The tuples of a vertex on a queue. *)
Definition entries_of (v : Vertex) (q : list entry) : list entry :=
  filter (λ e, entry_vertex e = v) q.

(** Between two states of the neighbour loop, nothing that concerns the
    vertex [v] has changed. *)
Definition untouched (st0 st1 : World * Bk) (v : Vertex) : Prop :=
  distance st1.2 !! v = distance st0.2 !! v
  ∧ came_from st1.2 !! v = came_from st0.2 !! v
  ∧ (v ∈ visited st1.2 ↔ v ∈ visited st0.2)
  ∧ entries_of v (queue st1.2) = entries_of v (queue st0.2)
  ∧ vstate st1.1 !! v = vstate st0.1 !! v.

(** Between two states of the neighbour loop of [current], the neighbour [v]
    has been relaxed: updated when the candidate is below the distance it had
    in the first state, and left alone otherwise. *)
Definition relaxed (destination : option Vertex) (current : Vertex) (candidate : num)
    (st0 st1 : World * Bk) (v : Vertex) : Prop :=
  ∃ dn, distance st0.2 !! v = Some dn
    ∧ if num_ltb candidate dn then
        distance st1.2 !! v = Some candidate
        ∧ came_from st1.2 !! v = Some current
        ∧ v ∈ visited st1.2
        ∧ (v ∉ visited st0.2 →
           (∃ k, count st0.2 < k ≤ count st1.2
                 ∧ entries_of v (queue st1.2)
                   = (candidate, k, v) :: entries_of v (queue st0.2))
           ∧ vstate st1.1 !! v
             = if decide (Some v = destination) then vstate st0.1 !! v
               else Some Visiting)
        ∧ (v ∈ visited st0.2 →
           entries_of v (queue st1.2) = entries_of v (queue st0.2)
           ∧ vstate st1.1 !! v = vstate st0.1 !! v)
      else untouched st0 st1 v.

Lemma untouched_refl st v : untouched st st v.
Proof. by repeat split. Qed.

Lemma untouched_trans st0 st1 st2 v :
  untouched st0 st1 v → untouched st1 st2 v → untouched st0 st2 v.
Proof.
  intros (H1 & H2 & H3 & H4 & H5) (G1 & G2 & G3 & G4 & G5).
  split_and!; try congruence. by rewrite G3.
Qed.

Lemma relaxed_then_untouched destination current candidate st0 st1 st2 v :
  relaxed destination current candidate st0 st1 v → untouched st1 st2 v →
  count st1.2 ≤ count st2.2 →
  relaxed destination current candidate st0 st2 v.
Proof.
  intros (dn & Hdn & H) Hu Hc. exists dn. split; [done|].
  destruct (num_ltb candidate dn); [|by eapply untouched_trans].
  destruct Hu as (G1 & G2 & G3 & G4 & G5).
  destruct H as (H1 & H2 & H3 & Hnew & Hold).
  split_and!; try congruence; [by apply G3| |].
  - intros Hv. destruct (Hnew Hv) as [(k & Hk & Hq) Hs]. split; [|congruence].
    exists k. split; [lia|congruence].
  - intros Hv. destruct (Hold Hv) as [Hq Hs]. split; congruence.
Qed.

Lemma untouched_then_relaxed destination current candidate st0 st1 st2 v :
  untouched st0 st1 v → relaxed destination current candidate st1 st2 v →
  count st0.2 ≤ count st1.2 →
  relaxed destination current candidate st0 st2 v.
Proof.
  intros Hu (dn & Hdn & H) Hc. pose proof Hu as (G1 & G2 & G3 & G4 & G5).
  exists dn. split; [congruence|].
  destruct (num_ltb candidate dn); [|by eapply untouched_trans].
  destruct H as (H1 & H2 & H3 & Hnew & Hold).
  split_and!; try done.
  - intros Hv. destruct Hnew as [(k & Hk & Hq) Hs]; [by rewrite G3|].
    split; [|by rewrite Hs, G5]. exists k. split; [lia|congruence].
  - intros Hv. destruct Hold as [Hq Hs]; [by rewrite G3|]. split; congruence.
Qed.

Lemma num_ltb_succ (a : num) : num_ltb (num_add a 1) a = false.
Proof. destruct a as [z|]; simpl; [apply Z.ltb_ge; lia|done]. Qed.

Lemma num_ltb_irrefl (a : num) : num_ltb a a = false.
Proof. destruct a as [z|]; simpl; [apply Z.ltb_irrefl|done]. Qed.

(** One pass through the body of the neighbour loop: the neighbour at hand is
    relaxed, and nothing that concerns another vertex changes. *)
Lemma dijkstra_relax_step destination current st x dc :
  distance st.2 !! current = Some dc →
  is_Some (distance st.2 !! x) →
  ∃ st1, dijkstra_relax destination current st x = Ok st1
    ∧ count st.2 ≤ count st1.2
    ∧ distance st1.2 !! current = Some dc
    ∧ (∀ v, v ≠ x → untouched st st1 v)
    ∧ relaxed destination current (num_add dc 1) st st1 x.
Proof.
  destruct st as [w b]. simpl. intros Hc [dn Hn].
  destruct (dijkstra_relax_spec destination current x w b dc dn Hc Hn)
    as (w' & b' & Hr & Hlt & Hge).
  exists (w', b'). split; [done|]. simpl.
  destruct (num_ltb (num_add dc 1) dn) eqn:Hcmp.
  - destruct (Hlt eq_refl) as (Hd & Hf & Hnew & Hold). clear Hlt Hge.
    assert (x ≠ current) as Hxc.
    { intros ->. rewrite Hc in Hn. injection Hn as <-.
      by rewrite num_ltb_succ in Hcmp. }
    destruct (decide (x ∈ visited b)) as [Hin|Hin].
    + destruct (Hold Hin) as (Hcnt & Hq & Hvis & ->). split_and!.
      * lia.
      * by rewrite Hd, lookup_insert_ne.
      * intros v Hv. unfold untouched. simpl.
        rewrite Hd, Hf, Hq, Hvis, !lookup_insert_ne by done. done.
      * exists dn. split; [done|]. rewrite Hcmp. simpl.
        rewrite Hd, Hf, Hq, Hvis, !lookup_insert_eq. done.
    + destruct (Hnew Hin) as (Hcnt & Hq & Hvis & ->). split_and!.
      * lia.
      * by rewrite Hd, lookup_insert_ne.
      * intros v Hv. unfold untouched. simpl.
        rewrite Hd, Hf, Hq, Hvis, !lookup_insert_ne by done.
        split_and!; try done.
        -- rewrite elem_of_union, elem_of_singleton.
           split; [by intros [?|?]|by right].
        -- unfold entries_of, queue_put. by rewrite filter_cons_False.
        -- case_decide; [done|]. simpl. by rewrite lookup_insert_ne.
      * exists dn. split; [done|]. rewrite Hcmp. simpl.
        rewrite Hd, Hf, Hq, Hvis, !lookup_insert_eq.
        split_and!; try done.
        -- apply elem_of_union_l. by apply elem_of_singleton.
        -- intros _. split.
           ++ exists (S (count b)). split; [lia|].
              unfold entries_of, queue_put. by rewrite filter_cons_True.
           ++ case_decide; [done|]. simpl. by rewrite lookup_insert_eq.
  - destruct (Hge eq_refl) as [-> ->].
    split_and!; [lia|done|intros v _; apply untouched_refl|].
    exists dn. split; [done|]. rewrite Hcmp. apply untouched_refl.
Qed.

(** The neighbour loop as a whole: every neighbour it has gone through is
    relaxed, against the state the loop started in, and the other vertices
    are as they were. *)
Lemma for_each_relax_spec destination current dc st0 l :
  ∀ done st,
    distance st.2 !! current = Some dc →
    count st0.2 ≤ count st.2 →
    (∀ v, v ∈ done → relaxed destination current (num_add dc 1) st0 st v) →
    (∀ v, v ∉ done → untouched st0 st v) →
    (∀ u, u ∈ l → is_Some (distance st0.2 !! u)) →
    ∃ st', for_each (dijkstra_relax destination current) st l = Ok st'
      ∧ (∀ v, v ∈ done ++ l → relaxed destination current (num_add dc 1) st0 st' v)
      ∧ (∀ v, v ∉ done ++ l → untouched st0 st' v).
Proof.
  induction l as [|x l IH]; intros done st Hc Hcnt Hdone Hrest Hl.
  { exists st. rewrite app_nil_r. done. }
  assert (is_Some (distance st.2 !! x)) as Hx.
  { destruct (decide (x ∈ done)) as [Hin|Hin].
    - destruct (Hdone x Hin) as (dn & Hdn & H).
      destruct (num_ltb _ dn); [by destruct H as [-> _]|].
      destruct H as [-> _]. by rewrite Hdn.
    - destruct (Hrest x Hin) as [-> _]. apply Hl. by left. }
  destruct (dijkstra_relax_step destination current st x dc Hc Hx)
    as (st1 & Hr & Hcnt1 & Hc1 & Hothers & Hrel).
  destruct (IH (done ++ [x]) st1) as (st' & Hf & Hin' & Hout'); try done.
  - lia.
  - intros v [Hv|Hv%list_elem_of_singleton]%elem_of_app.
    + destruct (decide (v = x)) as [->|Hvx].
      * destruct (Hdone x Hv) as (dn & Hdn & H).
        destruct Hrel as (dn' & Hdn' & H'). exists dn. split; [done|].
        destruct (num_ltb (num_add dc 1) dn) eqn:Hcmp.
        -- assert (dn' = num_add dc 1) as ->
             by (destruct H as [Hd _]; congruence).
           rewrite num_ltb_irrefl in H'.
           assert (relaxed destination current (num_add dc 1) st0 st1 x) as (dn1 & Hdn1 & H1).
           { eapply relaxed_then_untouched; [|exact H'|done].
             exists dn. split; [done|]. by rewrite Hcmp. }
           assert (dn1 = dn) as -> by congruence. by rewrite Hcmp in H1.
        -- assert (dn' = dn) as -> by (destruct H as [Hd _]; congruence).
           rewrite Hcmp in H'. by eapply untouched_trans.
      * eapply relaxed_then_untouched; [by apply Hdone|by apply Hothers|done].
    + subst v. destruct (decide (x ∈ done)) as [Hin|Hin].
      * destruct (Hdone x Hin) as (dn & Hdn & H).
        destruct Hrel as (dn' & Hdn' & H'). exists dn. split; [done|].
        destruct (num_ltb (num_add dc 1) dn) eqn:Hcmp.
        -- assert (dn' = num_add dc 1) as ->
             by (destruct H as [Hd _]; congruence).
           rewrite num_ltb_irrefl in H'.
           assert (relaxed destination current (num_add dc 1) st0 st1 x) as (dn1 & Hdn1 & H1).
           { eapply relaxed_then_untouched; [|exact H'|done].
             exists dn. split; [done|]. by rewrite Hcmp. }
           assert (dn1 = dn) as -> by congruence. by rewrite Hcmp in H1.
        -- assert (dn' = dn) as -> by (destruct H as [Hd _]; congruence).
           rewrite Hcmp in H'. by eapply untouched_trans.
      * eapply untouched_then_relaxed; [by apply Hrest|done|done].
  - intros v Hv. apply not_elem_of_app in Hv as [Hv1 Hv2].
    apply not_elem_of_cons in Hv2 as [Hv2 _].
    eapply untouched_trans; [by apply Hrest|by apply Hothers].
  - intros u Hu. apply Hl. by right.
  - exists st'. split; [by rewrite (for_each_cons_Ok _ _ _ _ _ Hr)|].
    replace (done ++ x :: l) with ((done ++ [x]) ++ l)
      by (by rewrite <- (assoc_L (++))).
    done.
Qed.

(** C2.  In [dijkstra], on a stream of events without a QUIT, the turn that
    takes a vertex [current] off the queue (other than the destination, at
    which the search returns) goes on to the next turn once it has been
    through the neighbours of [current], all of them with a distance at hand,
    and this is what it has done to each of them.  The candidate cost is
    [distance[current] + 1].  When the candidate is strictly smaller than the
    distance the neighbour had, the distance of the neighbour is now the
    candidate and its predecessor is [current]; then a neighbour that was not
    in the set of queued vertices is in it now, has one more tuple on the
    queue, with the candidate as its priority and a new count, and is marked
    visiting unless it is the destination, which keeps its state; while a
    neighbour that was in the set has the tuples and the state it had.  When
    the candidate is not strictly smaller, the neighbour has the distance,
    the predecessor, the tuples and the state it had, and is in the set when
    it was (and is not [current], which left the set when it was taken off
    the queue). *)
Theorem dijkstra_relaxation (fuel : nat) (start : Vertex) (destination : option Vertex)
    (e : entry) (queue' : list entry) (w : World) (b : Bk) (dc : num) :
  let current := entry_vertex e in
  let candidate := num_add dc 1 in
  quit_free events_at →
  queue_get (queue b) = Some (e, queue') →
  current ∈ visited b → Some current ≠ destination →
  distance b !! current = Some dc →
  (∀ u, u ∈ neighbors current → is_Some (distance b !! u)) →
  ∃ w' b',
    dijkstra_iter fuel start destination (w, b) = Continue (w', b')
    ∧ ∀ neighbor, neighbor ∈ neighbors current →
      ∃ dn, distance b !! neighbor = Some dn
        ∧ (num_ltb candidate dn = true →
           distance b' !! neighbor = Some candidate
           ∧ came_from b' !! neighbor = Some current
           ∧ neighbor ∈ visited b'
           ∧ (neighbor ∉ visited b →
              (∃ k, count b < k ≤ count b'
                    ∧ entries_of neighbor (queue b')
                      = (candidate, k, neighbor) :: entries_of neighbor queue')
              ∧ vstate w' !! neighbor
                = if decide (Some neighbor = destination) then vstate w !! neighbor
                  else Some Visiting)
           ∧ (neighbor ∈ visited b →
              entries_of neighbor (queue b') = entries_of neighbor queue'
              ∧ vstate w' !! neighbor = vstate w !! neighbor))
        ∧ (num_ltb candidate dn = false →
           distance b' !! neighbor = Some dn
           ∧ came_from b' !! neighbor = came_from b !! neighbor
           ∧ (neighbor ∈ visited b' ↔ neighbor ∈ visited b ∧ neighbor ≠ current)
           ∧ entries_of neighbor (queue b') = entries_of neighbor queue'
           ∧ (neighbor ≠ current → vstate w' !! neighbor = vstate w !! neighbor)).
Proof.
  intros current candidate _ Hq Hin Hd Hc Hl.
  set (st0 := (record (APop current) (poll_events w),
               mkBk (count b) queue' (visited b ∖ {[current]})
                    (came_from b) (distance b))).
  destruct (for_each_relax_spec destination current dc st0 (neighbors current) [] st0)
    as ([w1 b1] & Hf & Hrel & _);
    [done|done|by intros v ?%elem_of_nil|intros v _; apply untouched_refl|done|].
  set (w' := if decide (current = start) then draw w1
             else make_visited current (draw w1)).
  assert (∀ v, v ≠ current → vstate w' !! v = vstate w1 !! v) as Hw'.
  { intros v Hv. unfold w'. case_decide; [done|]. simpl. by rewrite lookup_insert_ne. }
  exists w', b1. split.
  { unfold dijkstra_iter. simpl. rewrite Hq.
    unfold dijkstra_body. fold current. rewrite decide_True by done.
    rewrite decide_False by done. fold st0. by rewrite Hf. }
  intros neighbor Hnb. destruct (Hrel neighbor Hnb) as (dn & Hdn & H).
  exists dn. split; [done|]. simpl in *. rewrite vstate_poll_events in H.
  split; intros Hcmp; fold candidate in H; rewrite Hcmp in H.
  - assert (neighbor ≠ current) as Hne.
    { intros ->. rewrite Hc in Hdn. injection Hdn as <-.
      unfold candidate in Hcmp. by rewrite num_ltb_succ in Hcmp. }
    destruct H as (H1 & H2 & H3 & Hnew & Hold). split_and!; try done.
    + intros Hv. rewrite Hw' by done. apply Hnew.
      rewrite elem_of_difference. tauto.
    + intros Hv. rewrite Hw' by done. apply Hold.
      rewrite elem_of_difference, elem_of_singleton. done.
  - destruct H as (H1 & H2 & H3 & H4 & H5). simpl in *.
    split_and!; try done; [congruence| |].
    + rewrite H3, elem_of_difference, elem_of_singleton. done.
    + intros Hne. by rewrite Hw', H5, vstate_poll_events.
Qed.

(** C3, as the code has it.  When [a_star_search] puts a neighbour on the
    queue while it relaxes it, the priority of the tuple is the [f_score] of
    the neighbour, which is its [g_score] plus the Manhattan distance between
    its position and that of the destination. *)
Theorem a_star_insertion_key (destination current neighbor : Vertex)
    (w : World) (b : Bk) (f_score : gmap Vertex num) (gc gn : num) :
  g_score b !! current = Some gc →
  g_score b !! neighbor = Some gn →
  num_ltb (num_add gc 1) gn = true →
  neighbor ∉ open_set b →
  ∃ w' b' f_score' key,
    a_star_relax destination current (w, b, f_score) neighbor = Ok (w', b', f_score')
    ∧ queue b' = queue_put (queue b) (key, S (count b), neighbor)
    ∧ f_score' !! neighbor = Some key
    ∧ g_score b' !! neighbor = Some (num_add gc 1)
    ∧ key = num_add (num_add gc 1) (h destination neighbor)
    ∧ h destination neighbor
      = (Z.abs (neighbor.1 - destination.1) + Z.abs (neighbor.2 - destination.2))%Z.
Proof.
  intros Hc Hn Hlt Hin. unfold a_star_relax. rewrite Hc, Hn, Hlt.
  rewrite decide_False by done.
  assert (h destination neighbor
      = (Z.abs (neighbor.1 - destination.1) + Z.abs (neighbor.2 - destination.2))%Z)
    as Hh by (by destruct neighbor, destination).
  case_decide; eexists _, _, _, _; (split; [done|]); simpl;
    rewrite !lookup_insert_eq; done.
Qed.

(** ** What path reconstruction marks *)

(** C5, as the code has it.  A path reconstruction that comes to its end marks
    as path, one after the other and with one drawing each, the vertices of the
    chain of predecessors of the destination: never the destination itself,
    and last the vertex that has no predecessor, which in a search is the
    start.  The caller then marks the start as start. *)
Theorem reconstruct_path_marks (fuel : nat) (came_from : gmap Vertex Vertex)
    (destination : Vertex) (w w' : World) :
  reconstruct_path fuel came_from destination w = Finished w' →
  ∃ l,
    is_chain came_from destination l
    ∧ trace w' = trace w ++ path_actions l
    ∧ vstate w' = foldl (λ m u, <[u := Path]> m) (vstate w) l
    ∧ (destination ∉ l)
    ∧ (∃ x, last (destination :: l) = Some x ∧ came_from !! x = None)
    ∧ ∀ start, trace (make_start start w') = trace w' ++ [AMark start Start]
               ∧ vstate (make_start start w') !! start = Some Start.
Proof.
  intros Hr. exists (predecessors fuel came_from destination).
  pose proof (reconstruct_path_finished _ _ _ _ _ Hr) as Hc.
  pose proof (reconstruct_path_trace fuel came_from destination w) as Ht.
  pose proof (reconstruct_path_vstate fuel came_from destination w) as Hv.
  rewrite Hr in Ht, Hv. simpl in Ht, Hv.
  split_and!; try done.
  - exact (is_chain_not_in _ _ _ Hc).
  - exact (is_chain_last _ _ _ Hc).
  - intros start. split; [done|]. simpl. by rewrite lookup_insert_eq.
Qed.

(** ** The destination keeps its marker *)

Lemma tail_action_not_destination fuel start d b current tail :
  wf_bk b → start ≠ d →
  Forall (tail_action fuel start (Some d) (came_from b) current) tail →
  ∀ s, AMark d s ∉ tail.
Proof.
  intros Hwf Hsd Hf s Hin.
  rewrite Forall_forall in Hf. apply Hf in Hin. destruct s; simpl in Hin; try done.
  - by destruct Hin as [-> _].
  - destruct Hin as (? & _); congruence.
  - destruct Hin as (-> & _ & ?); congruence.
  - destruct Hin as [[= ->] Hin].
    apply (predecessors_below _ _ _ _ Hwf) in Hin as (du & dv & Hu & Hv & Hlt).
    rewrite Hu in Hv. injection Hv as ->. lia.
Qed.

Lemma quits_not_mark evs v s : AMark v s ∉ quits evs.
Proof.
  unfold quits. intros (ev & _ & Hev)%list_elem_of_omap. by case_decide.
Qed.

Lemma dijkstra_loop_destination fuel start d st :
  wf_bk st.2 → start ≠ d →
  ∃ acts, trace (dijkstra_loop fuel start (Some d) st).2.1 = trace st.1 ++ acts
          ∧ ∀ s, AMark d s ∉ acts.
Proof.
  intros Hwf Hsd. revert st Hwf. induction fuel as [|fuel IH]; intros st Hwf; simpl.
  { exists []. rewrite app_nil_r. split; [done|]. intros s. apply not_elem_of_nil. }
  pose proof (dijkstra_iter_wf fuel start (Some d) st Hwf) as Hwf'.
  unfold dijkstra_iter in *. destruct (queue_get _) as [[e q']|] eqn:Hq.
  - destruct st as [w b].
    destruct (dijkstra_body_trace fuel start (Some d) e q' w b) as (tail & Ht & Hf).
    assert (∀ s, AMark d s ∉ APoll :: quits (events_at (polls w))
                              ++ APop (entry_vertex e) :: tail) as Hno.
    { intros s [?|[H'|[?|H']%elem_of_cons]%elem_of_app]%elem_of_cons; try done.
      - by apply quits_not_mark in H'.
      - by apply (tail_action_not_destination _ _ _ _ _ _ Hwf Hsd Hf) in H'. }
    destruct (dijkstra_body _ _ _ _ _ _) as [st1|o st1|st1]; simpl in *; eauto.
    destruct (IH st1 Hwf') as (acts & Ha & Hn).
    eexists. rewrite Ha, Ht, <- app_assoc. split; [done|].
    intros s [?|?]%elem_of_app; [by eapply Hno|by eapply Hn].
  - simpl. exists []. rewrite app_nil_r. split; [done|]. intros s. apply not_elem_of_nil.
Qed.

Lemma a_star_loop_destination fuel start d st :
  wf_bk st.1.2 → start ≠ d →
  ∃ acts, trace (a_star_loop fuel start d st).2.1.1 = trace st.1.1 ++ acts
          ∧ ∀ s, AMark d s ∉ acts.
Proof.
  intros Hwf Hsd. revert st Hwf. induction fuel as [|fuel IH]; intros st Hwf; simpl.
  { exists []. rewrite app_nil_r. split; [done|]. intros s. apply not_elem_of_nil. }
  pose proof (a_star_iter_wf fuel start d st Hwf) as Hwf'.
  unfold a_star_iter in *. destruct (queue_get _) as [[e q']|] eqn:Hq.
  - destruct st as [[w b] f].
    destruct (a_star_body_trace fuel start d e q' w b f) as (tail & Ht & Hf).
    assert (∀ s, AMark d s ∉ APoll :: quits (events_at (polls w))
                              ++ APop (entry_vertex e) :: tail) as Hno.
    { intros s [?|[H'|[?|H']%elem_of_cons]%elem_of_app]%elem_of_cons; try done.
      - by apply quits_not_mark in H'.
      - by apply (tail_action_not_destination _ _ _ _ _ _ Hwf Hsd Hf) in H'. }
    destruct (a_star_body _ _ _ _ _ _) as [st1|o st1|st1]; simpl in *; eauto.
    destruct (IH st1 Hwf') as (acts & Ha & Hn).
    eexists. rewrite Ha, Ht, <- app_assoc. split; [done|].
    intros s [?|?]%elem_of_app; [by eapply Hno|by eapply Hn].
  - simpl. exists []. rewrite app_nil_r. split; [done|]. intros s. apply not_elem_of_nil.
Qed.

(** C10, as the code has it.  When the start is not the destination, no run of
    [dijkstra] or [a_star_search], however far it gets and path reconstruction
    included, changes the state of the destination vertex: no marker at all is
    written to it. *)
Theorem destination_untouched (fuel : nat) (grid : list (list Vertex))
    (s d : Vertex) (w : World) :
  s ≠ d →
  let pf := mkPathfinder grid (Some s) (Some d) in
  (∃ acts, trace (dijkstra fuel pf w).2 = trace w ++ acts
           ∧ ∀ state, AMark d state ∉ acts)
  ∧ (∃ acts, trace (a_star_search fuel pf w).2 = trace w ++ acts
             ∧ ∀ state, AMark d state ∉ acts).
Proof.
  intros Hsd pf. split.
  - unfold dijkstra. simpl.
    destruct (dijkstra_loop_destination fuel s d (w, dijkstra_init grid s))
      as (acts & Ha & Hn); [apply init_wf|done|].
    destruct (dijkstra_loop _ _ _ _) as [o [w' b']]. by exists acts.
  - unfold a_star_search. simpl.
    destruct (a_star_loop_destination fuel s d
                (w, (a_star_init grid s d).1, (a_star_init grid s d).2))
      as (acts & Ha & Hn); [apply init_wf|done|].
    simpl in *. destruct (a_star_loop _ _ _ _) as [o [[w' b'] f']]. by exists acts.
Qed.

(** ** Quit events *)

Lemma quits_cons ev evs :
  quits (ev :: evs) = if decide (ev = QUIT) then AQuit :: quits evs else quits evs.
Proof. unfold quits. simpl. by case_decide. Qed.

Lemma quits_replicate evs :
  quits evs = replicate (length (filter (λ ev, ev = QUIT) evs)) AQuit.
Proof.
  induction evs as [|ev evs IH]; [done|].
  rewrite quits_cons, filter_cons. case_decide; simpl; by rewrite IH.
Qed.

(** ** Determinism *)

(** [queue.get()] as the queue promises it, whatever the heap looks like
    inside: some least tuple [e] comes off, and [q'] is what stays on. *)
Definition least_get (q : list entry) (e : entry) (q' : list entry) : Prop :=
  q ≡ₚ e :: q' ∧ ∀ x, x ∈ q' → entry_ltb x e = false.

(** Two bookkeepings that differ at most in how the queue is laid out. *)
Definition bk_equiv (b1 b2 : Bk) : Prop :=
  count b1 = count b2 ∧ queue b1 ≡ₚ queue b2 ∧ open_set b1 = open_set b2
  ∧ came_from b1 = came_from b2 ∧ g_score b1 = g_score b2.

Definition dijkstra_equiv (st1 st2 : World * Bk) : Prop :=
  st1.1 = st2.1 ∧ bk_equiv st1.2 st2.2.

Definition a_star_equiv (st1 st2 : World * Bk * gmap Vertex num) : Prop :=
  st1.1.1 = st2.1.1 ∧ bk_equiv st1.1.2 st2.1.2 ∧ st1.2 = st2.2.

(** The loops over a queue of which only [least_get] is known. *)
Inductive dijkstra_run (start : Vertex) (destination : option Vertex)
  : nat → World * Bk → option outcome * (World * Bk) → Prop :=
  | dijkstra_run_out st :
      dijkstra_run start destination 0 st (None, st)
  | dijkstra_run_empty fuel st :
      queue st.2 = [] →
      dijkstra_run start destination (S fuel) st (Some (Returned false), st)
  | dijkstra_run_continue fuel st e queue' st' r :
      least_get (queue st.2) e queue' →
      dijkstra_body fuel start destination e queue' st = Continue st' →
      dijkstra_run start destination fuel st' r →
      dijkstra_run start destination (S fuel) st r
  | dijkstra_run_stop fuel st e queue' o st' :
      least_get (queue st.2) e queue' →
      dijkstra_body fuel start destination e queue' st = Stop o st' →
      dijkstra_run start destination (S fuel) st (Some o, st')
  | dijkstra_run_starved fuel st e queue' st' :
      least_get (queue st.2) e queue' →
      dijkstra_body fuel start destination e queue' st = Starved st' →
      dijkstra_run start destination (S fuel) st (None, st').

Inductive a_star_run (start destination : Vertex)
  : nat → World * Bk * gmap Vertex num
    → option outcome * (World * Bk * gmap Vertex num) → Prop :=
  | a_star_run_out st :
      a_star_run start destination 0 st (None, st)
  | a_star_run_empty fuel st :
      queue st.1.2 = [] →
      a_star_run start destination (S fuel) st (Some (Returned false), st)
  | a_star_run_continue fuel st e queue' st' r :
      least_get (queue st.1.2) e queue' →
      a_star_body fuel start destination e queue' st = Continue st' →
      a_star_run start destination fuel st' r →
      a_star_run start destination (S fuel) st r
  | a_star_run_stop fuel st e queue' o st' :
      least_get (queue st.1.2) e queue' →
      a_star_body fuel start destination e queue' st = Stop o st' →
      a_star_run start destination (S fuel) st (Some o, st')
  | a_star_run_starved fuel st e queue' st' :
      least_get (queue st.1.2) e queue' →
      a_star_body fuel start destination e queue' st = Starved st' →
      a_star_run start destination (S fuel) st (None, st').

Lemma queue_get_least_get q e q' : queue_get q = Some (e, q') → least_get q e q'.
Proof.
  intros Hq. split; [by apply queue_get_perm|by eapply queue_get_least].
Qed.

(** With all counts different, the least tuple is unique. *)
Lemma least_get_unique q1 q2 e1 e2 r1 r2 :
  NoDup (entry_count <$> q1) → q1 ≡ₚ q2 →
  least_get q1 e1 r1 → least_get q2 e2 r2 → e1 = e2 ∧ r1 ≡ₚ r2.
Proof.
  intros Hnd Hp [Hp1 Hl1] [Hp2 Hl2].
  assert (e1 = e2) as ->.
  { destruct (decide (e1 = e2)) as [|Hne]; [done|].
    assert (e2 ∈ r1) as H2.
    { assert (e2 ∈ e1 :: r1) as [?|?]%elem_of_cons; [|congruence|done].
      rewrite <- Hp1, Hp, Hp2. left. }
    assert (e1 ∈ r2) as H1.
    { assert (e1 ∈ e2 :: r2) as [?|?]%elem_of_cons; [|congruence|done].
      rewrite <- Hp2, <- Hp, Hp1. left. }
    destruct (entry_ltb_total e1 e2 (Hl2 _ H1) (Hl1 _ H2)) as [_ Hc].
    rewrite Hp1, fmap_cons in Hnd. apply NoDup_cons in Hnd as [Hnd _].
    destruct Hnd. rewrite Hc. apply list_elem_of_fmap. eauto. }
  split; [done|]. apply (Permutation_cons_inv (a := e2)).
  by rewrite <- Hp1, <- Hp2.
Qed.

(** First in, first out among equal priorities: what stays on the queue with
    the priority of the tuple that comes off was put on later. *)
Lemma least_get_fifo q e q' x :
  NoDup (entry_count <$> q) → least_get q e q' → x ∈ q' →
  entry_key x = entry_key e → entry_count e < entry_count x.
Proof.
  intros Hnd [Hp Hl] Hx Hk. specialize (Hl x Hx).
  rewrite Hp, fmap_cons in Hnd. apply NoDup_cons in Hnd as [Hnd _].
  assert (entry_count x ≠ entry_count e) as Hne.
  { intros Heq. destruct Hnd. rewrite <- Heq. apply list_elem_of_fmap. eauto. }
  apply not_true_iff_false in Hl. rewrite entry_ltb_spec, Hk in Hl.
  destruct (entry_key e); lia.
Qed.

Definition result_rel {S : Type} (R : S → S → Prop) (r1 r2 : result S) : Prop :=
  match r1, r2 with
  | Ok s1, Ok s2 => R s1 s2
  | Raise e1 s1, Raise e2 s2 => e1 = e2 ∧ R s1 s2
  | _, _ => False
  end.

Definition step_rel {S : Type} (R : S → S → Prop) (r1 r2 : step S) : Prop :=
  match r1, r2 with
  | Continue s1, Continue s2 => R s1 s2
  | Stop o1 s1, Stop o2 s2 => o1 = o2 ∧ R s1 s2
  | Starved s1, Starved s2 => R s1 s2
  | _, _ => False
  end.

Local Ltac eq_split :=
  unfold result_rel, step_rel, dijkstra_equiv, a_star_equiv; simpl; split_and!.

Lemma for_each_rel {A S : Type} (R : S → S → Prop) (body : S → A → result S)
    (l : list A) (s1 s2 : S) :
  (∀ s1 s2 x, R s1 s2 → result_rel R (body s1 x) (body s2 x)) →
  R s1 s2 → result_rel R (for_each body s1 l) (for_each body s2 l).
Proof.
  intros Hb. revert s1 s2. induction l as [|x l IH]; intros s1 s2 Hs; [done|].
  simpl. specialize (Hb s1 s2 x Hs).
  destruct (body s1 x), (body s2 x); simpl in *; try done. by apply IH.
Qed.

Lemma dijkstra_relax_equiv destination current st1 st2 neighbor :
  dijkstra_equiv st1 st2 →
  result_rel dijkstra_equiv (dijkstra_relax destination current st1 neighbor)
                            (dijkstra_relax destination current st2 neighbor).
Proof.
  destruct st1 as [w1 b1], st2 as [w2 b2].
  intros (Hw & Hc & Hq & Ho & Hcf & Hg). simpl in *. subst w2.
  unfold dijkstra_relax, queue_put. rewrite <- Hg, <- Ho, <- Hcf, <- Hc.
  destruct (g_score b1 !! current); [|by eq_split].
  destruct (g_score b1 !! neighbor); [|by eq_split].
  destruct (num_ltb _ _); [|by eq_split].
  repeat case_decide; unfold dijkstra_equiv, a_star_equiv, bk_equiv; simpl;
    split_and!; try done; by constructor.
Qed.

Lemma a_star_relax_equiv destination current st1 st2 neighbor :
  a_star_equiv st1 st2 →
  result_rel a_star_equiv (a_star_relax destination current st1 neighbor)
                          (a_star_relax destination current st2 neighbor).
Proof.
  destruct st1 as [[w1 b1] f1], st2 as [[w2 b2] f2].
  intros (Hw & (Hc & Hq & Ho & Hcf & Hg) & Hf). simpl in *. subst w2 f2.
  unfold a_star_relax, queue_put. rewrite <- Hg, <- Ho, <- Hcf, <- Hc.
  destruct (g_score b1 !! current); [|by eq_split].
  destruct (g_score b1 !! neighbor); [|by eq_split].
  destruct (num_ltb _ _); [|by eq_split].
  repeat case_decide; unfold dijkstra_equiv, a_star_equiv, bk_equiv; simpl;
    split_and!; try done; by constructor.
Qed.

Lemma dijkstra_body_equiv fuel start destination e q1 q2 st1 st2 :
  dijkstra_equiv st1 st2 → q1 ≡ₚ q2 →
  step_rel dijkstra_equiv (dijkstra_body fuel start destination e q1 st1)
                          (dijkstra_body fuel start destination e q2 st2).
Proof.
  destruct st1 as [w1 b1], st2 as [w2 b2].
  intros (Hw & Hc & Hq & Ho & Hcf & Hg) Hp. simpl in *. subst w2.
  unfold dijkstra_body. rewrite <- Hg, <- Ho, <- Hcf, <- Hc.
  case_decide; [|by eq_split].
  case_decide.
  - simpl. destruct (reconstruct_path _ _ _ _); by eq_split.
  - match goal with |- context [for_each ?f ?s1 ?l] =>
      match goal with |- step_rel _ _ (match for_each _ ?s2 _ with _ => _ end) =>
        pose proof (for_each_rel dijkstra_equiv f l s1 s2
                      (dijkstra_relax_equiv destination (entry_vertex e))) as Hr;
        destruct (for_each f s1 l) as [[w1' b1']|x1 [w1' b1']],
                 (for_each f s2 l) as [[w2' b2']|x2 [w2' b2']]
      end
    end; simpl in Hr.
    + destruct Hr as [Hw' Hb']; [by eq_split|]. simpl in *. subst w2'.
      by eq_split.
    + destruct Hr; by eq_split.
    + destruct Hr; by eq_split.
    + destruct Hr as [-> [Hw' Hb']]; [by eq_split|]. by eq_split.
Qed.

Lemma a_star_body_equiv fuel start destination e q1 q2 st1 st2 :
  a_star_equiv st1 st2 → q1 ≡ₚ q2 →
  step_rel a_star_equiv (a_star_body fuel start destination e q1 st1)
                        (a_star_body fuel start destination e q2 st2).
Proof.
  destruct st1 as [[w1 b1] f1], st2 as [[w2 b2] f2].
  intros (Hw & (Hc & Hq & Ho & Hcf & Hg) & Hf) Hp. simpl in *. subst w2 f2.
  unfold a_star_body. rewrite <- Hg, <- Ho, <- Hcf, <- Hc.
  case_decide; [|by eq_split].
  case_decide.
  - simpl. destruct (reconstruct_path _ _ _ _); by eq_split.
  - match goal with |- context [for_each ?f ?s1 ?l] =>
      match goal with |- step_rel _ _ (match for_each _ ?s2 _ with _ => _ end) =>
        pose proof (for_each_rel a_star_equiv f l s1 s2
                      (a_star_relax_equiv destination (entry_vertex e))) as Hr;
        destruct (for_each f s1 l) as [[[w1' b1'] f1']|x1 [[w1' b1'] f1']],
                 (for_each f s2 l) as [[[w2' b2'] f2']|x2 [[w2' b2'] f2']]
      end
    end; simpl in Hr.
    + destruct Hr as (Hw' & Hb' & Hf'); [by eq_split|]. simpl in *. subst w2' f2'.
      by eq_split.
    + destruct Hr; by eq_split.
    + destruct Hr; by eq_split.
    + destruct Hr as [-> (Hw' & Hb' & Hf')]; [by eq_split|]. by eq_split.
Qed.

(** Whatever tuple [least_get] hands out, the run is the run of the loop. *)
Lemma dijkstra_run_loop start destination fuel st2 r :
  dijkstra_run start destination fuel st2 r →
  ∀ st1, wf_bk st1.2 → dijkstra_equiv st1 st2 →
  (dijkstra_loop fuel start destination st1).1 = r.1
  ∧ dijkstra_equiv (dijkstra_loop fuel start destination st1).2 r.2.
Proof.
  induction 1 as [st2|fuel st2 Hq|fuel st2 e q' st' r Hl Hb _ IH
                  |fuel st2 e q' o st' Hl Hb|fuel st2 e q' st' Hl Hb];
    intros st1 Hwf Heq; [done|..];
    pose proof Heq as (_ & _ & Hp & _); simpl; unfold dijkstra_iter.
  - rewrite Hq in Hp. apply Permutation_nil_r in Hp.
    assert (queue_get (queue st1.2) = None) as -> by (by apply queue_get_None).
    done.
  - destruct (queue_get (queue st1.2)) as [[e1 q1]|] eqn:Hq1.
    2:{ apply queue_get_None in Hq1. rewrite Hq1 in Hp.
        destruct Hl as [Hl _]. rewrite Hl in Hp.
        by apply Permutation_nil_cons in Hp. }
    destruct (least_get_unique _ _ _ _ _ _ (wf_count_nodup _ Hwf) Hp
                (queue_get_least_get _ _ _ Hq1) Hl) as [-> Hq'].
    pose proof (dijkstra_body_equiv fuel start destination e q1 q' st1 st2 Heq Hq')
      as Hs.
    pose proof (dijkstra_iter_wf fuel start destination st1 Hwf) as Hwf'.
    unfold dijkstra_iter in Hwf'. rewrite Hq1 in Hwf'.
    rewrite Hb in Hs. destruct (dijkstra_body _ _ _ _ _ st1); try done.
    by apply IH.
  - destruct (queue_get (queue st1.2)) as [[e1 q1]|] eqn:Hq1.
    2:{ apply queue_get_None in Hq1. rewrite Hq1 in Hp.
        destruct Hl as [Hl _]. rewrite Hl in Hp.
        by apply Permutation_nil_cons in Hp. }
    destruct (least_get_unique _ _ _ _ _ _ (wf_count_nodup _ Hwf) Hp
                (queue_get_least_get _ _ _ Hq1) Hl) as [-> Hq'].
    pose proof (dijkstra_body_equiv fuel start destination e q1 q' st1 st2 Heq Hq')
      as Hs.
    rewrite Hb in Hs. destruct (dijkstra_body _ _ _ _ _ st1); try done.
    destruct Hs as [-> Hs]. done.
  - destruct (queue_get (queue st1.2)) as [[e1 q1]|] eqn:Hq1.
    2:{ apply queue_get_None in Hq1. rewrite Hq1 in Hp.
        destruct Hl as [Hl _]. rewrite Hl in Hp.
        by apply Permutation_nil_cons in Hp. }
    destruct (least_get_unique _ _ _ _ _ _ (wf_count_nodup _ Hwf) Hp
                (queue_get_least_get _ _ _ Hq1) Hl) as [-> Hq'].
    pose proof (dijkstra_body_equiv fuel start destination e q1 q' st1 st2 Heq Hq')
      as Hs.
    rewrite Hb in Hs. destruct (dijkstra_body _ _ _ _ _ st1); try done.
Qed.

Lemma a_star_run_loop start destination fuel st2 r :
  a_star_run start destination fuel st2 r →
  ∀ st1, wf_bk st1.1.2 → a_star_equiv st1 st2 →
  (a_star_loop fuel start destination st1).1 = r.1
  ∧ a_star_equiv (a_star_loop fuel start destination st1).2 r.2.
Proof.
  induction 1 as [st2|fuel st2 Hq|fuel st2 e q' st' r Hl Hb _ IH
                  |fuel st2 e q' o st' Hl Hb|fuel st2 e q' st' Hl Hb];
    intros st1 Hwf Heq; [done|..];
    pose proof Heq as (_ & (_ & Hp & _) & _); simpl; unfold a_star_iter.
  - rewrite Hq in Hp. apply Permutation_nil_r in Hp.
    assert (queue_get (queue st1.1.2) = None) as -> by (by apply queue_get_None).
    done.
  - destruct (queue_get (queue st1.1.2)) as [[e1 q1]|] eqn:Hq1.
    2:{ apply queue_get_None in Hq1. rewrite Hq1 in Hp.
        destruct Hl as [Hl _]. rewrite Hl in Hp.
        by apply Permutation_nil_cons in Hp. }
    destruct (least_get_unique _ _ _ _ _ _ (wf_count_nodup _ Hwf) Hp
                (queue_get_least_get _ _ _ Hq1) Hl) as [-> Hq'].
    pose proof (a_star_body_equiv fuel start destination e q1 q' st1 st2 Heq Hq')
      as Hs.
    pose proof (a_star_iter_wf fuel start destination st1 Hwf) as Hwf'.
    unfold a_star_iter in Hwf'. rewrite Hq1 in Hwf'.
    rewrite Hb in Hs. destruct (a_star_body _ _ _ _ _ st1); try done.
    by apply IH.
  - destruct (queue_get (queue st1.1.2)) as [[e1 q1]|] eqn:Hq1.
    2:{ apply queue_get_None in Hq1. rewrite Hq1 in Hp.
        destruct Hl as [Hl _]. rewrite Hl in Hp.
        by apply Permutation_nil_cons in Hp. }
    destruct (least_get_unique _ _ _ _ _ _ (wf_count_nodup _ Hwf) Hp
                (queue_get_least_get _ _ _ Hq1) Hl) as [-> Hq'].
    pose proof (a_star_body_equiv fuel start destination e q1 q' st1 st2 Heq Hq')
      as Hs.
    rewrite Hb in Hs. destruct (a_star_body _ _ _ _ _ st1); try done.
    destruct Hs as [-> Hs]. done.
  - destruct (queue_get (queue st1.1.2)) as [[e1 q1]|] eqn:Hq1.
    2:{ apply queue_get_None in Hq1. rewrite Hq1 in Hp.
        destruct Hl as [Hl _]. rewrite Hl in Hp.
        by apply Permutation_nil_cons in Hp. }
    destruct (least_get_unique _ _ _ _ _ _ (wf_count_nodup _ Hwf) Hp
                (queue_get_least_get _ _ _ Hq1) Hl) as [-> Hq'].
    pose proof (a_star_body_equiv fuel start destination e q1 q' st1 st2 Heq Hq')
      as Hs.
    rewrite Hb in Hs. destruct (a_star_body _ _ _ _ _ st1); try done.
Qed.

(** The loop over [queue_get] is one of the runs. *)
Lemma dijkstra_loop_run start destination fuel st :
  dijkstra_run start destination fuel st (dijkstra_loop fuel start destination st).
Proof.
  revert st. induction fuel as [|fuel IH]; intros st; [constructor|].
  simpl. unfold dijkstra_iter.
  destruct (queue_get (queue st.2)) as [[e q']|] eqn:Hq.
  - apply queue_get_least_get in Hq.
    destruct (dijkstra_body _ _ _ _ _ _) as [st'|o st'|st'] eqn:Hb.
    + eapply dijkstra_run_continue; eauto.
    + eapply dijkstra_run_stop; eauto.
    + eapply dijkstra_run_starved; eauto.
  - apply dijkstra_run_empty. by apply queue_get_None.
Qed.

Lemma a_star_loop_run start destination fuel st :
  a_star_run start destination fuel st (a_star_loop fuel start destination st).
Proof.
  revert st. induction fuel as [|fuel IH]; intros st; [constructor|].
  simpl. unfold a_star_iter.
  destruct (queue_get (queue st.1.2)) as [[e q']|] eqn:Hq.
  - apply queue_get_least_get in Hq.
    destruct (a_star_body _ _ _ _ _ _) as [st'|o st'|st'] eqn:Hb.
    + eapply a_star_run_continue; eauto.
    + eapply a_star_run_stop; eauto.
    + eapply a_star_run_starved; eauto.
  - apply a_star_run_empty. by apply queue_get_None.
Qed.

Lemma bk_equiv_refl b : bk_equiv b b.
Proof. by repeat split. Qed.

(** C9.  With the grid, the walls, the start, the destination and the
    neighbour lists fixed, two runs of the same search, over any priority queue
    that hands out a least tuple, end the same way and leave the same world
    behind: the same vertices taken off the queue in the same order, the same
    markers, hence the same path, and the same predecessor map.  The loop as
    embedded is one such run.  Ties in priority are broken first in, first
    out: in every state a search reaches, the counts on the queue are all
    different and bounded by the counter, which each put raises by one, and a
    tuple that stays on the queue with the priority of the one that comes off
    has the greater count. *)
Theorem search_deterministic (grid : list (list Vertex)) (s d : Vertex) (w : World)
    (fuel : nat) :
  (∀ r1 r2,
     dijkstra_run s (Some d) fuel (w, dijkstra_init grid s) r1 →
     dijkstra_run s (Some d) fuel (w, dijkstra_init grid s) r2 →
     r1.1 = r2.1 ∧ r1.2.1 = r2.2.1 ∧ pops r1.2.1 = pops r2.2.1
     ∧ path_marks r1.2.1 = path_marks r2.2.1
     ∧ came_from r1.2.2 = came_from r2.2.2)
  ∧ dijkstra_run s (Some d) fuel (w, dijkstra_init grid s)
      (dijkstra_loop fuel s (Some d) (w, dijkstra_init grid s))
  ∧ (∀ r1 r2,
     a_star_run s d fuel (w, (a_star_init grid s d).1, (a_star_init grid s d).2) r1 →
     a_star_run s d fuel (w, (a_star_init grid s d).1, (a_star_init grid s d).2) r2 →
     r1.1 = r2.1 ∧ r1.2.1.1 = r2.2.1.1 ∧ pops r1.2.1.1 = pops r2.2.1.1
     ∧ path_marks r1.2.1.1 = path_marks r2.2.1.1
     ∧ came_from r1.2.1.2 = came_from r2.2.1.2)
  ∧ a_star_run s d fuel (w, (a_star_init grid s d).1, (a_star_init grid s d).2)
      (a_star_loop fuel s d (w, (a_star_init grid s d).1, (a_star_init grid s d).2))
  ∧ (∀ b, (∃ w', dijkstra_reachable grid s (Some d) (w', b))
          ∨ (∃ w' f, a_star_reachable grid s d (w', b, f)) →
     NoDup (entry_count <$> queue b)
     ∧ (∀ x, x ∈ queue b → entry_count x ≤ count b)
     ∧ (∀ e queue' x, least_get (queue b) e queue' → x ∈ queue' →
        entry_key x = entry_key e → entry_count e < entry_count x)).
Proof.
  split_and!.
  - intros r1 r2 H1 H2.
    destruct (dijkstra_run_loop _ _ _ _ _ H1 (w, dijkstra_init grid s))
      as (Ho1 & Hw1 & _ & _ & _ & Hc1 & _);
      [apply init_wf|split; [done|apply bk_equiv_refl]|].
    destruct (dijkstra_run_loop _ _ _ _ _ H2 (w, dijkstra_init grid s))
      as (Ho2 & Hw2 & _ & _ & _ & Hc2 & _);
      [apply init_wf|split; [done|apply bk_equiv_refl]|].
    rewrite <- Ho1, <- Ho2, <- Hw1, <- Hw2, <- Hc1, <- Hc2. done.
  - apply dijkstra_loop_run.
  - intros r1 r2 H1 H2.
    destruct (a_star_run_loop _ _ _ _ _ H1
                (w, (a_star_init grid s d).1, (a_star_init grid s d).2))
      as (Ho1 & Hw1 & (_ & _ & _ & Hc1 & _) & _);
      [apply init_wf|split_and!; [done|apply bk_equiv_refl|done]|].
    destruct (a_star_run_loop _ _ _ _ _ H2
                (w, (a_star_init grid s d).1, (a_star_init grid s d).2))
      as (Ho2 & Hw2 & (_ & _ & _ & Hc2 & _) & _);
      [apply init_wf|split_and!; [done|apply bk_equiv_refl|done]|].
    rewrite <- Ho1, <- Ho2, <- Hw1, <- Hw2, <- Hc1, <- Hc2. done.
  - apply a_star_loop_run.
  - intros b Hb.
    assert (wf_bk b) as Hwf.
    { destruct Hb as [[w' Hr]|(w' & f & Hr)].
      - by apply dijkstra_reachable_wf in Hr.
      - by apply a_star_reachable_wf in Hr. }
    split_and!.
    + apply Hwf.
    + apply Hwf.
    + intros e q' x. apply least_get_fifo, Hwf.
Qed.

(** ** From the bookkeeping back to the searches *)

Lemma path_marks_app w acts w' :
  trace w' = trace w ++ acts → path_marks w' = path_marks w ++ omap path_mark_of acts.
Proof. unfold path_marks. intros ->. apply omap_app. Qed.

Lemma path_marks_actions l : omap path_mark_of (path_actions l) = l.
Proof.
  unfold path_actions. induction l as [|v l IH]; [done|].
  change (v :: omap path_mark_of (l ≫= λ u, [AMark u Path; ADraw]) = v :: l).
  by rewrite IH.
Qed.

Lemma quits_no_path evs : omap path_mark_of (quits evs) = [].
Proof.
  induction evs as [|ev evs IH]; [done|]. rewrite quits_cons.
  by case_decide.
Qed.

Lemma tail_no_path fuel start destination cf current tail :
  Some current ≠ destination →
  Forall (tail_action fuel start destination cf current) tail →
  omap path_mark_of tail = [].
Proof.
  intros Hne. induction 1 as [|a tail Ha _ IH]; [done|].
  destruct a as [| | |v st|]; try done.
  destruct st; simpl in *; try exact IH. by destruct Ha.
Qed.

(** A turn that goes on marks no path. *)
Lemma dijkstra_body_continue fuel start destination e queue' st st' :
  dijkstra_body fuel start destination e queue' st = Continue st' →
  path_marks st'.1 = path_marks st.1.
Proof.
  intros Hb. destruct st as [w b].
  destruct (dijkstra_body_trace fuel start destination e queue' w b)
    as (tail & Ht & Hf).
  pose proof (dijkstra_body_class fuel start destination e queue' (w, b)) as Hc.
  rewrite Hb in Ht, Hc. simpl in *.
  destruct Hc as [Hc|Hc].
  2:{ unfold dijkstra_body in Hb. by rewrite decide_False in Hb by done. }
  rewrite (path_marks_app _ _ _ Ht).
  change (path_marks w ++ omap path_mark_of
            (quits (events_at (polls w)) ++ APop (entry_vertex e) :: tail)
          = path_marks w).
  rewrite omap_app, quits_no_path.
  change (path_marks w ++ omap path_mark_of tail = path_marks w).
  by rewrite (tail_no_path _ _ _ _ _ _ Hc Hf), app_nil_r.
Qed.

Lemma a_star_body_continue fuel start destination e queue' st st' :
  a_star_body fuel start destination e queue' st = Continue st' →
  path_marks st'.1.1 = path_marks st.1.1.
Proof.
  intros Hb. destruct st as [[w b] f].
  destruct (a_star_body_trace fuel start destination e queue' w b f)
    as (tail & Ht & Hf).
  pose proof (a_star_body_class fuel start destination e queue' (w, b, f)) as Hc.
  rewrite Hb in Ht, Hc. simpl in *.
  destruct Hc as [Hc|Hc].
  2:{ unfold a_star_body in Hb. by rewrite decide_False in Hb by done. }
  rewrite (path_marks_app _ _ _ Ht).
  change (path_marks w ++ omap path_mark_of
            (quits (events_at (polls w)) ++ APop (entry_vertex e) :: tail)
          = path_marks w).
  rewrite omap_app, quits_no_path.
  change (path_marks w ++ omap path_mark_of tail = path_marks w).
  by rewrite (tail_no_path _ _ _ _ _ _ Hc Hf), app_nil_r.
Qed.

(** The turn that takes the destination off the queue. *)
Lemma dijkstra_body_destination fuel start d e queue' st l :
  entry_vertex e = d → d ∈ open_set st.2 →
  is_chain (came_from st.2) d l → length l ≤ fuel →
  ∃ w', dijkstra_body fuel start (Some d) e queue' st
        = Stop (Returned true)
            (w', mkBk (count st.2) queue' (open_set st.2 ∖ {[d]})
                      (came_from st.2) (g_score st.2))
        ∧ path_marks w' = path_marks st.1 ++ l.
Proof.
  destruct st as [w b]. simpl.
  intros He Hin Hc Hl. unfold dijkstra_body. rewrite He.
  rewrite decide_True by done. rewrite decide_True by done. simpl.
  destruct (is_chain_finished _ _ _ fuel (record (APop d) (poll_events w)) Hc Hl)
    as (Hpre & w' & Hr).
  pose proof (reconstruct_path_trace fuel (came_from b) d
                (record (APop d) (poll_events w))) as Ht.
  rewrite Hr, Hpre, trace_record, trace_poll_events in Ht. simpl in Ht.
  rewrite Hr. eexists. split; [done|].
  assert (trace (make_start start w')
          = trace w ++ (APoll :: quits (events_at (polls w)))
                  ++ [APop d] ++ path_actions l ++ [AMark start Start]) as Ht'.
  { unfold make_start. rewrite trace_set_state, Ht, <- !app_assoc. done. }
  rewrite (path_marks_app _ _ _ Ht').
  change (path_marks w ++ omap path_mark_of
            (quits (events_at (polls w)) ++ [APop d] ++ path_actions l
             ++ [AMark start Start]) = path_marks w ++ l).
  rewrite !omap_app, quits_no_path, path_marks_actions. simpl.
  by rewrite app_nil_r.
Qed.

Lemma a_star_body_destination fuel start d e queue' st l :
  entry_vertex e = d → d ∈ open_set st.1.2 →
  is_chain (came_from st.1.2) d l → length l ≤ fuel →
  ∃ w', a_star_body fuel start d e queue' st
        = Stop (Returned true)
            (w', mkBk (count st.1.2) queue' (open_set st.1.2 ∖ {[d]})
                      (came_from st.1.2) (g_score st.1.2), st.2)
        ∧ path_marks w' = path_marks st.1.1 ++ l.
Proof.
  destruct st as [[w b] f]. simpl.
  intros He Hin Hc Hl. unfold a_star_body. rewrite He.
  rewrite decide_True by done. rewrite decide_True by done. simpl.
  destruct (is_chain_finished _ _ _ fuel (record (APop d) (poll_events w)) Hc Hl)
    as (Hpre & w' & Hr).
  pose proof (reconstruct_path_trace fuel (came_from b) d
                (record (APop d) (poll_events w))) as Ht.
  rewrite Hr, Hpre, trace_record, trace_poll_events in Ht. simpl in Ht.
  rewrite Hr. eexists. split; [done|].
  assert (trace (make_start start w')
          = trace w ++ (APoll :: quits (events_at (polls w)))
                  ++ [APop d] ++ path_actions l ++ [AMark start Start]) as Ht'.
  { unfold make_start. rewrite trace_set_state, Ht, <- !app_assoc. done. }
  rewrite (path_marks_app _ _ _ Ht').
  change (path_marks w ++ omap path_mark_of
            (quits (events_at (polls w)) ++ [APop d] ++ path_actions l
             ++ [AMark start Start]) = path_marks w ++ l).
  rewrite !omap_app, quits_no_path, path_marks_actions. simpl.
  by rewrite app_nil_r.
Qed.

(** When the bookkeeping ends with the destination taken off, so does the
    search, given the fuel to reconstruct the path; and the path it marks is
    the chain of predecessors of the destination. *)
Lemma dijkstra_loop_found start d l K fuel :
  ∀ st b', search_bk dijkstra_key (Some d) fuel st.2 = (Some (Returned true), b') →
  is_chain (came_from b') d l → length l ≤ K →
  ∃ w', dijkstra_loop (fuel + K) start (Some d) st = (Some (Returned true), (w', b'))
        ∧ path_marks w' = path_marks st.1 ++ l.
Proof.
  induction fuel as [|fuel IH]; intros st b' Hs Hc Hl; [done|].
  simpl in Hs. change (S fuel + K) with (S (fuel + K)). simpl.
  unfold iter_bk in Hs. unfold dijkstra_iter.
  destruct (queue_get (queue st.2)) as [[e q']|] eqn:Hq; [|done].
  pose proof (dijkstra_body_bk (fuel + K) start (Some d) e q' st) as Hbk.
  destruct (body_bk dijkstra_key (Some d) e q' st.2) as [b1|o b1|b1] eqn:Hb.
  - destruct (dijkstra_body _ _ _ _ _ _) as [st1|o1 st1|st1] eqn:Hb1; try done.
    injection Hbk as Hbk. destruct (IH st1 b') as (w' & Hw' & Hp); [by rewrite Hbk|done..|].
    exists w'. split; [done|]. rewrite Hp.
    by rewrite (dijkstra_body_continue _ _ _ _ _ _ _ Hb1).
  - injection Hs as -> ->.
    unfold body_bk in Hb.
    destruct (decide (entry_vertex e ∈ open_set st.2)) as [Hin|]; [|done].
    destruct (decide (Some (entry_vertex e) = Some d)) as [[= He]|].
    2:{ by destruct (for_each _ _ _). }
    injection Hb as <-. simpl in Hc. rewrite He in Hin.
    destruct (dijkstra_body_destination (fuel + K) start d e q' st l He Hin Hc)
      as (w' & -> & Hp); [lia|].
    rewrite He. eauto.
  - done.
Qed.

Lemma a_star_loop_found start d l K fuel :
  ∀ st b', search_bk (a_star_key d) (Some d) fuel st.1.2
           = (Some (Returned true), b') →
  is_chain (came_from b') d l → length l ≤ K →
  ∃ w' f', a_star_loop (fuel + K) start d st = (Some (Returned true), (w', b', f'))
           ∧ path_marks w' = path_marks st.1.1 ++ l.
Proof.
  induction fuel as [|fuel IH]; intros st b' Hs Hc Hl; [done|].
  simpl in Hs. change (S fuel + K) with (S (fuel + K)). simpl.
  unfold iter_bk in Hs. unfold a_star_iter.
  destruct (queue_get (queue st.1.2)) as [[e q']|] eqn:Hq; [|done].
  pose proof (a_star_body_bk (fuel + K) start d e q' st) as Hbk.
  destruct (body_bk (a_star_key d) (Some d) e q' st.1.2) as [b1|o b1|b1] eqn:Hb.
  - destruct (a_star_body _ _ _ _ _ _) as [st1|o1 st1|st1] eqn:Hb1; try done.
    injection Hbk as Hbk.
    destruct (IH st1 b') as (w' & f' & Hw' & Hp); [by rewrite Hbk|done..|].
    exists w', f'. split; [done|]. rewrite Hp.
    by rewrite (a_star_body_continue _ _ _ _ _ _ _ Hb1).
  - injection Hs as -> ->.
    unfold body_bk in Hb.
    destruct (decide (entry_vertex e ∈ open_set st.1.2)) as [Hin|]; [|done].
    destruct (decide (Some (entry_vertex e) = Some d)) as [[= He]|].
    2:{ by destruct (for_each _ _ _). }
    injection Hb as <-. simpl in Hc. rewrite He in Hin.
    destruct (a_star_body_destination (fuel + K) start d e q' st l He Hin Hc)
      as (w' & -> & Hp); [lia|].
    rewrite He. eauto.
  - done.
Qed.

(** ** Every run comes to an end *)

(** The cost map read as two numbers over a list of vertices: how many of them
    are still at infinity, and the sum of the finite costs. *)
Definition is_inf (o : option num) : nat :=
  match o with Some Inf => 1 | _ => 0 end.

Definition weight (o : option num) : nat :=
  match o with Some (Int z) => Z.to_nat z | _ => 0 end.

Definition infs (ks : list Vertex) (b : Bk) : nat :=
  sum_list_with (λ k, is_inf (g_score b !! k)) ks.

Definition total (ks : list Vertex) (b : Bk) : nat :=
  sum_list_with (λ k, weight (g_score b !! k)) ks.

(** [b'] is below [b]: fewer vertices at infinity, or as many and a smaller
    sum. *)
Definition below (ks : list Vertex) (b' b : Bk) : Prop :=
  infs ks b' < infs ks b ∨ (infs ks b' = infs ks b ∧ total ks b' < total ks b).

Definition covered (ks : list Vertex) (b : Bk) : Prop :=
  ∀ k, is_Some (g_score b !! k) → k ∈ ks.

Lemma sum_list_with_update (f f' : Vertex → nat) (ks : list Vertex) (k : Vertex) :
  NoDup ks → k ∈ ks → (∀ j, j ≠ k → f' j = f j) →
  sum_list_with f' ks + f k = sum_list_with f ks + f' k.
Proof.
  intros Hnd Hk Hf. induction ks as [|x ks IH]; [by apply elem_of_nil in Hk|].
  apply NoDup_cons in Hnd as [Hx Hnd]. simpl.
  apply elem_of_cons in Hk as [->|Hk].
  - assert (sum_list_with f' ks = sum_list_with f ks) as ->; [|lia].
    clear IH Hnd. induction ks as [|y ks IH]; [done|]. simpl.
    rewrite IH by (intros ?; apply Hx; by right).
    rewrite (Hf y); [done|]. intros ->. apply Hx. by left.
  - specialize (IH Hnd Hk). rewrite (Hf x) by (by intros ->). lia.
Qed.

Lemma below_trans ks b1 b2 b3 : below ks b1 b2 → below ks b2 b3 → below ks b1 b3.
Proof. unfold below. lia. Qed.

(** A relaxation changes nothing, or brings the cost map down. *)
Lemma relax_bk_below key current b neighbor ks :
  wf_bk b → NoDup ks → covered ks b →
  let b' := result_state (relax_bk key current b neighbor) in
  covered ks b' ∧ (b' = b ∨ below ks b' b).
Proof.
  intros Hwf Hnd Hcov. unfold relax_bk.
  destruct (g_score b !! current) as [gc|] eqn:Hc; [|by split; [|left]]. simpl.
  destruct (g_score b !! neighbor) as [gn|] eqn:Hn; [|by split; [|left]].
  destruct (num_ltb _ _) eqn:Hlt; [|by split; [|left]].
  apply num_ltb_Int_inv in Hlt as (t & Ht & Hgn).
  destruct gc as [c|]; [|done]. simpl in Ht. injection Ht as <-.
  assert (0 ≤ c)%Z as Hc0 by (by eapply wf_nonneg).
  assert (neighbor ∈ ks) as Hin by (apply Hcov; by rewrite Hn).
  assert (∀ b', g_score b' = <[neighbor:=Int (c + 1)]> (g_score b) →
            covered ks b' ∧ (b' = b ∨ below ks b' b)) as Hgen.
  { intros b' Hg. split.
    - intros k. rewrite Hg, lookup_insert. case_decide; [by subst|apply Hcov].
    - right. unfold below, infs, total.
      pose proof (sum_list_with_update (λ k, is_inf (g_score b !! k))
                    (λ k, is_inf (g_score b' !! k)) ks neighbor Hnd Hin) as Hi.
      pose proof (sum_list_with_update (λ k, weight (g_score b !! k))
                    (λ k, weight (g_score b' !! k)) ks neighbor Hnd Hin) as Hw.
      simpl in Hi, Hw. rewrite Hg, Hn, lookup_insert_eq in Hi, Hw.
      rewrite Hg.
      specialize (Hi ltac:(by intros j Hj; rewrite lookup_insert_ne)).
      specialize (Hw ltac:(by intros j Hj; rewrite lookup_insert_ne)).
      destruct Hgn as [->|(y & -> & Hy)]; simpl in *; lia. }
  case_decide; simpl; by apply Hgen.
Qed.

Lemma for_each_relax_below key current ks l :
  NoDup ks → ∀ b, wf_bk b → covered ks b →
  let b' := result_state (for_each (relax_bk key current) b l) in
  covered ks b' ∧ (b' = b ∨ below ks b' b).
Proof.
  intros Hnd. induction l as [|x l IH]; intros b Hwf Hcov; [by split; [|left]|].
  destruct (relax_bk_below key current b x ks Hwf Hnd Hcov) as [Hcov1 H1].
  pose proof (relax_bk_wf key current b x Hwf) as Hwf1.
  destruct (relax_bk key current b x) as [b1|e b1] eqn:Hr; simpl in Hcov1, H1, Hwf1.
  - rewrite (for_each_cons_Ok _ _ _ _ _ Hr).
    destruct (IH b1 Hwf1 Hcov1) as [Hcov2 H2]. split; [done|].
    destruct H1 as [->|H1]; [done|]. right.
    destruct H2 as [->|H2]; [done|]. by eapply below_trans.
  - by rewrite (for_each_cons_Raise _ _ _ _ _ _ Hr).
Qed.

(** A turn that goes on brings the cost map down, or leaves it as it is and
    the queue shorter by one. *)
Lemma iter_bk_below key destination ks b b' :
  NoDup ks → wf_bk b → covered ks b → iter_bk key destination b = Continue b' →
  covered ks b' ∧ (below ks b' b
                   ∨ (infs ks b' = infs ks b ∧ total ks b' = total ks b
                      ∧ length (queue b') < length (queue b))).
Proof.
  intros Hnd Hwf Hcov. unfold iter_bk.
  destruct (queue_get (queue b)) as [[e q']|] eqn:Hq; [|done].
  destruct (wf_bk_pop _ _ _ Hwf Hq) as (Hin & _ & Hwf').
  apply queue_get_perm, Permutation_length in Hq. simpl in Hq.
  unfold body_bk. rewrite decide_True by done. case_decide; [done|].
  destruct (for_each_relax_below key (entry_vertex e) ks
              (neighbors (entry_vertex e)) Hnd _ Hwf' Hcov) as [Hcov' Hb].
  destruct (for_each _ _ _) as [b1|x b1]; [|done]. intros [= <-]. simpl in *.
  split; [done|]. destruct Hb as [->|Hb]; [right|by left].
  unfold infs, total. simpl. lia.
Qed.

Lemma search_bk_terminates key destination ks :
  NoDup ks → ∀ n1 n2 n3 b, wf_bk b → covered ks b →
  infs ks b = n1 → total ks b = n2 → length (queue b) = n3 →
  ∃ fuel o b', search_bk key destination fuel b = (Some o, b').
Proof.
  intros Hnd.
  induction n1 as [n1 IH1] using lt_wf_ind.
  induction n2 as [n2 IH2] using lt_wf_ind.
  induction n3 as [n3 IH3] using lt_wf_ind.
  intros b Hwf Hcov H1 H2 H3.
  destruct (iter_bk key destination b) as [b1|o b1|b1] eqn:Hi.
  - pose proof (iter_bk_wf key destination b Hwf) as Hwf1. rewrite Hi in Hwf1.
    destruct (iter_bk_below key destination ks b b1 Hnd Hwf Hcov Hi)
      as [Hcov1 [[Hlt|[Heq Hlt]]|(Heq1 & Heq2 & Hlt)]].
    + destruct (IH1 (infs ks b1) ltac:(lia) _ _ b1 Hwf1 Hcov1 eq_refl eq_refl eq_refl)
        as (fuel & o & b' & Hs).
      exists (S fuel), o, b'. simpl. by rewrite Hi.
    + destruct (IH2 (total ks b1) ltac:(lia) _ b1 Hwf1 Hcov1 ltac:(lia) eq_refl eq_refl)
        as (fuel & o & b' & Hs).
      exists (S fuel), o, b'. simpl. by rewrite Hi.
    + destruct (IH3 (length (queue b1)) ltac:(lia) b1 Hwf1 Hcov1 ltac:(lia) ltac:(lia)
                  eq_refl) as (fuel & o & b' & Hs).
      exists (S fuel), o, b'. simpl. by rewrite Hi.
  - exists 1, o, b1. simpl. by rewrite Hi.
  - exists 1. unfold iter_bk, body_bk in Hi.
    destruct (queue_get _) as [[??]|]; [|done].
    repeat case_decide; try done. by destruct (for_each _ _ _).
Qed.

Lemma bk_terminates key destination b :
  wf_bk b → ∃ fuel o b', search_bk key destination fuel b = (Some o, b').
Proof.
  intros Hwf.
  eapply (search_bk_terminates key destination (elements (dom (g_score b)))
            (NoDup_elements _) _ _ _ b Hwf); try reflexivity.
  intros k Hk. by apply elem_of_elements, elem_of_dom.
Qed.

Lemma wf_chain b v : wf_bk b → ∃ l, is_chain (came_from b) v l.
Proof.
  intros Hwf. destruct (reconstruct_path_fuel b v Hwf) as [K HK].
  destruct (HK K blank (le_n _)) as [w' Hw'].
  eexists. by eapply reconstruct_path_finished.
Qed.



(** ** Searching a board without walls *)

Section OpenBoard.

Variable rows : nat.
Variables s d : Vertex.

Definition bounded (v : Vertex) : Prop := in_bounds rows v = true.

(** The neighbour lists of a board without walls: the cells next to a cell,
    in any order. *)
Definition open_neighbors : Prop :=
  ∀ v u, bounded v →
    (u ∈ neighbors v ↔ bounded u ∧ manhatten_distance v u = 1%Z).

Hypothesis Hs : bounded s.
Hypothesis Hd : bounded d.
Hypothesis Hnb : open_neighbors.

(** The length of a shortest way from the start, walls being absent. *)
Definition lev (v : Vertex) : Z := manhatten_distance s v.

Lemma bounded_spec v :
  bounded v ↔ (0 ≤ v.1 < Z.of_nat rows)%Z ∧ (0 ≤ v.2 < Z.of_nat rows)%Z.
Proof.
  unfold bounded, in_bounds.
  rewrite !andb_true_iff, !Z.leb_le, !Z.ltb_lt. tauto.
Qed.

Lemma lev_nonneg v : (0 ≤ lev v)%Z.
Proof. unfold lev, manhatten_distance. destruct s, v. lia. Qed.

Lemma lev_zero v : lev v = 0%Z ↔ v = s.
Proof.
  unfold lev, manhatten_distance. destruct s as [a b], v as [x y]. split.
  - intros H. f_equal; lia.
  - intros [= -> ->]. lia.
Qed.

Lemma lev_step u v :
  manhatten_distance u v = 1%Z → lev v = (lev u + 1)%Z ∨ lev v = (lev u - 1)%Z.
Proof.
  unfold lev, manhatten_distance. destruct s as [a b], u as [x y], v as [x' y']. lia.
Qed.

Lemma neighbors_bounded u v : bounded u → v ∈ neighbors u → bounded v.
Proof. intros Hu Hv. by apply (Hnb u v Hu) in Hv as [? _]. Qed.

Lemma neighbors_step u v :
  bounded u → v ∈ neighbors u →
  lev v = (lev u + 1)%Z ∨ lev v = (lev u - 1)%Z.
Proof. intros Hu Hv. apply (Hnb u v Hu) in Hv as [_ Hv]. by apply lev_step. Qed.

Section Generic.

(** A priority and a region of the board such that: inside the region the
    priority does not fall as the level rises; outside it the priority is
    greater than anywhere inside; the region holds the start and the
    destination, and with a cell other than the start a cell next to it that is
    one step closer to the start, and every neighbour closer to the start. *)
Variable key : num → Vertex → num.
Variable inR : Vertex → bool.

Definition kv (v : Vertex) : num := key (Int (lev v)) v.

Hypothesis K_mono : ∀ u v, inR u = true → inR v = true → (lev u ≤ lev v)%Z →
  num_ltb (kv v) (kv u) = false.
Hypothesis K_out : ∀ u v, inR u = true → bounded v → inR v = false →
  num_ltb (kv u) (kv v) = true.
Hypothesis R_s : inR s = true.
Hypothesis R_d : inR d = true.
Hypothesis R_bounded : ∀ v, inR v = true → bounded v.
Hypothesis R_pred : ∀ v, inR v = true → v ≠ s →
  ∃ p, inR p = true ∧ v ∈ neighbors p ∧ lev v = (lev p + 1)%Z.
Hypothesis R_down : ∀ u v, inR u = true → v ∈ neighbors u → (lev v < lev u)%Z →
  inR v = true.

Definition discovered (b : Bk) (v : Vertex) : Prop :=
  ∃ z, g_score b !! v = Some (Int z).

(** What holds of the bookkeeping whenever the loop is about to take a tuple
    off the queue, [closed] being the vertices taken off so far. *)
Record Inv (closed : gset Vertex) (b : Bk) : Prop := {
  inv_wf : wf_bk b;
  inv_exact : ∀ v z, g_score b !! v = Some (Int z) → z = lev v ∧ bounded v;
  inv_dom : ∀ v, bounded v → is_Some (g_score b !! v);
  inv_disc : ∀ v, discovered b v ↔ v ∈ closed ∨ v ∈ open_set b;
  inv_disj : ∀ v, v ∈ closed → v ∉ open_set b;
  inv_closed_R : ∀ v, v ∈ closed → inR v = true;
  inv_d : d ∉ closed;
  inv_nbrs : ∀ p v, p ∈ closed → v ∈ neighbors p → discovered b v;
  inv_keys : ∀ e, e ∈ queue b → entry_key e = kv (entry_vertex e);
  inv_order : ∀ e1 e2, e1 ∈ queue b → e2 ∈ queue b →
    inR (entry_vertex e1) = true → inR (entry_vertex e2) = true →
    entry_ltb e1 e2 = true → (lev (entry_vertex e1) ≤ lev (entry_vertex e2))%Z;
  inv_span : ∀ e1 e2, e1 ∈ queue b → e2 ∈ queue b →
    inR (entry_vertex e1) = true → inR (entry_vertex e2) = true →
    (lev (entry_vertex e2) ≤ lev (entry_vertex e1) + 1)%Z;
  inv_cf : ∀ v u, came_from b !! v = Some u →
    v ∈ neighbors u ∧ bounded u ∧ lev v = (lev u + 1)%Z;
  inv_cf_dom : ∀ v, discovered b v → v ≠ s → is_Some (came_from b !! v);
  inv_start : g_score b !! s = Some (Int 0)
}.

(** What holds while the loop relaxes the neighbours of [u], the vertex it
    has just taken off, [done] being the neighbours it has been through. *)
Record Mid (closed : gset Vertex) (u : Vertex) (done : list Vertex) (b : Bk)
  : Prop := {
  mid_wf : wf_bk b;
  mid_exact : ∀ v z, g_score b !! v = Some (Int z) → z = lev v ∧ bounded v;
  mid_dom : ∀ v, bounded v → is_Some (g_score b !! v);
  mid_disc : ∀ v, discovered b v ↔ v ∈ closed ∨ v = u ∨ v ∈ open_set b;
  mid_disj : ∀ v, v ∈ closed ∨ v = u → v ∉ open_set b;
  mid_closed_R : ∀ v, v ∈ closed → inR v = true;
  mid_u_R : inR u = true;
  mid_u_new : u ∉ closed;
  mid_d : (d ∉ closed) ∧ u ≠ d;
  mid_nbrs : ∀ v, (∃ p, p ∈ closed ∧ v ∈ neighbors p) ∨ v ∈ done → discovered b v;
  mid_keys : ∀ e, e ∈ queue b → entry_key e = kv (entry_vertex e);
  mid_order : ∀ e1 e2, e1 ∈ queue b → e2 ∈ queue b →
    inR (entry_vertex e1) = true → inR (entry_vertex e2) = true →
    entry_ltb e1 e2 = true → (lev (entry_vertex e1) ≤ lev (entry_vertex e2))%Z;
  mid_between : ∀ e, e ∈ queue b → inR (entry_vertex e) = true →
    (lev u ≤ lev (entry_vertex e) ≤ lev u + 1)%Z;
  mid_cf : ∀ v w, came_from b !! v = Some w →
    v ∈ neighbors w ∧ bounded w ∧ lev v = (lev w + 1)%Z;
  mid_cf_dom : ∀ v, discovered b v → v ≠ s → is_Some (came_from b !! v);
  mid_start : g_score b !! s = Some (Int 0);
  mid_below : ∀ w, inR w = true → (lev w < lev u)%Z → w ∈ closed
}.

Lemma mid_finish closed u b :
  Mid closed u (neighbors u) b → Inv (closed ∪ {[u]}) b.
Proof.
  intros H. constructor; try (by destruct H).
  - intros v. rewrite (mid_disc _ _ _ _ H), elem_of_union, elem_of_singleton.
    clear. tauto.
  - intros v. rewrite elem_of_union, elem_of_singleton. intros Hv.
    by apply (mid_disj _ _ _ _ H).
  - intros v [Hv| ->%elem_of_singleton]%elem_of_union;
      [by apply (mid_closed_R _ _ _ _ H)|exact (mid_u_R _ _ _ _ H)].
  - destruct (mid_d _ _ _ _ H) as [Hd1 Hd2].
    rewrite elem_of_union, elem_of_singleton. intros [|]; congruence.
  - intros p v [Hp| ->%elem_of_singleton]%elem_of_union Hv;
      apply (mid_nbrs _ _ _ _ H); eauto.
  - intros e1 e2 H1 H2 R1 R2.
    pose proof (mid_between _ _ _ _ H e1 H1 R1).
    pose proof (mid_between _ _ _ _ H e2 H2 R2). lia.
Qed.

Lemma open_entry b v :
  wf_bk b → v ∈ open_set b → ∃ e, e ∈ queue b ∧ entry_vertex e = v.
Proof.
  intros Hwf Hv. apply (wf_open _ Hwf), list_elem_of_fmap in Hv as (e & -> & He).
  eauto.
Qed.

(** As long as the destination has not been taken off, the queue holds a
    vertex of the region. *)
Lemma inv_progress closed b :
  Inv closed b → ∃ e, e ∈ queue b ∧ inR (entry_vertex e) = true.
Proof.
  intros H.
  assert (∀ w, discovered b w → w ∉ closed → inR w = true →
            ∃ e, e ∈ queue b ∧ inR (entry_vertex e) = true) as Hopen.
  { intros w Hw Hc Hr. apply (inv_disc _ _ H) in Hw as [?|Hw]; [done|].
    destruct (open_entry b w (inv_wf _ _ H) Hw) as (e & He & <-). eauto. }
  assert (∀ n w, lev w = Z.of_nat n → inR w = true → w ∉ closed →
            ∃ e, e ∈ queue b ∧ inR (entry_vertex e) = true) as Hn.
  { induction n as [|n IH]; intros w Hl Hr Hc.
    - apply lev_zero in Hl as ->. apply (Hopen s); [|done..].
      exists 0%Z. exact (inv_start _ _ H).
    - destruct (R_pred w Hr) as (p & Hp & Hwp & Hlev).
      { intros ->. assert (lev s = 0%Z) by (by apply lev_zero). lia. }
      destruct (decide (p ∈ closed)) as [Hpc|Hpc].
      + apply (Hopen w); [|done..]. by apply (inv_nbrs _ _ H p).
      + apply (IH p); [lia|done..]. }
  apply (Hn (Z.to_nat (lev d)) d); [|done|exact (inv_d _ _ H)].
  pose proof (lev_nonneg d). lia.
Qed.

(** The tuple that comes off the queue. *)
Lemma inv_least closed b e queue' :
  Inv closed b → queue_get (queue b) = Some (e, queue') →
  let u := entry_vertex e in
  inR u = true ∧ u ∈ open_set b ∧ (u ∉ closed)
  ∧ g_score b !! u = Some (Int (lev u)) ∧ bounded u
  ∧ (∀ x, x ∈ queue b ↔ x = e ∨ x ∈ queue')
  ∧ (∀ x, x ∈ queue' → inR (entry_vertex x) = true →
     (lev u ≤ lev (entry_vertex x) ≤ lev u + 1)%Z)
  ∧ (∀ w, inR w = true → (lev w < lev u)%Z → w ∈ closed).
Proof.
  intros H Hq u. pose proof (inv_wf _ _ H) as Hwf.
  destruct (wf_bk_pop _ _ _ Hwf Hq) as (Hin & [z Hz] & Hwf').
  pose proof (queue_get_perm _ _ _ Hq) as Hp.
  pose proof (queue_get_least _ _ _ Hq) as Hl.
  assert (∀ x, x ∈ queue b ↔ x = e ∨ x ∈ queue') as Hmem.
  { intros x. by rewrite Hp, elem_of_cons. }
  destruct (inv_exact _ _ H _ _ Hz) as [-> Hbu]. fold u in Hbu, Hz.
  assert (inR u = true) as Hru.
  { destruct (inR u) eqn:Hru; [done|exfalso].
    destruct (inv_progress _ _ H) as (x & Hx & Hrx).
    apply Hmem in Hx as [->|Hx]; [fold u in Hrx; congruence|].
    specialize (Hl x Hx). apply not_true_iff_false in Hl. apply Hl.
    unfold entry_ltb. rewrite (inv_keys _ _ H e), (inv_keys _ _ H x).
    - by rewrite (K_out (entry_vertex x) (entry_vertex e)).
    - apply Hmem. by right.
    - apply Hmem. by left. }
  assert (∀ x, x ∈ queue' → inR (entry_vertex x) = true →
            (lev u ≤ lev (entry_vertex x) ≤ lev u + 1)%Z) as Hbetween.
  { intros x Hx Hrx. split.
    - destruct (entry_ltb e x) eqn:Hex.
      + apply (inv_order _ _ H e x); [apply Hmem; by left|apply Hmem; by right|done..].
      + destruct (entry_ltb_total e x Hex (Hl x Hx)) as [_ Hc].
        pose proof (wf_count_nodup _ Hwf) as Hnd.
        rewrite Hp, fmap_cons in Hnd. apply NoDup_cons in Hnd as [Hnd _].
        destruct Hnd. rewrite Hc. apply list_elem_of_fmap. eauto.
    - apply (inv_span _ _ H e x); [apply Hmem; by left|apply Hmem; by right|done..]. }
  split_and!; try done.
  - intros Hc. by apply (inv_disj _ _ H) in Hc.
  - assert (∀ n w, lev w = Z.of_nat n → inR w = true → (lev w < lev u)%Z →
              w ∈ closed) as Hn.
    { assert (∀ w, discovered b w → inR w = true → (lev w < lev u)%Z → w ∈ closed)
        as Hdisc.
      { intros w Hw Hrw Hlt. apply (inv_disc _ _ H) in Hw as [?|Hw]; [done|].
        destruct (open_entry b w Hwf Hw) as (x & Hx & <-).
        apply Hmem in Hx as [->|Hx]; [fold u in Hlt; lia|].
        specialize (Hbetween x Hx Hrw). lia. }
      induction n as [|n IH]; intros w Hl' Hrw Hlt.
      - apply lev_zero in Hl' as ->. apply Hdisc; [|done..].
        exists 0%Z. exact (inv_start _ _ H).
      - destruct (R_pred w Hrw) as (p & Hp' & Hwp & Hlev).
        { intros ->. assert (lev s = 0%Z) by (by apply lev_zero). lia. }
        apply Hdisc; [|done..]. apply (inv_nbrs _ _ H p); [|done].
        apply IH; [lia|done|lia]. }
    intros w Hrw Hlt. apply (Hn (Z.to_nat (lev w))); [|done..].
    pose proof (lev_nonneg w). lia.
Qed.

Lemma inv_pop closed b e queue' :
  Inv closed b → queue_get (queue b) = Some (e, queue') → entry_vertex e ≠ d →
  Mid closed (entry_vertex e) []
      (mkBk (count b) queue' (open_set b ∖ {[entry_vertex e]})
            (came_from b) (g_score b)).
Proof.
  intros H Hq Hne.
  destruct (inv_least _ _ _ _ H Hq) as (Hru & Hin & Hnc & Hg & Hbu & Hmem & Hbt & Hbelow).
  destruct (wf_bk_pop _ _ _ (inv_wf _ _ H) Hq) as (_ & _ & Hwf').
  constructor; simpl; try done; try (by destruct H).
  - intros v. unfold discovered. simpl. fold (discovered b v).
    rewrite (inv_disc _ _ H), elem_of_difference, elem_of_singleton.
    destruct (decide (v = entry_vertex e)) as [->|Hv]; [|clear -Hv; tauto].
    split; [intros _; right; by left|intros _; by right].
  - intros v Hv. rewrite elem_of_difference, elem_of_singleton.
    intros [Hvo Hvne]. destruct Hv as [Hv|Hv]; [|done].
    by apply (inv_disj _ _ H) in Hv.
  - intros v [(p & Hp & Hv)|Hv]; [|by apply elem_of_nil in Hv].
    by apply (inv_nbrs _ _ H p).
  - intros x Hx. apply (inv_keys _ _ H). apply Hmem. by right.
  - intros e1 e2 H1 H2. apply (inv_order _ _ H); apply Hmem; by right.
Qed.

Lemma mid_current closed u done b :
  Mid closed u done b → g_score b !! u = Some (Int (lev u)) ∧ bounded u.
Proof.
  intros H. assert (discovered b u) as [z Hz].
  { apply (mid_disc _ _ _ _ H). right. by left. }
  by destruct (mid_exact _ _ _ _ H _ _ Hz) as [-> ?].
Qed.

Lemma mid_seen closed u done b v :
  Mid closed u done b → discovered b v → Mid closed u (done ++ [v]) b.
Proof.
  intros H Hv. constructor; try (by destruct H).
  intros x [Hx|[Hx| ->%list_elem_of_singleton]%elem_of_app]; [| |done];
    apply (mid_nbrs _ _ _ _ H); eauto.
Qed.

(** Relaxing a neighbour: it has its final cost already, or it is seen for
    the first time, one step further from the start than [u]. *)
Lemma mid_relax closed u done b v :
  Mid closed u done b → v ∈ neighbors u →
  ∃ b', relax_bk key u b v = Ok b' ∧ Mid closed u (done ++ [v]) b'.
Proof.
  intros H Hv. destruct (mid_current _ _ _ _ H) as [Hgu Hbu].
  pose proof (neighbors_bounded u v Hbu Hv) as Hbv.
  pose proof (neighbors_step u v Hbu Hv) as Hstep.
  pose proof (mid_wf _ _ _ _ H) as Hwf.
  pose proof (relax_bk_wf key u b v Hwf) as Hwf'.
  unfold relax_bk in *. rewrite Hgu in *. simpl in *.
  destruct (mid_dom _ _ _ _ H v Hbv) as [gn Hgn]. rewrite Hgn in *.
  destruct gn as [z|]; simpl in *.
  { destruct (mid_exact _ _ _ _ H _ _ Hgn) as [-> _].
    assert ((lev u + 1 <? lev v)%Z = false) as -> by lia.
    exists b. split; [done|]. apply mid_seen; [done|]. by exists (lev v). }
  assert (¬ discovered b v) as Hnew by (intros [z Hz]; congruence).
  assert (v ∉ open_set b) as Hvo.
  { intros Hvo. apply Hnew, (mid_disc _ _ _ _ H). by right; right. }
  assert ((v ∉ closed) ∧ v ≠ u ∧ v ≠ s) as (Hvc & Hvu & Hvs).
  { split_and!; intros Hx; apply Hnew.
    - apply (mid_disc _ _ _ _ H). by left.
    - subst v. by exists (lev u).
    - subst v. exists 0%Z. exact (mid_start _ _ _ _ H). }
  assert (lev v = (lev u + 1)%Z) as Hlev.
  { destruct Hstep as [?|Hdown]; [done|]. destruct Hvc.
    apply (mid_below _ _ _ _ H); [|lia].
    apply (R_down u v); [exact (mid_u_R _ _ _ _ H)|done|lia]. }
  rewrite decide_False in * by done. eexists. split; [done|].
  unfold queue_put in *. simpl in Hwf'.
  assert (∀ x, discovered
     (mkBk (S (count b)) ((key (Int (lev u + 1)) v, S (count b), v) :: queue b)
           ({[v]} ∪ open_set b) (<[v:=u]> (came_from b))
           (<[v:=Int (lev u + 1)]> (g_score b))) x ↔ x = v ∨ discovered b x) as Hdisc.
  { intros x. unfold discovered. simpl. rewrite lookup_insert.
    case_decide as Hx.
    - subst x. split; [by left|]. intros _. eauto.
    - split; [by right|]. intros [?|?]; [congruence|done]. }
  constructor; simpl; try done; try (by destruct H).
  - intros x z. rewrite lookup_insert. case_decide as Hx.
    + subst x. intros [= <-]. done.
    + apply (mid_exact _ _ _ _ H).
  - intros x Hx. rewrite lookup_insert. case_decide; [done|].
    by apply (mid_dom _ _ _ _ H).
  - intros x. rewrite Hdisc, (mid_disc _ _ _ _ H), elem_of_union, elem_of_singleton.
    clear. tauto.
  - intros x Hx. rewrite elem_of_union, elem_of_singleton. intros [->|Hxo].
    + destruct Hx; congruence.
    + by apply (mid_disj _ _ _ _ H x).
  - intros x [Hx|[Hx| ->%list_elem_of_singleton]%elem_of_app]; apply Hdisc.
    + right. apply (mid_nbrs _ _ _ _ H). by left.
    + right. apply (mid_nbrs _ _ _ _ H). by right.
    + by left.
  - intros e [->|He]%elem_of_cons; [|by apply (mid_keys _ _ _ _ H)].
    unfold entry_key, entry_vertex, kv. simpl. by rewrite Hlev.
  - intros e1 e2 [->|H1]%elem_of_cons [->|H2]%elem_of_cons R1 R2 Hlt.
    + lia.
    + unfold entry_vertex at 1. simpl. rewrite Hlev.
      destruct (Z_le_gt_dec (lev u + 1) (lev (entry_vertex e2))) as [|Hgt]; [done|].
      exfalso. apply entry_ltb_spec in Hlt. revert Hlt.
      unfold entry_key at 1, entry_count at 1. simpl.
      rewrite (mid_keys _ _ _ _ H e2 H2).
      pose proof (wf_count _ Hwf e2 H2) as Hc.
      pose proof (K_mono (entry_vertex e2) v R2 R1) as Hk.
      rewrite Hlev in Hk. specialize (Hk ltac:(lia)).
      unfold kv in Hk at 1. rewrite Hlev in Hk.
      destruct (key (Int (lev u + 1)) v) as [k1|], (kv (entry_vertex e2)) as [k2|];
        unfold entry_count in *; simpl in *; intros; first [done | lia].
    + unfold entry_vertex at 2. simpl. rewrite Hlev.
      by apply (mid_between _ _ _ _ H e1).
    + by apply (mid_order _ _ _ _ H).
  - intros e [->|He]%elem_of_cons Re; [|by apply (mid_between _ _ _ _ H)].
    unfold entry_vertex. simpl. lia.
  - intros x w. rewrite lookup_insert. case_decide as Hx.
    + subst x. intros [= <-]. done.
    + apply (mid_cf _ _ _ _ H).
  - intros x Hx Hxs. rewrite lookup_insert. case_decide; [done|].
    apply (mid_cf_dom _ _ _ _ H); [|done].
    apply Hdisc in Hx as [?|?]; [congruence|done].
  - rewrite lookup_insert_ne by done. exact (mid_start _ _ _ _ H).
Qed.

Lemma mid_for_each closed u b l :
  ∀ done, Mid closed u done b → (∀ v, v ∈ l → v ∈ neighbors u) →
  ∃ b', for_each (relax_bk key u) b l = Ok b' ∧ Mid closed u (done ++ l) b'.
Proof.
  revert b. induction l as [|v l IH]; intros b done H Hl.
  { exists b. by rewrite app_nil_r. }
  destruct (mid_relax closed u done b v H) as (b1 & Hr & H1); [apply Hl; left|].
  destruct (IH b1 (done ++ [v]) H1) as (b2 & Hf & H2).
  { intros x Hx. apply Hl. by right. }
  exists b2. rewrite (for_each_cons_Ok _ _ _ _ _ Hr).
  split; [done|]. by rewrite <- app_assoc in H2.
Qed.

(** One turn of the loop. *)
Lemma inv_iter closed b :
  Inv closed b →
  ∃ e queue', queue_get (queue b) = Some (e, queue')
    ∧ (entry_vertex e ∉ closed) ∧ bounded (entry_vertex e)
    ∧ discovered b (entry_vertex e)
    ∧ ((entry_vertex e = d
        ∧ iter_bk key (Some d) b
          = Stop (Returned true)
                 (mkBk (count b) queue' (open_set b ∖ {[d]}) (came_from b) (g_score b)))
       ∨ (entry_vertex e ≠ d
          ∧ ∃ b', iter_bk key (Some d) b = Continue b'
                  ∧ Inv (closed ∪ {[entry_vertex e]}) b')).
Proof.
  intros H. destruct (inv_progress _ _ H) as (x & Hx & _).
  destruct (queue_get (queue b)) as [[e q']|] eqn:Hq.
  2:{ apply queue_get_None in Hq. rewrite Hq in Hx. by apply elem_of_nil in Hx. }
  destruct (inv_least _ _ _ _ H Hq) as (Hru & Hin & Hnc & Hg & Hbu & _).
  exists e, q'. split_and!; [done..|by eexists|].
  unfold iter_bk, body_bk. rewrite Hq. rewrite decide_True by done.
  destruct (decide (entry_vertex e = d)) as [Hd'|Hd'].
  - left. split; [done|]. rewrite decide_True by congruence. by rewrite Hd'.
  - right. split; [done|]. rewrite decide_False by congruence.
    pose proof (inv_pop _ _ _ _ H Hq Hd') as Hmid.
    destruct (mid_for_each _ _ _ (neighbors (entry_vertex e)) [] Hmid)
      as (b' & -> & Hmid'); [done|].
    exists b'. split; [done|]. by apply mid_finish.
Qed.

(** A walk on the board: from each cell to a cell next to it. *)
Fixpoint walk (v : Vertex) (l : list Vertex) : Prop :=
  match l with
  | [] => True
  | u :: l' => manhatten_distance u v = 1%Z ∧ bounded u ∧ walk u l'
  end.

(** What the search has found when it takes the destination off the queue:
    the predecessors of the destination walk to the start in as many steps as
    the Manhattan distance. *)
Definition found (came_from : gmap Vertex Vertex) : Prop :=
  ∃ l, is_chain came_from d l ∧ length l = Z.to_nat (lev d) ∧ walk d l
       ∧ last (d :: l) = Some s.

Lemma inv_chain closed b :
  Inv closed b → ∀ n v, discovered b v → lev v = Z.of_nat n →
  ∃ l, is_chain (came_from b) v l ∧ length l = n ∧ walk v l
       ∧ last (v :: l) = Some s.
Proof.
  intros H. induction n as [|n IH]; intros v Hv Hl.
  - apply lev_zero in Hl as ->. exists []. split_and!; try done. simpl.
    destruct (came_from b !! s) as [p|] eqn:Hp; [|done].
    apply (inv_cf _ _ H) in Hp as (_ & _ & Hp).
    assert (lev s = 0%Z) by (by apply lev_zero). pose proof (lev_nonneg p). lia.
  - assert (v ≠ s) as Hvs.
    { intros ->. assert (lev s = 0%Z) by (by apply lev_zero). lia. }
    destruct (inv_cf_dom _ _ H v Hv Hvs) as [p Hp].
    destruct (inv_cf _ _ H _ _ Hp) as (Hvp & Hbp & Hlev).
    destruct (wf_came_from _ (inv_wf _ _ H) _ _ Hp) as (dp & _ & Hdp & _).
    destruct (IH p) as (l & Hc & Hlen & Hw & Hlast); [by eexists|lia|].
    exists (p :: l). split_and!; simpl; try done.
    + by rewrite Hlen.
    + by apply (Hnb p v Hbp) in Hvp as [_ ?].
Qed.

(** The cells of the board, as a set. *)
Definition board : gset Vertex := list_to_set (concat (initialize_grid rows)).

Lemma bounded_board v : bounded v ↔ v ∈ board.
Proof.
  unfold board. rewrite elem_of_list_to_set, bounded_spec, list_elem_of_In.
  unfold initialize_grid. rewrite in_concat. split.
  - intros [H1 H2].
    exists (map (λ col, (Z.of_nat (Z.to_nat v.1), Z.of_nat col)) (seq 0 rows)).
    split.
    + apply (in_map (λ row, map (λ col, (Z.of_nat row, Z.of_nat col)) (seq 0 rows))).
      apply in_seq. lia.
    + apply in_map_iff. exists (Z.to_nat v.2). split.
      * destruct v as [x y]. simpl in *. f_equal; lia.
      * apply in_seq. lia.
  - intros (l & Hl & Hv). apply in_map_iff in Hl as (r & <- & Hr).
    apply in_map_iff in Hv as (c & <- & Hc).
    apply in_seq in Hr, Hc. simpl. lia.
Qed.

Lemma inv_closed_board closed b : Inv closed b → closed ⊂ board.
Proof.
  intros H. split.
  - intros v Hv. by apply bounded_board, R_bounded, (inv_closed_R _ _ H).
  - intros Hsub. apply (inv_d _ _ H), Hsub, bounded_board, Hd.
Qed.

(** Every turn takes a new cell off the queue, so the destination comes off
    before the fuel of one turn per cell is used up. *)
Lemma inv_loop fuel :
  ∀ closed b, Inv closed b → size board ≤ size closed + fuel →
  ∃ b', search_bk key (Some d) fuel b = (Some (Returned true), b')
        ∧ wf_bk b' ∧ found (came_from b').
Proof.
  induction fuel as [|fuel IH]; intros closed b H Hsize.
  { pose proof (subset_size _ _ (inv_closed_board _ _ H)). lia. }
  destruct (inv_iter _ _ H) as (e & q' & Hq & Hnc & Hbu & Hdisc & Hcase).
  simpl. destruct Hcase as [[Hed ->]|(Hed & b' & -> & H')].
  - eexists. split; [done|].
    destruct (wf_bk_pop _ _ _ (inv_wf _ _ H) Hq) as (_ & _ & Hwf').
    rewrite Hed in Hwf', Hdisc. split; [done|]. simpl.
    destruct (inv_chain _ _ H (Z.to_nat (lev d)) d)
      as (l & Hl); [done|pose proof (lev_nonneg d); lia|].
    by exists l.
  - apply (IH _ _ H'). rewrite size_union, size_singleton; [lia|].
    apply disjoint_singleton_r. done.
Qed.

Lemma all_inf_Some grid v : v ∈ concat grid → all_inf grid !! v = Some Inf.
Proof.
  unfold all_inf. induction (concat grid) as [|x l IH]; simpl.
  - by intros ?%elem_of_nil.
  - intros [->|Hv]%elem_of_cons; [by rewrite lookup_insert_eq|].
    rewrite lookup_insert. case_decide; [done|by apply IH].
Qed.

Definition init : Bk :=
  mkBk 0 (queue_put [] (Int 0, 0, s)) {[s]} ∅
       (<[s := Int 0]> (all_inf (initialize_grid rows))).

Lemma mid_init :
  s ≠ d →
  Mid ∅ s [] (mkBk 0 [] ({[s]} ∖ {[s]}) ∅
                   (<[s := Int 0]> (all_inf (initialize_grid rows)))).
Proof.
  intros Hsd.
  destruct (wf_bk_pop init (Int 0, 0, s) [] (init_wf _ _) eq_refl) as (_ & _ & Hwf).
  assert (∀ v, discovered (mkBk 0 [] ({[s]} ∖ {[s]}) ∅
                 (<[s := Int 0]> (all_inf (initialize_grid rows)))) v ↔ v = s)
    as Hdisc.
  { intros v. unfold discovered. simpl. rewrite lookup_insert. case_decide.
    - split; [done|]. intros _. by exists 0%Z.
    - split; [|done]. intros [z Hz]. by apply all_inf_lookup in Hz. }
  constructor; simpl; try done.
  - intros v z. rewrite lookup_insert. case_decide as Hv.
    + subst v. intros [= <-]. split; [|done]. symmetry. by apply lev_zero.
    + intros Hz. by apply all_inf_lookup in Hz.
  - intros v Hv. rewrite lookup_insert. case_decide; [done|].
    rewrite all_inf_Some; [done|]. apply bounded_board in Hv.
    unfold board in Hv. by apply elem_of_list_to_set in Hv.
  - intros v. rewrite Hdisc. split; [by right; left|].
    intros [?%elem_of_empty|[?|Hv]]; [done|done|].
    apply elem_of_difference in Hv as [Hv1 Hv2]. done.
  - intros v _ Hv. apply elem_of_difference in Hv as [Hv1 Hv2]. done.
  - intros v [(p & Hp & _)|Hv]; [by apply elem_of_empty in Hp|].
    by apply elem_of_nil in Hv.
  - intros e He. by apply elem_of_nil in He.
  - intros e1 e2 He. by apply elem_of_nil in He.
  - intros e He. by apply elem_of_nil in He.
  - intros v Hv. destruct Hv as [z Hz]. intros Hvs. exfalso.
    apply Hvs. apply Hdisc. by exists z.
  - by rewrite lookup_insert_eq.
  - intros w _ Hw. assert (lev s = 0%Z) by (by apply lev_zero).
    pose proof (lev_nonneg w). lia.
Qed.

(** On a board without walls the bookkeeping of a search whose priority fits
    a region ends with the destination taken off the queue, its predecessors
    walking back to the start in as many steps as the Manhattan distance. *)
Lemma search_bk_found :
  ∃ b', search_bk key (Some d) (S (size board)) init = (Some (Returned true), b')
        ∧ wf_bk b' ∧ found (came_from b').
Proof.
  destruct (decide (s = d)) as [Hsd|Hsd].
  - destruct (wf_bk_pop init (Int 0, 0, s) [] (init_wf _ _) eq_refl) as (_ & _ & Hwf).
    simpl. unfold iter_bk, body_bk. simpl.
    rewrite decide_True by (by apply elem_of_singleton).
    rewrite decide_True by congruence.
    eexists. split; [done|]. split; [done|]. simpl.
    exists []. rewrite <- Hsd. assert (lev s = 0%Z) as -> by (by apply lev_zero).
    by split_and!.
  - pose proof (mid_init Hsd) as Hmid.
    destruct (mid_for_each _ _ _ (neighbors s) [] Hmid) as (b1 & Hf & Hmid'); [done|].
    apply mid_finish in Hmid'.
    destruct (inv_loop (size board) _ _ Hmid') as (b' & Hb' & Hfound); [lia|].
    exists b'. split; [|done].
    change (search_bk key (Some d) (S (size board)) init)
      with (match iter_bk key (Some d) init with
            | Continue b' => search_bk key (Some d) (size board) b'
            | Stop o b' => (Some o, b')
            | Starved b' => (None, b')
            end).
    unfold iter_bk, body_bk. simpl.
    rewrite decide_True by (by apply elem_of_singleton).
    rewrite decide_False by congruence.
    by rewrite Hf.
Qed.

End Generic.

(** A cell other than the start has a cell next to it that is one step closer
    to the start and, when the cell lies on a shortest way from the start to
    the destination, lies on one too. *)
Lemma step_toward_start v :
  bounded v → v ≠ s →
  ∃ p, bounded p ∧ manhatten_distance p v = 1%Z ∧ lev v = (lev p + 1)%Z
       ∧ ((lev v + h d v = lev d)%Z → (lev p + h d p = lev d)%Z).
Proof.
  rewrite bounded_spec. pose proof (proj1 (bounded_spec s) Hs) as Hs'.
  unfold lev, h, manhatten_distance, get_position.
  destruct s as [a b], d as [a' b'], v as [x y]. simpl in *. intros Hv Hne.
  destruct (Z_lt_le_dec a x); [|destruct (Z_lt_le_dec x a);
    [|destruct (Z_lt_le_dec b y); [|destruct (Z_lt_le_dec y b)]]].
  - exists (x - 1, y)%Z. rewrite bounded_spec. simpl. lia.
  - exists (x + 1, y)%Z. rewrite bounded_spec. simpl. lia.
  - exists (x, y - 1)%Z. rewrite bounded_spec. simpl. lia.
  - exists (x, y + 1)%Z. rewrite bounded_spec. simpl. lia.
  - destruct Hne. f_equal; lia.
Qed.

Lemma lev_triangle v : (lev d ≤ lev v + h d v)%Z.
Proof.
  unfold lev, h, manhatten_distance, get_position.
  destruct s as [a b], d as [a' b'], v as [x y]. lia.
Qed.

Lemma h_step u v :
  manhatten_distance u v = 1%Z → (h d v ≤ h d u + 1)%Z.
Proof.
  unfold h, manhatten_distance, get_position.
  destruct d as [a' b'], u as [x y], v as [x' y']. lia.
Qed.

Lemma dijkstra_bk_found :
  ∃ b', search_bk dijkstra_key (Some d) (S (size board)) init
        = (Some (Returned true), b')
        ∧ wf_bk b' ∧ found (came_from b').
Proof.
  apply (search_bk_found dijkstra_key (in_bounds rows)).
  - intros u v _ _ Hle. unfold kv, dijkstra_key. simpl. lia.
  - intros u v _ Hv Hnv. unfold bounded in Hv. congruence.
  - exact Hs.
  - exact Hd.
  - done.
  - intros v Hv Hvs.
    destruct (step_toward_start v Hv Hvs) as (p & Hp & Hpv & Hlev & _).
    exists p. split_and!; [done| |done]. by apply (Hnb p v Hp).
  - intros u v Hu Hv _. by apply (neighbors_bounded u v).
Qed.

(** The cells on the shortest ways from the start to the destination. *)
Definition on_the_way (v : Vertex) : bool :=
  in_bounds rows v && (lev v + h d v =? lev d)%Z.

Lemma on_the_way_spec v :
  on_the_way v = true ↔ bounded v ∧ (lev v + h d v = lev d)%Z.
Proof. unfold on_the_way, bounded. by rewrite andb_true_iff, Z.eqb_eq. Qed.

Lemma a_star_bk_found :
  ∃ b', search_bk (a_star_key d) (Some d) (S (size board)) init
        = (Some (Returned true), b')
        ∧ wf_bk b' ∧ found (came_from b').
Proof.
  apply (search_bk_found (a_star_key d) on_the_way).
  - intros u v [_ Hu]%on_the_way_spec [_ Hv]%on_the_way_spec _.
    unfold kv, a_star_key. simpl. lia.
  - intros u v [_ Hu]%on_the_way_spec Hv Hnv.
    unfold kv, a_star_key. simpl. pose proof (lev_triangle v).
    assert (lev v + h d v ≠ lev d)%Z.
    { intros Heq. assert (on_the_way v = true) by (by apply on_the_way_spec).
      congruence. }
    lia.
  - apply on_the_way_spec. split; [done|].
    assert (lev s = 0%Z) as -> by (by apply lev_zero).
    unfold lev, h, manhatten_distance, get_position. destruct s, d. lia.
  - apply on_the_way_spec. split; [done|].
    unfold lev, h, manhatten_distance, get_position. destruct s, d. lia.
  - by intros v [? _]%on_the_way_spec.
  - intros v [Hv Hw]%on_the_way_spec Hvs.
    destruct (step_toward_start v Hv Hvs) as (p & Hp & Hpv & Hlev & Hway).
    exists p. split_and!; [|by apply (Hnb p v Hp)|done].
    apply on_the_way_spec. auto.
  - intros u v [Hu Hw]%on_the_way_spec Hv Hlt.
    apply on_the_way_spec. split; [by apply (neighbors_bounded u v)|].
    apply (Hnb u v Hu) in Hv as [_ Hv].
    pose proof (h_step u v Hv). pose proof (lev_triangle v). lia.
Qed.


(** Both searches on a board without walls: with the fuel of one turn per
    cell and the Manhattan distance, each returns True, and the path it marks
    walks from the destination to the start in as many steps as the Manhattan
    distance. *)
Lemma open_board_search (w : World) :
  let pf := mkPathfinder (initialize_grid rows) (Some s) (Some d) in
  let fuel := S (size board) + Z.to_nat (lev d) in
  ∃ wd wa pd pa,
    dijkstra fuel pf w = (Some (Returned true), wd)
    ∧ a_star_search fuel pf w = (Some (Returned true), wa)
    ∧ path_marks wd = path_marks w ++ pd
    ∧ path_marks wa = path_marks w ++ pa
    ∧ walk d pd ∧ walk d pa
    ∧ last (d :: pd) = Some s ∧ last (d :: pa) = Some s
    ∧ length pd = Z.to_nat (manhatten_distance s d)
    ∧ length pa = Z.to_nat (manhatten_distance s d).
Proof.
  intros pf fuel.
  destruct dijkstra_bk_found as (bd & Hbd & _ & ld & Hcd & Hld & Hwd & Hlastd).
  destruct a_star_bk_found as (ba & Hba & _ & la & Hca & Hla & Hwa & Hlasta).
  destruct (dijkstra_loop_found s d ld (Z.to_nat (lev d)) (S (size board))
              (w, init) bd Hbd Hcd) as (wd & Hrd & Hpd); [lia|].
  destruct (a_star_loop_found s d la (Z.to_nat (lev d)) (S (size board))
              (w, init, (a_star_init (initialize_grid rows) s d).2) ba Hba Hca)
    as (wa & fa & Hra & Hpa); [lia|].
  exists wd, wa, ld, la. split_and!; try done.
  - unfold dijkstra, pf. cbn [start destination grid]. unfold fuel.
    change (dijkstra_init (initialize_grid rows) s) with init.
    by rewrite Hrd.
  - unfold a_star_search, pf. cbn [start destination grid]. unfold fuel.
    unfold a_star_init in *. cbn [fst snd] in *.
    change (mkBk 0 (queue_put [] (Int 0, 0, s)) {[s]} ∅
                 (<[s:=Int 0]> (all_inf (initialize_grid rows)))) with init.
    by rewrite Hra.
Qed.

End OpenBoard.

(** * Searches on any graph

    From here on the neighbour lists are arbitrary: what follows holds with
    walls on the board, and for any other way the lists may have been
    filled. *)

(** ** More fuel changes nothing *)

Lemma reconstruct_path_mono fuel K cf v w w' :
  reconstruct_path fuel cf v w = Finished w' →
  reconstruct_path (fuel + K) cf v w = Finished w'.
Proof.
  revert v w. induction fuel as [|fuel IH]; intros v w; simpl.
  - destruct (cf !! v) as [u|] eqn:Hu; [done|]. intros [= <-].
    destruct K; simpl; by rewrite Hu.
  - destruct (cf !! v) as [u|] eqn:Hu; [apply IH|done].
Qed.

Lemma dijkstra_body_mono fuel K start destination e queue' st r :
  dijkstra_body fuel start destination e queue' st = r →
  (∀ st', r ≠ Starved st') →
  dijkstra_body (fuel + K) start destination e queue' st = r.
Proof.
  destruct st as [w b]. unfold dijkstra_body.
  case_decide; [|done]. case_decide; [|done].
  destruct (reconstruct_path fuel _ _ _) as [w1|w1] eqn:Hr.
  - by rewrite (reconstruct_path_mono _ K _ _ _ _ Hr).
  - intros <- Hn. by destruct (Hn (w1, mkBk (count b) queue' (open_set b ∖ {[entry_vertex e]})
                                        (came_from b) (g_score b))).
Qed.

Lemma a_star_body_mono fuel K start destination e queue' st r :
  a_star_body fuel start destination e queue' st = r →
  (∀ st', r ≠ Starved st') →
  a_star_body (fuel + K) start destination e queue' st = r.
Proof.
  destruct st as [[w b] f]. unfold a_star_body.
  case_decide; [|done]. case_decide; [|done].
  destruct (reconstruct_path fuel _ _ _) as [w1|w1] eqn:Hr.
  - by rewrite (reconstruct_path_mono _ K _ _ _ _ Hr).
  - intros <- Hn. by destruct (Hn (w1, mkBk (count b) queue' (open_set b ∖ {[entry_vertex e]})
                                        (came_from b) (g_score b), f)).
Qed.

Lemma dijkstra_loop_mono K start destination fuel :
  ∀ st o st', dijkstra_loop fuel start destination st = (Some o, st') →
  dijkstra_loop (fuel + K) start destination st = (Some o, st').
Proof.
  induction fuel as [|fuel IH]; intros st o st'; [done|]. simpl.
  unfold dijkstra_iter.
  destruct (queue_get (queue st.2)) as [[e q']|]; [|done].
  destruct (dijkstra_body fuel _ _ _ _ _) as [st1|o1 st1|st1] eqn:Hb; [| |done].
  - rewrite (dijkstra_body_mono _ K _ _ _ _ _ _ Hb) by done. apply IH.
  - by rewrite (dijkstra_body_mono _ K _ _ _ _ _ _ Hb).
Qed.

Lemma a_star_loop_mono K start destination fuel :
  ∀ st o st', a_star_loop fuel start destination st = (Some o, st') →
  a_star_loop (fuel + K) start destination st = (Some o, st').
Proof.
  induction fuel as [|fuel IH]; intros st o st'; [done|]. simpl.
  unfold a_star_iter.
  destruct (queue_get (queue st.1.2)) as [[e q']|]; [|done].
  destruct (a_star_body fuel _ _ _ _ _) as [st1|o1 st1|st1] eqn:Hb; [| |done].
  - rewrite (a_star_body_mono _ K _ _ _ _ _ _ Hb) by done. apply IH.
  - by rewrite (a_star_body_mono _ K _ _ _ _ _ _ Hb).
Qed.

(** ** The path that a search marks *)

(** [walk_to s n v]: [n] steps along neighbour lists lead from [s] to [v]. *)
Inductive walk_to (s : Vertex) : nat → Vertex → Prop :=
  | walk_here : walk_to s 0 s
  | walk_on n v u : walk_to s n v → u ∈ neighbors v → walk_to s (S n) u.

(** Every vertex of [v :: l] is in the neighbour list of the one after it. *)
Fixpoint follows (v : Vertex) (l : list Vertex) : Prop :=
  match l with
  | [] => True
  | u :: l' => v ∈ neighbors u ∧ follows u l'
  end.

(** What the cost map and the predecessor map of either search say about the
    graph: the start costs nothing and has no predecessor, every other vertex
    of finite cost has one, a vertex is in the neighbour list of its
    predecessor, and a finite cost is the length of a walk from the start. *)
Record sound (s : Vertex) (b : Bk) : Prop := {
  sound_start : g_score b !! s = Some (Int 0);
  sound_root : came_from b !! s = None;
  sound_edge : ∀ v u, came_from b !! v = Some u → v ∈ neighbors u;
  sound_pred : ∀ v z, v ≠ s → g_score b !! v = Some (Int z) →
    is_Some (came_from b !! v);
  sound_walk : ∀ v z, g_score b !! v = Some (Int z) → walk_to s (Z.to_nat z) v
}.

Lemma relax_bk_sound key s current b neighbor :
  neighbor ∈ neighbors current →
  wf_bk b → sound s b → sound s (result_state (relax_bk key current b neighbor)).
Proof.
  intros Hnb Hwf Hs. unfold relax_bk.
  destruct (g_score b !! current) as [gc|] eqn:Hc; [|done]. simpl.
  destruct (g_score b !! neighbor) as [gn|] eqn:Hn; [|done].
  destruct (num_ltb _ _) eqn:Hlt; [|done].
  apply num_ltb_Int_inv in Hlt as (t & Ht & Hgn).
  destruct gc as [c|]; [|done]. simpl in Ht. injection Ht as <-.
  assert (0 ≤ c)%Z as Hc0 by (by eapply wf_nonneg).
  assert (neighbor ≠ s) as Hns.
  { intros ->. rewrite (sound_start _ _ Hs) in Hn. injection Hn as <-.
    destruct Hgn as [|(y & [= <-] & ?)]; [done|lia]. }
  assert (∀ b', came_from b' = <[neighbor:=current]> (came_from b) →
                g_score b' = <[neighbor:=Int (c + 1)]> (g_score b) → sound s b') as Hgen.
  { intros b' Hcf Hg. constructor.
    - rewrite Hg, lookup_insert_ne by done. exact (sound_start _ _ Hs).
    - rewrite Hcf, lookup_insert_ne by done. exact (sound_root _ _ Hs).
    - intros v u. rewrite Hcf, lookup_insert. case_decide as Hv.
      + intros [= <-]. by subst v.
      + apply (sound_edge _ _ Hs).
    - intros v z Hv. rewrite Hg, Hcf, !lookup_insert. case_decide; [done|].
      by apply (sound_pred _ _ Hs).
    - intros v z. rewrite Hg, lookup_insert. case_decide as Hv.
      + intros [= <-]. subst v. rewrite Z2Nat.inj_add by lia.
        rewrite Nat.add_1_r. eapply walk_on; [exact (sound_walk _ _ Hs _ _ Hc)|done].
      + apply (sound_walk _ _ Hs). }
  case_decide; simpl; by apply Hgen.
Qed.

Lemma for_each_relax_sound key s current b :
  wf_bk b → sound s b →
  sound s (result_state (for_each (relax_bk key current) b (neighbors current))).
Proof.
  intros Hwf Hs.
  apply (for_each_inv (λ b, wf_bk b ∧ sound s b)); [|done].
  intros b1 x Hx [Hwf1 Hs1]. split; [by apply relax_bk_wf|by apply relax_bk_sound].
Qed.

Lemma sound_same s b b' :
  came_from b' = came_from b → g_score b' = g_score b → sound s b → sound s b'.
Proof.
  intros Hcf Hg [H1 H2 H3 H4 H5]. constructor; rewrite ?Hcf, ?Hg; done.
Qed.

Lemma iter_bk_sound key s destination b :
  wf_bk b → sound s b → sound s (step_state (iter_bk key destination b)).
Proof.
  intros Hwf Hs. unfold iter_bk.
  destruct (queue_get (queue b)) as [[e q']|] eqn:Hq; [|done].
  destruct (wf_bk_pop _ _ _ Hwf Hq) as (Hin & _ & Hwf').
  unfold body_bk. rewrite decide_True by done.
  case_decide; [by eapply sound_same; [..|exact Hs]|].
  pose proof (for_each_relax_sound key s (entry_vertex e) _ Hwf'
                (sound_same s b (mkBk _ _ _ _ _) eq_refl eq_refl Hs)) as H'.
  by destruct (for_each _ _ _).
Qed.

Lemma search_bk_sound key s destination fuel b :
  wf_bk b → sound s b → sound s (search_bk key destination fuel b).2.
Proof.
  revert b. induction fuel as [|fuel IH]; intros b Hwf Hs; [done|]. simpl.
  pose proof (iter_bk_wf key destination b Hwf) as Hwf1.
  pose proof (iter_bk_sound key s destination b Hwf Hs) as Hs1.
  destruct (iter_bk _ _ _); simpl in *; [by apply IH|done..].
Qed.

Lemma init_sound grid s :
  sound s (mkBk 0 (queue_put [] (Int 0, 0, s)) {[s]} ∅ (<[s := Int 0]> (all_inf grid))).
Proof.
  constructor; simpl.
  - by rewrite lookup_insert_eq.
  - done.
  - intros v u. by rewrite lookup_empty.
  - intros v z Hv. rewrite lookup_insert_ne by done.
    intros ?. by destruct (all_inf_lookup grid v z).
  - intros v z. rewrite lookup_insert. case_decide as Hv.
    + intros [= <-]. subst v. constructor.
    + intros ?. by destruct (all_inf_lookup grid v z).
Qed.

(** The vertex that ends the search has a finite cost. *)
Lemma search_bk_true_finite key d fuel :
  ∀ b b', wf_bk b → search_bk key (Some d) fuel b = (Some (Returned true), b') →
  ∃ z, g_score b' !! d = Some (Int z).
Proof.
  induction fuel as [|fuel IH]; intros b b' Hwf; [done|]. simpl.
  pose proof (iter_bk_wf key (Some d) b Hwf) as Hwf1.
  destruct (iter_bk key (Some d) b) as [b1|o b1|b1] eqn:Hi; simpl in *;
    [by apply IH| |done].
  intros [= -> ->]. unfold iter_bk in Hi.
  destruct (queue_get (queue b)) as [[e q']|] eqn:Hq; [|done].
  destruct (wf_bk_pop _ _ _ Hwf Hq) as (Hin & Hfin & _).
  unfold body_bk in Hi. rewrite decide_True in Hi by done.
  case_decide as Hd; [|by destruct (for_each _ _ _)].
  injection Hi as <-. simpl. by injection Hd as <-.
Qed.

Lemma chain_follows s b v l :
  sound s b → is_chain (came_from b) v l → follows v l.
Proof.
  intros Hs. revert v. induction l as [|u l IH]; intros v; [done|].
  intros [Hv Hl]. split; [by apply (sound_edge _ _ Hs)|by apply IH].
Qed.

Lemma chain_NoDup b v l : wf_bk b → is_chain (came_from b) v l → NoDup (v :: l).
Proof.
  intros Hwf. revert v. induction l as [|u l IH]; intros v Hc.
  - apply NoDup_singleton.
  - apply NoDup_cons. split; [exact (is_chain_not_in _ _ _ Hc)|].
    apply IH. by destruct Hc.
Qed.

Lemma chain_last_start s b v l z :
  wf_bk b → sound s b → g_score b !! v = Some (Int z) →
  is_chain (came_from b) v l → last (v :: l) = Some s.
Proof.
  intros Hwf Hs. revert v z. induction l as [|u l IH]; intros v z Hv Hc.
  - simpl in *. destruct (decide (v = s)) as [->|Hne]; [done|].
    destruct (sound_pred _ _ Hs v z Hne Hv) as [x Hx]. congruence.
  - destruct Hc as [Hu Hl].
    destruct (wf_came_from _ Hwf _ _ Hu) as (du & dv & Hdu & _).
    exact (IH u du Hdu Hl).
Qed.

Lemma follows_walk s v l :
  follows v l → last (v :: l) = Some s → walk_to s (length l) v.
Proof.
  revert v. induction l as [|u l IH]; intros v.
  - intros _ [= ->]. constructor.
  - intros [Hv Hl] Hlast. apply (walk_on _ _ u); [by apply IH|done].
Qed.

(** A search that returns True, and the chain it has marked. *)
Lemma dijkstra_loop_true fuel s d st w' b' :
  wf_bk st.2 →
  dijkstra_loop fuel s (Some d) st = (Some (Returned true), (w', b')) →
  search_bk dijkstra_key (Some d) fuel st.2 = (Some (Returned true), b')
  ∧ ∃ l, is_chain (came_from b') d l ∧ path_marks w' = path_marks st.1 ++ l.
Proof.
  intros Hwf Hl.
  destruct (dijkstra_loop_bk fuel s (Some d) st) as [Hb Ho].
  rewrite Hl in Hb, Ho. simpl in Hb, Ho.
  destruct Ho as [Ho|[? _]]; [|done].
  assert (search_bk dijkstra_key (Some d) fuel st.2 = (Some (Returned true), b')) as Hs.
  { destruct (search_bk _ _ _ _) as [o b1]. simpl in *. by subst. }
  split; [done|].
  pose proof (search_bk_wf dijkstra_key (Some d) fuel st.2 Hwf) as Hwf'.
  rewrite Hs in Hwf'. destruct (wf_chain b' d Hwf') as [l Hc].
  exists l. split; [done|].
  destruct (dijkstra_loop_found s d l (length l) fuel st b' Hs Hc (le_n _))
    as (w1 & Hw1 & Hp).
  rewrite (dijkstra_loop_mono (length l) _ _ _ _ _ _ Hl) in Hw1. by injection Hw1 as <-.
Qed.

Lemma a_star_loop_true fuel s d st w' b' f' :
  wf_bk st.1.2 →
  a_star_loop fuel s d st = (Some (Returned true), (w', b', f')) →
  search_bk (a_star_key d) (Some d) fuel st.1.2 = (Some (Returned true), b')
  ∧ ∃ l, is_chain (came_from b') d l ∧ path_marks w' = path_marks st.1.1 ++ l.
Proof.
  intros Hwf Hl.
  destruct (a_star_loop_bk fuel s d st) as [Hb Ho].
  rewrite Hl in Hb, Ho. simpl in Hb, Ho.
  destruct Ho as [Ho|[? _]]; [|done].
  assert (search_bk (a_star_key d) (Some d) fuel st.1.2 = (Some (Returned true), b'))
    as Hs.
  { destruct (search_bk _ _ _ _) as [o b1]. simpl in *. by subst. }
  split; [done|].
  pose proof (search_bk_wf (a_star_key d) (Some d) fuel st.1.2 Hwf) as Hwf'.
  rewrite Hs in Hwf'. destruct (wf_chain b' d Hwf') as [l Hc].
  exists l. split; [done|].
  destruct (a_star_loop_found s d l (length l) fuel st b' Hs Hc (le_n _))
    as (w1 & f1 & Hw1 & Hp).
  rewrite (a_star_loop_mono (length l) _ _ _ _ _ _ Hl) in Hw1. by injection Hw1 as <- <-.
Qed.

(** What a chain of a finished search is: a way back from the destination to
    the start, along neighbour lists and without a vertex twice. *)
Lemma found_chain key s d fuel b b' l :
  wf_bk b → sound s b →
  search_bk key (Some d) fuel b = (Some (Returned true), b') →
  is_chain (came_from b') d l →
  follows d l ∧ last (d :: l) = Some s ∧ NoDup (d :: l) ∧ walk_to s (length l) d.
Proof.
  intros Hwf Hs Hb Hc.
  pose proof (search_bk_wf key (Some d) fuel b Hwf) as Hwf'.
  pose proof (search_bk_sound key s (Some d) fuel b Hwf Hs) as Hs'.
  destruct (search_bk_true_finite key d fuel b b' Hwf Hb) as [z Hz].
  rewrite Hb in Hwf', Hs'. simpl in Hwf', Hs'.
  pose proof (chain_follows s b' d l Hs' Hc) as Hf.
  pose proof (chain_last_start s b' d l z Hwf' Hs' Hz Hc) as Hl.
  split_and!; [done|done|by eapply chain_NoDup|by apply follows_walk].
Qed.

(** X1.  Whatever the neighbour lists, a search that returns True has marked a
    path: the vertices it marked as path lead from the destination back to the
    start, each in the neighbour list of the next, none twice and none of
    them the destination. *)
Theorem search_marks_a_path (grid : list (list Vertex)) (fuel : nat) (s d : Vertex)
    (w w' : World) :
  dijkstra fuel (mkPathfinder grid (Some s) (Some d)) w = (Some (Returned true), w')
  ∨ a_star_search fuel (mkPathfinder grid (Some s) (Some d)) w
    = (Some (Returned true), w') →
  ∃ l, path_marks w' = path_marks w ++ l
       ∧ follows d l ∧ last (d :: l) = Some s ∧ NoDup (d :: l)
       ∧ walk_to s (length l) d.
Proof.
  intros [H|H].
  - unfold dijkstra in H. simpl in H.
    destruct (dijkstra_loop fuel s (Some d) (w, dijkstra_init grid s))
      as [o [w1 b1]] eqn:Hl.
    injection H as -> ->.
    destruct (dijkstra_loop_true fuel s d (w, dijkstra_init grid s) _ _
                (init_wf grid s) Hl) as (Hb & l & Hc & Hp).
    exists l. split; [done|].
    exact (found_chain _ s d fuel (dijkstra_init grid s) _ l
             (init_wf grid s) (init_sound grid s) Hb Hc).
  - unfold a_star_search in H. simpl in H.
    destruct (a_star_loop fuel s d
                (w, (a_star_init grid s d).1, (a_star_init grid s d).2))
      as [o [[w1 b1] f1]] eqn:Hl.
    simpl in Hl. rewrite Hl in H. injection H as -> ->.
    destruct (a_star_loop_true fuel s d
                (w, (a_star_init grid s d).1, (a_star_init grid s d).2) _ _ _
                (init_wf grid s) Hl) as (Hb & l & Hc & Hp).
    exists l. split; [done|].
    exact (found_chain _ s d fuel (a_star_init grid s d).1 _ l
             (init_wf grid s) (init_sound grid s) Hb Hc).
Qed.

(** ** What a search reaches *)

(** A vertex is settled when it has a finite cost and is not on the queue. *)
Definition settled (b : Bk) (v : Vertex) : Prop :=
  discovered b v ∧ v ∉ open_set b.

(** Every settled vertex, [skip] apart, is not the destination, and all its
    neighbours have a finite cost. *)
Definition explored (destination skip : option Vertex) (b : Bk) : Prop :=
  ∀ v, settled b v → Some v ≠ skip →
    Some v ≠ destination ∧ ∀ u, u ∈ neighbors v → discovered b u.

(** Every neighbour has an entry in the cost map. *)
Definition known (b : Bk) : Prop :=
  ∀ v u, u ∈ neighbors v → is_Some (g_score b !! u).

Lemma relax_bk_cases key current b neighbor :
  let r := relax_bk key current b neighbor in
  (r = Raise KeyError b
   ∧ (g_score b !! current = None ∨ g_score b !! neighbor = None))
  ∨ (r = Ok b ∧ ∃ gc gn, g_score b !! current = Some gc
                         ∧ g_score b !! neighbor = Some gn
                         ∧ num_ltb (num_add gc 1) gn = false)
  ∨ (∃ b' c, r = Ok b'
       ∧ g_score b !! current = Some (Int c)
       ∧ (g_score b !! neighbor = Some Inf
          ∨ ∃ y, g_score b !! neighbor = Some (Int y) ∧ (c + 1 < y)%Z)
       ∧ g_score b' = <[neighbor := Int (c + 1)]> (g_score b)
       ∧ came_from b' = <[neighbor := current]> (came_from b)
       ∧ ((neighbor ∈ open_set b ∧ open_set b' = open_set b ∧ queue b' = queue b
           ∧ count b' = count b)
          ∨ ((neighbor ∉ open_set b) ∧ open_set b' = {[neighbor]} ∪ open_set b
             ∧ queue b' = (key (Int (c + 1)) neighbor, S (count b), neighbor) :: queue b
             ∧ count b' = S (count b)))).
Proof.
  unfold relax_bk.
  destruct (g_score b !! current) as [gc|] eqn:Hc; [|left; auto]. simpl.
  destruct (g_score b !! neighbor) as [gn|] eqn:Hn; [|left; auto].
  destruct (num_ltb _ _) eqn:Hlt; [|right; left; eauto 6].
  right; right.
  apply num_ltb_Int_inv in Hlt as (t & Ht & Hgn).
  destruct gc as [c|]; [|done]. simpl in Ht. injection Ht as <-.
  assert (Some gn = Some Inf ∨ ∃ y, Some gn = Some (Int y) ∧ (c + 1 < y)%Z) as Hgn'.
  { destruct Hgn as [->|(y & -> & ?)]; eauto. }
  case_decide; eexists _, c; simpl; split_and!; try done; [left|right]; done.
Qed.

Lemma relax_bk_discovered key current b neighbor v :
  discovered b v → discovered (result_state (relax_bk key current b neighbor)) v.
Proof.
  intros [z Hz].
  destruct (relax_bk_cases key current b neighbor)
    as [[-> _]|[[-> _]|(b' & c & -> & _ & _ & Hg & _)]]; simpl; [by exists z..|].
  unfold discovered. rewrite Hg, lookup_insert. case_decide; eauto.
Qed.

Lemma relax_bk_settled key current b neighbor v :
  settled (result_state (relax_bk key current b neighbor)) v → settled b v.
Proof.
  destruct (relax_bk_cases key current b neighbor)
    as [[-> _]|[[-> _]|(b' & c & -> & _ & Hn & Hg & _ & Ho)]]; simpl; [done..|].
  intros [[z Hz] Hv]. rewrite Hg in Hz.
  assert (v ≠ neighbor ∧ v ∉ open_set b) as [Hne Hvo].
  { destruct Ho as [(Hin & Ho & _)|(_ & Ho & _)]; rewrite Ho in Hv.
    - split; [by intros ->|done].
    - rewrite elem_of_union, elem_of_singleton in Hv. split; [intros ->|]; tauto. }
  rewrite lookup_insert_ne in Hz by done. split; [by exists z|done].
Qed.

Lemma relax_bk_explored key destination skip current b neighbor :
  explored destination skip b →
  explored destination skip (result_state (relax_bk key current b neighbor)).
Proof.
  intros He v Hv Hs. apply relax_bk_settled in Hv.
  destruct (He v Hv Hs) as [Hd Hu]. split; [done|].
  intros u Hin. by apply relax_bk_discovered, Hu.
Qed.

Lemma relax_bk_Ok_discovered key current b neighbor b' :
  relax_bk key current b neighbor = Ok b' → discovered b current →
  discovered b' neighbor.
Proof.
  intros Hr [c Hc].
  destruct (relax_bk_cases key current b neighbor)
    as [[Hr' _]|[[Hr' (gc & gn & Hgc & Hgn & Hlt)]|(b1 & c1 & Hr' & _ & _ & Hg & _)]];
    rewrite Hr in Hr'; [done|injection Hr' as ->|injection Hr' as ->].
  - rewrite Hc in Hgc. injection Hgc as <-. destruct gn as [y|]; [by exists y|done].
  - exists (c1 + 1)%Z. by rewrite Hg, lookup_insert_eq.
Qed.

Lemma for_each_relax_discovered key current l :
  ∀ b b', discovered b current → for_each (relax_bk key current) b l = Ok b' →
  ∀ u, u ∈ l → discovered b' u.
Proof.
  induction l as [|x l IH]; intros b b' Hc Hf u Hu; [by apply elem_of_nil in Hu|].
  destruct (relax_bk key current b x) as [b1|? b1] eqn:Hr.
  2:{ by rewrite (for_each_cons_Raise _ _ _ _ _ _ Hr) in Hf. }
  rewrite (for_each_cons_Ok _ _ _ _ _ Hr) in Hf.
  pose proof (relax_bk_discovered key current b x current Hc) as Hc1.
  rewrite Hr in Hc1. simpl in Hc1.
  apply elem_of_cons in Hu as [->|Hu]; [|by eapply IH].
  pose proof (for_each_inv (λ b, discovered b x) (relax_bk key current) l b1) as Hinv.
  rewrite Hf in Hinv. apply Hinv.
  - intros ???. apply relax_bk_discovered.
  - by eapply relax_bk_Ok_discovered.
Qed.

Lemma iter_bk_explored key destination b b' :
  wf_bk b → explored destination None b →
  iter_bk key destination b = Continue b' → explored destination None b'.
Proof.
  intros Hwf He. unfold iter_bk.
  destruct (queue_get (queue b)) as [[e q']|] eqn:Hq; [|done].
  destruct (wf_bk_pop _ _ _ Hwf Hq) as (Hin & Hfin & Hwf').
  unfold body_bk. rewrite decide_True by done.
  case_decide as Hd; [done|].
  set (b0 := mkBk (count b) q' (open_set b ∖ {[entry_vertex e]})
                  (came_from b) (g_score b)).
  assert (explored destination (Some (entry_vertex e)) b0) as He0.
  { intros v [Hv Hvo] Hne. apply He; [|done]. split; [done|].
    simpl in Hvo. rewrite elem_of_difference, elem_of_singleton in Hvo.
    intros ?. apply Hvo. split; [done|]. congruence. }
  assert (explored destination (Some (entry_vertex e))
            (result_state (for_each (relax_bk key (entry_vertex e)) b0
                             (neighbors (entry_vertex e))))) as He1.
  { apply (for_each_inv (explored destination (Some (entry_vertex e)))); [|done].
    intros ???. apply relax_bk_explored. }
  destruct (for_each _ b0 _) as [b1|x b1] eqn:Hf; [|done].
  intros [= <-]. simpl in He1.
  intros v Hv _. destruct (decide (v = entry_vertex e)) as [->|Hne].
  - split; [done|].
    exact (for_each_relax_discovered key (entry_vertex e) _ b0 b1 Hfin Hf).
  - apply He1; [done|congruence].
Qed.

(** When the queue is empty, every vertex that can be reached from the start
    is settled. *)
Lemma exhausted_settled s destination b :
  wf_bk b → sound s b → explored destination None b → queue b = [] →
  ∀ n v, walk_to s n v → settled b v.
Proof.
  intros Hwf Hs He Hq.
  assert (∀ v, v ∉ open_set b) as Ho.
  { intros v. rewrite (wf_open _ Hwf), Hq. apply not_elem_of_nil. }
  induction 1 as [|n v u _ IH Hu].
  - split; [|done]. exists 0%Z. exact (sound_start _ _ Hs).
  - split; [|done]. by apply (He v IH).
Qed.

Lemma search_bk_false key s d fuel :
  ∀ b b', wf_bk b → sound s b → explored (Some d) None b →
  search_bk key (Some d) fuel b = (Some (Returned false), b') →
  ∀ n, ¬ walk_to s n d.
Proof.
  induction fuel as [|fuel IH]; intros b b' Hwf Hs He; [done|]. simpl.
  pose proof (iter_bk_wf key (Some d) b Hwf) as Hwf1.
  pose proof (iter_bk_sound key s (Some d) b Hwf Hs) as Hs1.
  destruct (iter_bk key (Some d) b) as [b1|o b1|b1] eqn:Hi; simpl in Hwf1, Hs1;
    [| |done].
  - apply (IH b1 b' Hwf1 Hs1). exact (iter_bk_explored key (Some d) b b1 Hwf He Hi).
  - intros [= -> ->] n Hw. unfold iter_bk in Hi.
    destruct (queue_get (queue b)) as [[e q']|] eqn:Hq.
    + unfold body_bk in Hi. repeat case_decide; try done. by destruct (for_each _ _ _).
    + apply queue_get_None in Hq.
      destruct (exhausted_settled s (Some d) b Hwf Hs He Hq n d Hw) as [Hd Hdo].
      by destruct (He d (conj Hd Hdo)).
Qed.

Lemma init_explored grid s destination :
  explored destination None
    (mkBk 0 (queue_put [] (Int 0, 0, s)) {[s]} ∅ (<[s := Int 0]> (all_inf grid))).
Proof.
  intros v [[z Hz] Hv] _. simpl in *.
  rewrite lookup_insert in Hz. case_decide as Hs.
  - subst v. by destruct Hv; apply elem_of_singleton.
  - by destruct (all_inf_lookup grid v z).
Qed.

(** ** No neighbour without an entry, no KeyError *)

Lemma relax_bk_dom key current b neighbor v :
  is_Some (g_score b !! v) →
  is_Some (g_score (result_state (relax_bk key current b neighbor)) !! v).
Proof.
  intros Hv.
  destruct (relax_bk_cases key current b neighbor)
    as [[-> _]|[[-> _]|(b' & c & -> & _ & _ & Hg & _)]]; simpl; [done..|].
  rewrite Hg, lookup_insert. by case_decide.
Qed.

Lemma for_each_relax_keeps key current l :
  ∀ b, is_Some (g_score b !! current) →
  (∀ u, u ∈ l → is_Some (g_score b !! u)) →
  ∃ b', for_each (relax_bk key current) b l = Ok b'.
Proof.
  induction l as [|x l IH]; intros b Hc Hl; [by eexists|].
  destruct (relax_bk_cases key current b x)
    as [[_ [Hn|Hn]]|Hok].
  - rewrite Hn in Hc. by destruct Hc.
  - destruct (Hl x) as [? Hx]; [left|]. congruence.
  - assert (∃ b1, relax_bk key current b x = Ok b1) as [b1 Hr].
    { destruct Hok as [[-> _]|(b1 & c & -> & _)]; eauto. }
    rewrite (for_each_cons_Ok _ _ _ _ _ Hr).
    apply IH.
    + pose proof (relax_bk_dom key current b x current Hc) as H'. by rewrite Hr in H'.
    + intros u Hu. pose proof (relax_bk_dom key current b x u) as H'.
      rewrite Hr in H'. apply H', Hl. by right.
Qed.

Lemma known_same b b' : g_score b' = g_score b → known b → known b'.
Proof. intros Hg Hk v u Hu. rewrite Hg. by eapply Hk. Qed.

Lemma iter_bk_known key destination b :
  wf_bk b → known b →
  known (step_state (iter_bk key destination b))
  ∧ ∀ x b', iter_bk key destination b ≠ Stop (Raised x) b'.
Proof.
  intros Hwf Hk. unfold iter_bk.
  destruct (queue_get (queue b)) as [[e q']|] eqn:Hq; [|done].
  destruct (wf_bk_pop _ _ _ Hwf Hq) as (Hin & [z Hz] & Hwf').
  unfold body_bk. rewrite decide_True by done.
  case_decide as Hd; [done|].
  set (b0 := mkBk (count b) q' (open_set b ∖ {[entry_vertex e]})
                  (came_from b) (g_score b)).
  destruct (for_each_relax_keeps key (entry_vertex e) (neighbors (entry_vertex e)) b0)
    as [b1 Hf]; [by simpl; rewrite Hz|by intros u Hu; apply (Hk (entry_vertex e))|].
  pose proof (for_each_inv known (relax_bk key (entry_vertex e))
                (neighbors (entry_vertex e)) b0) as Hinv.
  rewrite Hf in *. split; [|done]. apply Hinv; [|done].
  intros b2 x _ Hk2 v u Hu. by apply relax_bk_dom, (Hk2 v).
Qed.

Lemma search_bk_known key destination fuel :
  ∀ b, wf_bk b → known b →
  ∀ x b', search_bk key destination fuel b ≠ (Some (Raised x), b').
Proof.
  induction fuel as [|fuel IH]; intros b Hwf Hk x b'; [done|]. simpl.
  pose proof (iter_bk_wf key destination b Hwf) as Hwf1.
  destruct (iter_bk_known key destination b Hwf Hk) as [Hk1 Hn].
  destruct (iter_bk key destination b) as [b1|o b1|b1] eqn:Hi; simpl in *;
    [by apply IH| |done].
  intros [= -> ->]. by destruct (Hn x b').
Qed.

Lemma init_known grid s :
  (∀ v u, u ∈ neighbors v → u ∈ concat grid) →
  known (mkBk 0 (queue_put [] (Int 0, 0, s)) {[s]} ∅ (<[s := Int 0]> (all_inf grid))).
Proof.
  intros Hg v u Hu. simpl. rewrite lookup_insert. case_decide; [done|].
  rewrite (all_inf_Some grid u); [done|]. by eapply Hg.
Qed.

(** The bookkeeping of a search on a graph whose neighbour lists stay on the
    grid ends by telling whether the destination can be reached. *)
Lemma search_bk_decides key grid s d :
  (∀ v u, u ∈ neighbors v → u ∈ concat grid) →
  let b0 := mkBk 0 (queue_put [] (Int 0, 0, s)) {[s]} ∅
                 (<[s := Int 0]> (all_inf grid)) in
  ∃ fuel r b', search_bk key (Some d) fuel b0 = (Some (Returned r), b')
               ∧ (r = true ↔ ∃ n, walk_to s n d).
Proof.
  intros Hg b0.
  destruct (bk_terminates key (Some d) b0 (init_wf grid s)) as (fuel & o & b' & Hb).
  destruct o as [[|]|x].
  - exists fuel, true, b'. split; [done|]. split; [intros _|done].
    pose proof (search_bk_wf key (Some d) fuel b0 (init_wf grid s)) as Hwf'.
    rewrite Hb in Hwf'. destruct (wf_chain b' d Hwf') as [l Hc].
    exists (length l).
    by apply (found_chain key s d fuel b0 b' l (init_wf grid s) (init_sound grid s) Hb).
  - exists fuel, false, b'. split; [done|]. split; [done|]. intros [n Hn].
    by destruct (search_bk_false key s d fuel b0 b' (init_wf grid s)
                   (init_sound grid s) (init_explored grid s (Some d)) Hb n).
  - by destruct (search_bk_known key (Some d) fuel b0 (init_wf grid s)
                   (init_known grid s Hg) x b').
Qed.

Lemma dijkstra_loop_of_bk fuel s d st r b' :
  wf_bk st.2 →
  search_bk dijkstra_key (Some d) fuel st.2 = (Some (Returned r), b') →
  ∃ n w', dijkstra_loop n s (Some d) st = (Some (Returned r), (w', b')).
Proof.
  intros Hwf Hb. destruct r.
  - pose proof (search_bk_wf dijkstra_key (Some d) fuel st.2 Hwf) as Hwf'.
    rewrite Hb in Hwf'. destruct (wf_chain b' d Hwf') as [l Hc].
    destruct (dijkstra_loop_found s d l (length l) fuel st b' Hb Hc (le_n _))
      as (w' & Hw' & _).
    eauto.
  - destruct (dijkstra_loop_bk fuel s (Some d) st) as [Heq [Ho|[_ Ho]]].
    + rewrite Hb in Heq, Ho. simpl in Heq, Ho.
      destruct (dijkstra_loop fuel s (Some d) st) as [o' [w' b1]] eqn:Hl.
      simpl in *. subst. eauto.
    + rewrite Hb in Ho. simpl in Ho. congruence.
Qed.

Lemma a_star_loop_of_bk fuel s d st r b' :
  wf_bk st.1.2 →
  search_bk (a_star_key d) (Some d) fuel st.1.2 = (Some (Returned r), b') →
  ∃ n w' f', a_star_loop n s d st = (Some (Returned r), (w', b', f')).
Proof.
  intros Hwf Hb. destruct r.
  - pose proof (search_bk_wf (a_star_key d) (Some d) fuel st.1.2 Hwf) as Hwf'.
    rewrite Hb in Hwf'. destruct (wf_chain b' d Hwf') as [l Hc].
    destruct (a_star_loop_found s d l (length l) fuel st b' Hb Hc (le_n _))
      as (w' & f' & Hw' & _).
    eauto.
  - destruct (a_star_loop_bk fuel s d st) as [Heq [Ho|[_ Ho]]].
    + rewrite Hb in Heq, Ho. simpl in Heq, Ho.
      destruct (a_star_loop fuel s d st) as [o' [[w' b1] f']] eqn:Hl.
      simpl in *. subst. eauto.
    + rewrite Hb in Ho. simpl in Ho. congruence.
Qed.

(** X2.  When all neighbour lists stay on the grid and no QUIT event arrives,
    either search ends without raising, and both return the same: True when
    some walk along neighbour lists leads from the start to the destination,
    False when none does. *)
Theorem search_decides_reachability (grid : list (list Vertex)) (s d : Vertex)
    (w : World) :
  (∀ v u, u ∈ neighbors v → u ∈ concat grid) →
  quit_free events_at →
  ∃ fuel r wd wa,
    dijkstra fuel (mkPathfinder grid (Some s) (Some d)) w = (Some (Returned r), wd)
    ∧ a_star_search fuel (mkPathfinder grid (Some s) (Some d)) w
      = (Some (Returned r), wa)
    ∧ (r = true ↔ ∃ n, walk_to s n d).
Proof.
  intros Hg _.
  destruct (search_bk_decides dijkstra_key grid s d Hg) as (f1 & r1 & b1 & Hb1 & Hr1).
  destruct (search_bk_decides (a_star_key d) grid s d Hg) as (f2 & r2 & b2 & Hb2 & Hr2).
  assert (r2 = r1) as ->.
  { destruct r1, r2; try done; [by apply Hr2, Hr1|symmetry; by apply Hr1, Hr2]. }
  destruct (dijkstra_loop_of_bk f1 s d (w, dijkstra_init grid s) r1 b1
              (init_wf grid s) Hb1) as (n1 & wd & Hd).
  destruct (a_star_loop_of_bk f2 s d
              (w, (a_star_init grid s d).1, (a_star_init grid s d).2) r1 b2
              (init_wf grid s) Hb2) as (n2 & wa & fa & Ha).
  exists (n1 + n2), r1, wd, wa. split_and!; [| |done].
  - unfold dijkstra. simpl.
    by rewrite (dijkstra_loop_mono n2 _ _ _ _ _ _ Hd).
  - unfold a_star_search. simpl in *. rewrite Nat.add_comm.
    by rewrite (a_star_loop_mono n1 _ _ _ _ _ _ Ha).
Qed.

(** ** Dijkstra finds a shortest path *)

(** What the bookkeeping of [dijkstra] satisfies between two turns, all steps
    costing one: the priority of a tuple is the cost of its vertex; no finite
    cost is more than one above a priority on the queue; the neighbours of a
    settled vertex cost at most one more than it; and a vertex costs exactly
    one more than its predecessor. *)
Record level (b : Bk) : Prop := {
  lvl_key : ∀ e, e ∈ queue b → g_score b !! entry_vertex e = Some (entry_key e);
  lvl_near : ∀ v z e k, g_score b !! v = Some (Int z) → e ∈ queue b →
    entry_key e = Int k → (z ≤ k + 1)%Z;
  lvl_next : ∀ v u z, settled b v → g_score b !! v = Some (Int z) →
    u ∈ neighbors v → ∃ y, g_score b !! u = Some (Int y) ∧ (y ≤ z + 1)%Z;
  lvl_pred : ∀ v u, came_from b !! v = Some u →
    ∃ z, g_score b !! u = Some (Int z) ∧ g_score b !! v = Some (Int (z + 1))
}.

(** The same while the neighbours of [cur], taken off at cost [m], are
    relaxed. *)
Record level_mid (cur : Vertex) (m : Z) (b : Bk) : Prop := {
  lm_cur : g_score b !! cur = Some (Int m);
  lm_cur_off : cur ∉ open_set b;
  lm_key : ∀ e, e ∈ queue b → g_score b !! entry_vertex e = Some (entry_key e);
  lm_above : ∀ e k, e ∈ queue b → entry_key e = Int k → (m ≤ k)%Z;
  lm_near : ∀ v z, g_score b !! v = Some (Int z) → (z ≤ m + 1)%Z;
  lm_next : ∀ v u z, settled b v → v ≠ cur → g_score b !! v = Some (Int z) →
    u ∈ neighbors v → ∃ y, g_score b !! u = Some (Int y) ∧ (y ≤ z + 1)%Z;
  lm_pred : ∀ v u, came_from b !! v = Some u →
    ∃ z, g_score b !! u = Some (Int z) ∧ g_score b !! v = Some (Int (z + 1))
}.

(** In [dijkstra] a relaxation changes the cost of a vertex only from
    infinity, and such a vertex is not on the queue. *)
Lemma level_mid_relax cur m b neighbor :
  wf_bk b → level_mid cur m b →
  relax_bk dijkstra_key cur b neighbor = Ok b
  ∨ relax_bk dijkstra_key cur b neighbor = Raise KeyError b
  ∨ ∃ b', relax_bk dijkstra_key cur b neighbor = Ok b'
          ∧ g_score b !! neighbor = Some Inf
          ∧ (neighbor ∉ open_set b)
          ∧ g_score b' = <[neighbor := Int (m + 1)]> (g_score b)
          ∧ came_from b' = <[neighbor := cur]> (came_from b)
          ∧ open_set b' = {[neighbor]} ∪ open_set b
          ∧ queue b' = (Int (m + 1), S (count b), neighbor) :: queue b.
Proof.
  intros Hwf Hm.
  destruct (relax_bk_cases dijkstra_key cur b neighbor)
    as [[-> _]|[[-> _]|(b' & c & -> & Hc & Hn & Hg & Hcf & Ho)]]; [auto..|].
  right; right. rewrite (lm_cur _ _ _ Hm) in Hc. injection Hc as <-.
  destruct Hn as [Hn|(y & Hy & Hlt)].
  2:{ pose proof (lm_near _ _ _ Hm _ _ Hy). lia. }
  assert (neighbor ∉ open_set b) as Hno.
  { rewrite (wf_open _ Hwf). intros (e & -> & He)%list_elem_of_fmap.
    destruct (wf_queue_finite _ Hwf e He) as [z Hz]. congruence. }
  destruct Ho as [[? _]|(_ & Ho & Hq & _)]; [done|].
  exists b'. split_and!; done.
Qed.

Lemma relax_bk_level_mid cur m b neighbor :
  wf_bk b → level_mid cur m b →
  level_mid cur m (result_state (relax_bk dijkstra_key cur b neighbor)).
Proof.
  intros Hwf Hm.
  destruct (level_mid_relax cur m b neighbor Hwf Hm)
    as [->|[->|(b' & -> & Hn & Hno & Hg & Hcf & Ho & Hq)]]; [done..|]. simpl.
  assert (∀ v z, g_score b !! v = Some (Int z) → v ≠ neighbor) as Hfin.
  { intros v z Hv ->. congruence. }
  assert (∀ v z, g_score b !! v = Some (Int z) → g_score b' !! v = Some (Int z))
    as Hkeep.
  { intros v z Hv. rewrite Hg, lookup_insert_ne; [done|].
    intros Heq. by apply (Hfin v z Hv). }
  constructor.
  - apply Hkeep, (lm_cur _ _ _ Hm).
  - rewrite Ho, elem_of_union, elem_of_singleton. intros [->|Hin].
    + by apply (Hfin neighbor m (lm_cur _ _ _ Hm)).
    + by apply (lm_cur_off _ _ _ Hm).
  - intros e. rewrite Hq. intros [->|He]%elem_of_cons.
    + by rewrite Hg, lookup_insert_eq.
    + destruct (wf_queue_finite _ Hwf e He) as [z Hz].
      rewrite <- (lm_key _ _ _ Hm e He), Hz. by apply Hkeep.
  - intros e k. rewrite Hq. intros [->|He]%elem_of_cons.
    + unfold entry_key. simpl. intros [= <-]. lia.
    + by apply (lm_above _ _ _ Hm).
  - intros v z. rewrite Hg, lookup_insert. case_decide.
    + intros [= <-]. lia.
    + apply (lm_near _ _ _ Hm).
  - intros v u z [[z' Hz'] Hvo] Hne Hz Hu.
    rewrite Ho, elem_of_union, elem_of_singleton in Hvo.
    assert (v ≠ neighbor) as Hvn by (intros ->; tauto).
    rewrite Hg, lookup_insert_ne in Hz by done.
    destruct (lm_next _ _ _ Hm v u z) as (y & Hy & Hle); try done.
    { split; [by exists z|tauto]. }
    exists y. split; [by apply Hkeep|done].
  - intros v u. rewrite Hcf, lookup_insert. case_decide as Hv.
    + intros [= <-]. subst v. exists m. split; [apply Hkeep, (lm_cur _ _ _ Hm)|].
      by rewrite Hg, lookup_insert_eq.
    + intros Hvu. destruct (lm_pred _ _ _ Hm v u Hvu) as (z & Hu & Hz).
      exists z. split; by apply Hkeep.
Qed.

Lemma level_pop b e queue' :
  wf_bk b → level b → queue_get (queue b) = Some (e, queue') →
  ∃ m, entry_key e = Int m
       ∧ level_mid (entry_vertex e) m
           (mkBk (count b) queue' (open_set b ∖ {[entry_vertex e]})
                 (came_from b) (g_score b)).
Proof.
  intros Hwf Hl Hq.
  destruct (wf_bk_pop _ _ _ Hwf Hq) as (Hin & [m Hm] & Hwf').
  pose proof (queue_get_perm _ _ _ Hq) as Hp.
  assert (e ∈ queue b) as He by (rewrite Hp; left).
  assert (∀ x, x ∈ queue' → x ∈ queue b) as Hsub by (intros x Hx; rewrite Hp; by right).
  pose proof (lvl_key _ Hl e He) as Hk. rewrite Hm in Hk. injection Hk as Hk.
  exists m. split; [done|]. constructor; simpl.
  - done.
  - rewrite elem_of_difference, elem_of_singleton. tauto.
  - intros x Hx. by apply (lvl_key _ Hl), Hsub.
  - intros x k Hx Hxk.
    pose proof (queue_get_least _ _ _ Hq x Hx) as Hlt.
    destruct (decide (m ≤ k)%Z) as [|Hn]; [done|].
    assert (entry_ltb x e = true) as Habs; [|congruence].
    apply entry_ltb_spec. rewrite Hxk, <- Hk. lia.
  - intros v z Hz. by apply (lvl_near _ Hl v z e m).
  - intros v u z [Hv Hvo] Hne Hz Hu. apply (lvl_next _ Hl v u z); try done.
    split; [done|]. simpl in Hvo.
    rewrite elem_of_difference, elem_of_singleton in Hvo. tauto.
  - apply (lvl_pred _ Hl).
Qed.

Lemma level_mid_finish cur m b :
  level_mid cur m b → (∀ u, u ∈ neighbors cur → discovered b u) → level b.
Proof.
  intros Hm Hd. constructor.
  - apply (lm_key _ _ _ Hm).
  - intros v z e k Hz He Hk.
    pose proof (lm_near _ _ _ Hm v z Hz). pose proof (lm_above _ _ _ Hm e k He Hk). lia.
  - intros v u z Hv Hz Hu. destruct (decide (v = cur)) as [->|Hne].
    + destruct (Hd u Hu) as [y Hy]. exists y. split; [done|].
      pose proof (lm_near _ _ _ Hm u y Hy) as Hle.
      pose proof (lm_cur _ _ _ Hm) as Hc. rewrite Hz in Hc. injection Hc as ->. done.
    + by apply (lm_next _ _ _ Hm v u z).
  - apply (lm_pred _ _ _ Hm).
Qed.

Lemma iter_bk_level destination b b' :
  wf_bk b → level b → iter_bk dijkstra_key destination b = Continue b' → level b'.
Proof.
  intros Hwf Hl. unfold iter_bk.
  destruct (queue_get (queue b)) as [[e q']|] eqn:Hq; [|done].
  destruct (wf_bk_pop _ _ _ Hwf Hq) as (Hin & Hfin & Hwf').
  destruct (level_pop b e q' Hwf Hl Hq) as (m & Hk & Hm).
  unfold body_bk. rewrite decide_True by done.
  case_decide as Hd; [done|].
  set (b0 := mkBk (count b) q' (open_set b ∖ {[entry_vertex e]})
                  (came_from b) (g_score b)) in *.
  assert (wf_bk (result_state (for_each (relax_bk dijkstra_key (entry_vertex e)) b0
                                 (neighbors (entry_vertex e))))
          ∧ level_mid (entry_vertex e) m
              (result_state (for_each (relax_bk dijkstra_key (entry_vertex e)) b0
                               (neighbors (entry_vertex e))))) as [_ Hm1].
  { apply (for_each_inv (λ b, wf_bk b ∧ level_mid (entry_vertex e) m b)); [|done].
    intros b1 x _ [Hwf1 Hm1].
    split; [by apply relax_bk_wf|by apply relax_bk_level_mid]. }
  destruct (for_each _ b0 _) as [b1|x b1] eqn:Hf; [|done].
  intros [= <-]. simpl in Hm1.
  apply (level_mid_finish _ _ _ Hm1).
  exact (for_each_relax_discovered dijkstra_key (entry_vertex e) _ b0 b1 Hfin Hf).
Qed.

Lemma init_level grid s :
  level (mkBk 0 (queue_put [] (Int 0, 0, s)) {[s]} ∅ (<[s := Int 0]> (all_inf grid))).
Proof.
  assert (∀ v z, <[s := Int 0]> (all_inf grid) !! v = Some (Int z) → v = s ∧ z = 0%Z)
    as Hfin.
  { intros v z. rewrite lookup_insert. case_decide; [by intros [= <-]|].
    intros ?. by destruct (all_inf_lookup grid v z). }
  unfold queue_put. constructor; simpl.
  - intros e ->%list_elem_of_singleton. by rewrite lookup_insert_eq.
  - intros v z e k Hz ->%list_elem_of_singleton. unfold entry_key. simpl.
    intros [= <-]. apply Hfin in Hz. lia.
  - intros v u z [[z' Hz'] Hv]. apply Hfin in Hz' as [-> _]. simpl in Hv.
    rewrite elem_of_singleton in Hv. done.
  - intros v u. by rewrite lookup_empty.
Qed.

(** A walk of [n] steps from the start ends at a vertex of cost at most [n],
    unless a tuple of priority at most [n] is still on the queue. *)
Lemma level_walk s b :
  wf_bk b → sound s b → level b →
  ∀ n v, walk_to s n v →
    (∃ z, g_score b !! v = Some (Int z) ∧ (z ≤ Z.of_nat n)%Z)
    ∨ (∃ e k, e ∈ queue b ∧ entry_key e = Int k ∧ (k ≤ Z.of_nat n)%Z).
Proof.
  intros Hwf Hs Hl. induction 1 as [|n v u _ IH Hu].
  - left. exists 0%Z. split; [exact (sound_start _ _ Hs)|lia].
  - destruct IH as [(z & Hz & Hle)|(e & k & He & Hk & Hle)].
    2:{ right. exists e, k. split_and!; [done..|lia]. }
    destruct (decide (v ∈ open_set b)) as [Hin|Hout].
    + right. apply (wf_open _ Hwf) in Hin as (e & -> & He)%list_elem_of_fmap.
      exists e, z. split_and!; [done| |lia].
      pose proof (lvl_key _ Hl e He) as Hk. congruence.
    + left. destruct (lvl_next _ Hl v u z) as (y & Hy & Hle'); try done.
      { split; [by exists z|done]. }
      exists y. split; [done|lia].
Qed.

Lemma search_bk_shortest s d fuel :
  ∀ b b', wf_bk b → sound s b → level b →
  search_bk dijkstra_key (Some d) fuel b = (Some (Returned true), b') →
  ∃ m, g_score b' !! d = Some (Int m)
       ∧ (∀ n, walk_to s n d → (m ≤ Z.of_nat n)%Z)
       ∧ ∀ v u, came_from b' !! v = Some u →
           ∃ z, g_score b' !! u = Some (Int z) ∧ g_score b' !! v = Some (Int (z + 1)).
Proof.
  induction fuel as [|fuel IH]; intros b b' Hwf Hs Hl; [done|]. simpl.
  pose proof (iter_bk_wf dijkstra_key (Some d) b Hwf) as Hwf1.
  pose proof (iter_bk_sound dijkstra_key s (Some d) b Hwf Hs) as Hs1.
  destruct (iter_bk dijkstra_key (Some d) b) as [b1|o b1|b1] eqn:Hi;
    simpl in Hwf1, Hs1; [| |done].
  - apply (IH b1 b' Hwf1 Hs1). exact (iter_bk_level (Some d) b b1 Hwf Hl Hi).
  - intros [= -> ->]. unfold iter_bk in Hi.
    destruct (queue_get (queue b)) as [[e q']|] eqn:Hq; [|done].
    destruct (wf_bk_pop _ _ _ Hwf Hq) as (Hin & _ & _).
    destruct (level_pop b e q' Hwf Hl Hq) as (m & Hk & Hm).
    unfold body_bk in Hi. rewrite decide_True in Hi by done.
    case_decide as Hd; [|by destruct (for_each _ _ _)].
    injection Hi as <-. injection Hd as Hd. simpl.
    exists m. split_and!.
    + rewrite <- Hd. exact (lm_cur _ _ _ Hm).
    + intros n Hw.
      destruct (level_walk s b Hwf Hs Hl n d Hw) as [(z & Hz & Hle)|(x & k & Hx & Hxk & Hle)].
      * pose proof (lm_cur _ _ _ Hm) as Hc. simpl in Hc. rewrite Hd, Hz in Hc.
        injection Hc as ->. done.
      * rewrite (queue_get_perm _ _ _ Hq) in Hx.
        apply elem_of_cons in Hx as [->|Hx]; [rewrite Hk in Hxk; injection Hxk as ->; lia|].
        pose proof (lm_above _ _ _ Hm x k Hx Hxk). lia.
    + exact (lvl_pred _ Hl).
Qed.

Lemma chain_length s b :
  sound s b →
  (∀ v u, came_from b !! v = Some u →
     ∃ z, g_score b !! u = Some (Int z) ∧ g_score b !! v = Some (Int (z + 1))) →
  ∀ l v z, g_score b !! v = Some (Int z) → is_chain (came_from b) v l →
  Z.of_nat (length l) = z.
Proof.
  intros Hs Hp. induction l as [|u l IH]; intros v z Hz Hc.
  - simpl in *. destruct (decide (v = s)) as [->|Hne].
    + rewrite (sound_start _ _ Hs) in Hz. by injection Hz as <-.
    + destruct (sound_pred _ _ Hs v z Hne Hz) as [x Hx]. congruence.
  - destruct Hc as [Hu Hc]. destruct (Hp v u Hu) as (z' & Hz' & Hv).
    rewrite Hz in Hv. injection Hv as ->.
    rewrite <- (IH u z' Hz' Hc). simpl. lia.
Qed.

Lemma dijkstra_loop_shortest grid fuel s d w w' b' :
  dijkstra_loop fuel s (Some d) (w, dijkstra_init grid s)
  = (Some (Returned true), (w', b')) →
  ∃ l, path_marks w' = path_marks w ++ l
       ∧ walk_to s (length l) d
       ∧ ∀ n, walk_to s n d → length l ≤ n.
Proof.
  intros Hl.
  destruct (dijkstra_loop_true fuel s d (w, dijkstra_init grid s) _ _
              (init_wf grid s) Hl) as (Hb & l & Hc & Hp).
  exists l. split; [done|].
  destruct (found_chain _ s d fuel (dijkstra_init grid s) _ l
              (init_wf grid s) (init_sound grid s) Hb Hc) as (_ & _ & _ & Hw).
  split; [done|].
  destruct (search_bk_shortest s d fuel (dijkstra_init grid s) b'
              (init_wf grid s) (init_sound grid s) (init_level grid s) Hb)
    as (m & Hm & Hmin & Hpred).
  pose proof (search_bk_sound dijkstra_key s (Some d) fuel
                (w, dijkstra_init grid s).2 (init_wf grid s) (init_sound grid s)) as Hs'.
  rewrite Hb in Hs'. simpl in Hs'.
  pose proof (chain_length s b' Hs' Hpred l d m Hm Hc) as Hlen.
  intros n Hn. specialize (Hmin n Hn). lia.
Qed.

(** X3.  Whatever the neighbour lists, a run of [dijkstra] that returns True has
    marked a shortest path: as many vertices as the path has steps, and no
    walk from the start to the destination has fewer. *)
Theorem dijkstra_path_shortest (grid : list (list Vertex)) (fuel : nat)
    (s d : Vertex) (w w' : World) :
  dijkstra fuel (mkPathfinder grid (Some s) (Some d)) w = (Some (Returned true), w') →
  ∃ l, path_marks w' = path_marks w ++ l
       ∧ walk_to s (length l) d
       ∧ ∀ n, walk_to s n d → length l ≤ n.
Proof.
  intros H. unfold dijkstra in H. simpl in H.
  destruct (dijkstra_loop fuel s (Some d) (w, dijkstra_init grid s))
    as [o [w1 b1]] eqn:Hl.
  injection H as -> ->. by eapply dijkstra_loop_shortest.
Qed.

(** ** Dijkstra takes no vertex off the queue twice *)

Lemma relax_bk_level_settled cur m b neighbor v :
  wf_bk b → level_mid cur m b → settled b v →
  settled (result_state (relax_bk dijkstra_key cur b neighbor)) v.
Proof.
  intros Hwf Hm [[z Hz] Hv].
  destruct (level_mid_relax cur m b neighbor Hwf Hm)
    as [->|[->|(b' & -> & Hn & Hno & Hg & Hcf & Ho & Hq)]]; [by split; [exists z|]..|].
  simpl. assert (v ≠ neighbor) as Hne by (intros ->; congruence). split.
  - exists z. by rewrite Hg, lookup_insert_ne.
  - rewrite Ho, elem_of_union, elem_of_singleton. tauto.
Qed.

(** A turn of [dijkstra] that goes on settles the vertex it took off, and
    leaves settled what was. *)
Lemma iter_bk_settles destination b b' e queue' :
  wf_bk b → level b → queue_get (queue b) = Some (e, queue') →
  iter_bk dijkstra_key destination b = Continue b' →
  settled b' (entry_vertex e) ∧ ∀ v, settled b v → settled b' v.
Proof.
  intros Hwf Hl Hq. unfold iter_bk. rewrite Hq.
  destruct (wf_bk_pop _ _ _ Hwf Hq) as (Hin & Hfin & Hwf').
  destruct (level_pop b e queue' Hwf Hl Hq) as (m & Hk & Hm).
  unfold body_bk. rewrite decide_True by done.
  case_decide as Hd; [done|].
  set (b0 := mkBk (count b) queue' (open_set b ∖ {[entry_vertex e]})
                  (came_from b) (g_score b)) in *.
  assert (∀ v, settled b0 v →
            settled (result_state (for_each (relax_bk dijkstra_key (entry_vertex e)) b0
                                     (neighbors (entry_vertex e)))) v) as Hkeep.
  { intros v Hv.
    apply (for_each_inv (λ b, wf_bk b ∧ level_mid (entry_vertex e) m b ∧ settled b v)
             (relax_bk dijkstra_key (entry_vertex e))); [|done].
    intros b1 x _ (Hwf1 & Hm1 & Hv1).
    split_and!; [by apply relax_bk_wf|by apply relax_bk_level_mid|
                  by eapply relax_bk_level_settled]. }
  destruct (for_each _ b0 _) as [b1|x b1] eqn:Hf; [|done].
  intros [= <-]. simpl in Hkeep. split.
  - apply Hkeep. split; [done|]. exact (lm_cur_off _ _ _ Hm).
  - intros v [Hv Hvo]. apply Hkeep. split; [done|]. simpl.
    rewrite elem_of_difference. tauto.
Qed.

Lemma body_bk_discovered key destination e queue' b v :
  discovered b v → discovered (step_state (body_bk key destination e queue' b)) v.
Proof.
  intros Hv. unfold body_bk. case_decide; [|done]. case_decide; [done|].
  match goal with |- context [for_each ?f ?s ?l] =>
    assert (discovered (result_state (for_each f s l)) v) as H'
  end.
  { apply (for_each_inv (λ b, discovered b v)); [|done].
    intros ???. apply relax_bk_discovered. }
  by destruct (for_each _ _ _).
Qed.

(** The cost map has entries for the start and for the vertices of the grid,
    and for nothing else. *)
Definition on_grid (grid : list (list Vertex)) (s : Vertex) (b : Bk) : Prop :=
  ∀ v, is_Some (g_score b !! v) → v = s ∨ v ∈ concat grid.

Lemma all_inf_dom grid v : is_Some (all_inf grid !! v) → v ∈ concat grid.
Proof.
  unfold all_inf. induction (concat grid) as [|x l IH]; simpl.
  - rewrite lookup_empty. by intros [? ?].
  - rewrite lookup_insert. case_decide; [subst; left|right; auto].
Qed.

Lemma init_on_grid grid s :
  on_grid grid s
    (mkBk 0 (queue_put [] (Int 0, 0, s)) {[s]} ∅ (<[s := Int 0]> (all_inf grid))).
Proof.
  intros v. simpl. rewrite lookup_insert. case_decide; [by left|].
  right. by apply all_inf_dom.
Qed.

Lemma relax_bk_on_grid key grid s current b neighbor :
  on_grid grid s b → on_grid grid s (result_state (relax_bk key current b neighbor)).
Proof.
  intros Hg.
  destruct (relax_bk_cases key current b neighbor)
    as [[-> _]|[[-> _]|(b' & c & -> & _ & Hn & Hg' & _)]]; simpl; [done..|].
  intros v. rewrite Hg', lookup_insert. case_decide as Hv; [|apply Hg].
  intros _. subst v. apply Hg. destruct Hn as [->|(y & -> & _)]; done.
Qed.

Lemma body_bk_on_grid key grid s destination e queue' b :
  on_grid grid s b → on_grid grid s (step_state (body_bk key destination e queue' b)).
Proof.
  intros Hg. unfold body_bk. case_decide; [|done]. case_decide; [done|].
  match goal with |- context [for_each ?f0 ?s0 ?l0] =>
    assert (on_grid grid s (result_state (for_each f0 s0 l0))) as H'
  end.
  { apply (for_each_inv (on_grid grid s)); [|done].
    intros ???. apply relax_bk_on_grid. }
  by destruct (for_each _ _ _).
Qed.

Lemma dijkstra_loop_once grid s destination fuel :
  ∀ st seen, wf_bk st.2 → level st.2 → on_grid grid s st.2 → NoDup seen →
  (∀ v, v ∈ seen → settled st.2 v) →
  ∃ ps, pops (dijkstra_loop fuel s destination st).2.1 = pops st.1 ++ ps
        ∧ NoDup (seen ++ ps)
        ∧ ∀ v, v ∈ seen ++ ps → v = s ∨ v ∈ concat grid.
Proof.
  induction fuel as [|fuel IH]; intros st seen Hwf Hl Hg Hnd Hseen.
  { exists []. rewrite !app_nil_r. split_and!; [done..|].
    intros v Hv. apply Hg. destruct (Hseen v Hv) as [[z Hz] _]. by rewrite Hz. }
  simpl. unfold dijkstra_iter.
  destruct (queue_get (queue st.2)) as [[e q']|] eqn:Hq.
  2:{ exists []. rewrite !app_nil_r. split_and!; [done..|].
      intros v Hv. apply Hg. destruct (Hseen v Hv) as [[z Hz] _]. by rewrite Hz. }
  destruct (wf_bk_pop _ _ _ Hwf Hq) as (Hin & [z Hz] & _).
  pose proof (dijkstra_body_pops fuel s destination e q' st) as Hp.
  pose proof (dijkstra_body_bk fuel s destination e q' st) as Hbk.
  pose proof (body_bk_wf dijkstra_key destination e q' st.2 Hwf Hq) as Hwf1.
  pose proof (body_bk_on_grid dijkstra_key grid s destination e q' st.2 Hg) as Hg1.
  assert (entry_vertex e ∉ seen) as Hnew.
  { intros Hs. by destruct (Hseen _ Hs) as [_ Hno]. }
  assert (NoDup (seen ++ [entry_vertex e])) as Hnd1.
  { apply NoDup_app. split_and!; [done| |apply NoDup_singleton].
    intros v Hv ->%list_elem_of_singleton. done. }
  assert (∀ v, v ∈ seen ++ [entry_vertex e] → v = s ∨ v ∈ concat grid) as Hin1.
  { intros v [Hv| ->%list_elem_of_singleton]%elem_of_app; apply Hg.
    - destruct (Hseen v Hv) as [[z' Hz'] _]. by rewrite Hz'.
    - by rewrite Hz. }
  destruct (dijkstra_body fuel s destination e q' st) as [st1|o st1|st1] eqn:Hb;
    simpl in Hp, Hbk.
  - rewrite <- Hbk in Hwf1, Hg1. simpl in Hwf1, Hg1.
    assert (iter_bk dijkstra_key destination st.2 = Continue st1.2) as Hi.
    { unfold iter_bk. by rewrite Hq. }
    destruct (iter_bk_settles destination st.2 st1.2 e q' Hwf Hl Hq Hi) as [Hcur Hkeep].
    destruct (IH st1 (seen ++ [entry_vertex e]) Hwf1
                (iter_bk_level destination st.2 st1.2 Hwf Hl Hi) Hg1 Hnd1)
      as (ps & Hps & Hnd2 & Hin2).
    { intros v [Hv| ->%list_elem_of_singleton]%elem_of_app; [by apply Hkeep, Hseen|done]. }
    exists (entry_vertex e :: ps). rewrite Hps, Hp, <- app_assoc. simpl.
    rewrite <- app_assoc in Hnd2, Hin2. done.
  - exists [entry_vertex e]. done.
  - exists [entry_vertex e]. done.
Qed.

(** X4.  However far a run of [dijkstra] gets, it takes no vertex off the queue
    twice, and only the start and vertices of the grid: it makes at most as
    many turns as the grid has vertices, and one more. *)
Theorem dijkstra_pops_once (grid : list (list Vertex)) (fuel : nat) (s : Vertex)
    (destination : option Vertex) (w : World) :
  ∃ ps, pops (dijkstra fuel (mkPathfinder grid (Some s) destination) w).2 = pops w ++ ps
        ∧ NoDup ps
        ∧ (∀ v, v ∈ ps → v = s ∨ v ∈ concat grid)
        ∧ length ps ≤ S (length (concat grid)).
Proof.
  destruct (dijkstra_loop_once grid s destination fuel (w, dijkstra_init grid s) []
              (init_wf grid s) (init_level grid s) (init_on_grid grid s))
    as (ps & Hps & Hnd & Hin); [constructor|by intros v ?%elem_of_nil|].
  simpl in Hps, Hnd, Hin. exists ps. unfold dijkstra. simpl.
  destruct (dijkstra_loop fuel s destination (w, dijkstra_init grid s))
    as [o [w' b']]. simpl in Hps. split_and!; [done..|].
  change (length ps ≤ length (s :: concat grid)).
  apply submseteq_length, NoDup_submseteq; [done|].
  intros v Hv. apply elem_of_cons. by apply Hin.
Qed.

(** ** The states of the vertices after a run *)

(** What an action does to the states of the vertices. *)
Definition apply_mark (m : gmap Vertex VertexState) (a : action)
  : gmap Vertex VertexState :=
  match a with AMark v s => <[v := s]> m | _ => m end.

(** [w'] comes from [w] by actions that are all in the log, and the states in
    [w'] are those of [w] with the markers of these actions written over them,
    in order. *)
Definition tracked (w w' : World) : Prop :=
  ∃ acts, trace w' = trace w ++ acts ∧ vstate w' = foldl apply_mark (vstate w) acts.

Lemma tracked_refl w : tracked w w.
Proof. exists []. by rewrite app_nil_r. Qed.

Lemma tracked_trans w1 w2 w3 : tracked w1 w2 → tracked w2 w3 → tracked w1 w3.
Proof.
  intros (a1 & Ht1 & Hv1) (a2 & Ht2 & Hv2). exists (a1 ++ a2).
  by rewrite Ht2, Ht1, Hv2, Hv1, foldl_app, <- app_assoc.
Qed.

Lemma tracked_set_state v s w : tracked w (set_state v s w).
Proof. by exists [AMark v s]. Qed.

Lemma tracked_draw w : tracked w (draw w).
Proof. by exists [ADraw]. Qed.

Lemma tracked_pop v w : tracked w (record (APop v) w).
Proof. by exists [APop v]. Qed.

Lemma apply_quits m evs : foldl apply_mark m (quits evs) = m.
Proof.
  revert m. induction evs as [|ev evs IH]; intros m; [done|].
  rewrite quits_cons. case_decide; simpl; apply IH.
Qed.

Lemma tracked_poll_events w : tracked w (poll_events w).
Proof.
  exists (APoll :: quits (events_at (polls w))).
  split; [apply trace_poll_events|]. rewrite vstate_poll_events. simpl.
  by rewrite apply_quits.
Qed.

Lemma tracked_reconstruct_path fuel cf v w :
  tracked w (fueled_state (reconstruct_path fuel cf v w)).
Proof.
  revert v w. induction fuel as [|fuel IH]; intros v w; simpl;
    destruct (cf !! v) as [u|]; simpl; try apply tracked_refl.
  eapply tracked_trans; [|apply IH].
  eapply tracked_trans; [apply tracked_set_state|apply tracked_draw].
Qed.

Lemma tracked_for_each {S : Type} (world : S → World) (body : S → Vertex → result S)
    (l : list Vertex) (s : S) :
  (∀ s x, tracked (world s) (world (result_state (body s x)))) →
  tracked (world s) (world (result_state (for_each body s l))).
Proof.
  intros Hb. revert s. induction l as [|x l IH]; intros s; [apply tracked_refl|].
  simpl. specialize (Hb s x) as Hx. destruct (body s x) as [s1|e s1]; simpl in *.
  - eapply tracked_trans; [exact Hx|apply IH].
  - done.
Qed.

Lemma tracked_dijkstra_relax destination current st neighbor :
  tracked st.1 (result_state (dijkstra_relax destination current st neighbor)).1.
Proof.
  destruct st as [w b]. unfold dijkstra_relax.
  destruct (g_score b !! current); [|apply tracked_refl].
  destruct (g_score b !! neighbor); [|apply tracked_refl].
  destruct (num_ltb _ _); [|apply tracked_refl].
  repeat case_decide; simpl; try apply tracked_refl. apply tracked_set_state.
Qed.

Lemma tracked_a_star_relax destination current st neighbor :
  tracked st.1.1 (result_state (a_star_relax destination current st neighbor)).1.1.
Proof.
  destruct st as [[w b] f]. unfold a_star_relax.
  destruct (g_score b !! current); [|apply tracked_refl].
  destruct (g_score b !! neighbor); [|apply tracked_refl].
  destruct (num_ltb _ _); [|apply tracked_refl].
  repeat case_decide; simpl; try apply tracked_refl. apply tracked_set_state.
Qed.

Lemma tracked_dijkstra_body fuel start destination e queue' st :
  tracked st.1 (step_state (dijkstra_body fuel start destination e queue' st)).1.
Proof.
  destruct st as [w b]. unfold dijkstra_body.
  assert (tracked w (record (APop (entry_vertex e)) (poll_events w))) as Hpre.
  { eapply tracked_trans; [apply tracked_poll_events|apply tracked_pop]. }
  case_decide; [|done]. case_decide.
  - pose proof (tracked_reconstruct_path fuel (came_from b) (entry_vertex e)
                  (record (APop (entry_vertex e)) (poll_events w))) as Hr.
    destruct (reconstruct_path _ _ _ _) as [w1|w1]; simpl in *.
    + eapply tracked_trans; [exact Hpre|].
      eapply tracked_trans; [exact Hr|apply tracked_set_state].
    + by eapply tracked_trans.
  - match goal with |- context [for_each ?f0 ?s0 ?l0] =>
      pose proof (tracked_for_each fst f0 l0 s0
                    (λ s x, tracked_dijkstra_relax destination (entry_vertex e) s x))
        as Hf;
      destruct (for_each f0 s0 l0) as [[w1 b1]|x [w1 b1]] end; simpl in *.
    + eapply tracked_trans; [exact Hpre|]. eapply tracked_trans; [exact Hf|].
      case_decide; [apply tracked_draw|].
      eapply tracked_trans; [apply tracked_draw|apply tracked_set_state].
    + by eapply tracked_trans.
Qed.

Lemma tracked_a_star_body fuel start destination e queue' st :
  tracked st.1.1 (step_state (a_star_body fuel start destination e queue' st)).1.1.
Proof.
  destruct st as [[w b] f]. unfold a_star_body.
  assert (tracked w (record (APop (entry_vertex e)) (poll_events w))) as Hpre.
  { eapply tracked_trans; [apply tracked_poll_events|apply tracked_pop]. }
  case_decide; [|done]. case_decide.
  - pose proof (tracked_reconstruct_path fuel (came_from b) (entry_vertex e)
                  (record (APop (entry_vertex e)) (poll_events w))) as Hr.
    destruct (reconstruct_path _ _ _ _) as [w1|w1]; simpl in *.
    + eapply tracked_trans; [exact Hpre|].
      eapply tracked_trans; [exact Hr|apply tracked_set_state].
    + by eapply tracked_trans.
  - match goal with |- context [for_each ?f0 ?s0 ?l0] =>
      pose proof (tracked_for_each (λ x, x.1.1) f0 l0 s0
                    (λ s x, tracked_a_star_relax destination (entry_vertex e) s x))
        as Hf;
      destruct (for_each f0 s0 l0) as [[[w1 b1] f1]|x [[w1 b1] f1]] end; simpl in *.
    + eapply tracked_trans; [exact Hpre|]. eapply tracked_trans; [exact Hf|].
      case_decide; [apply tracked_draw|].
      eapply tracked_trans; [apply tracked_draw|apply tracked_set_state].
    + by eapply tracked_trans.
Qed.

Lemma tracked_dijkstra_loop fuel start destination :
  ∀ st, tracked st.1 (dijkstra_loop fuel start destination st).2.1.
Proof.
  induction fuel as [|fuel IH]; intros st; [apply tracked_refl|]. simpl.
  unfold dijkstra_iter.
  destruct (queue_get (queue st.2)) as [[e q']|]; [|apply tracked_refl].
  pose proof (tracked_dijkstra_body fuel start destination e q' st) as Hb.
  destruct (dijkstra_body _ _ _ _ _ _) as [st1|o st1|st1]; simpl in *; [|done..].
  eapply tracked_trans; [exact Hb|apply IH].
Qed.

Lemma tracked_a_star_loop fuel start destination :
  ∀ st, tracked st.1.1 (a_star_loop fuel start destination st).2.1.1.
Proof.
  induction fuel as [|fuel IH]; intros st; [apply tracked_refl|]. simpl.
  unfold a_star_iter.
  destruct (queue_get (queue st.1.2)) as [[e q']|]; [|apply tracked_refl].
  pose proof (tracked_a_star_body fuel start destination e q' st) as Hb.
  destruct (a_star_body _ _ _ _ _ _) as [st1|o st1|st1]; simpl in *; [|done..].
  eapply tracked_trans; [exact Hb|apply IH].
Qed.

Lemma apply_mark_other m acts v :
  (∀ x, AMark v x ∉ acts) → foldl apply_mark m acts !! v = m !! v.
Proof.
  revert m. induction acts as [|a acts IH]; intros m Hn; [done|]. simpl.
  rewrite IH by (intros x Hx; apply (Hn x); by right).
  destruct a as [| | |u x|]; simpl; try done.
  rewrite lookup_insert_ne; [done|]. intros ->. apply (Hn x). left.
Qed.

(** The vertices a search may write to: the start, and the members of
    neighbour lists. *)
Definition touched (s v : Vertex) : Prop := v = s ∨ ∃ u, v ∈ neighbors u.

Lemma tail_action_touched fuel s destination b current tail :
  wf_bk b → sound s b → current ∈ open_set b →
  Forall (tail_action fuel s destination (came_from b) current) tail →
  ∀ v x, AMark v x ∈ tail → touched s v.
Proof.
  intros Hwf Hs Hin Hf v x Hv.
  assert (∀ u, discovered b u → touched s u) as Hdisc.
  { intros u [z Hz]. destruct (decide (u = s)) as [->|Hne]; [by left|]. right.
    destruct (sound_pred _ _ Hs u z Hne Hz) as [p Hp].
    exists p. by apply (sound_edge _ _ Hs). }
  rewrite Forall_forall in Hf. specialize (Hf _ Hv). simpl in Hf.
  destruct x; try done.
  - by left; destruct Hf.
  - destruct Hf as (_ & _ & Hn). right. by exists current.
  - destruct Hf as (-> & _). apply Hdisc.
    apply (wf_open _ Hwf) in Hin as (e & -> & He)%list_elem_of_fmap.
    exact (wf_queue_finite _ Hwf e He).
  - destruct Hf as [_ Hp]. apply Hdisc.
    destruct (predecessors_below b fuel current v Hwf Hp) as (du & _ & Hdu & _).
    by exists du.
Qed.

Lemma dijkstra_iter_sound fuel s destination st :
  wf_bk st.2 → sound s st.2 →
  sound s (step_state (dijkstra_iter fuel s destination st)).2.
Proof.
  intros Hwf Hs. rewrite <- (step_state_bk snd), dijkstra_iter_bk.
  by apply iter_bk_sound.
Qed.

Lemma a_star_iter_sound fuel s destination st :
  wf_bk st.1.2 → sound s st.1.2 →
  sound s (step_state (a_star_iter fuel s destination st)).1.2.
Proof.
  intros Hwf Hs. rewrite <- (step_state_bk (λ x, x.1.2)), a_star_iter_bk.
  by apply iter_bk_sound.
Qed.

Lemma dijkstra_loop_touched fuel s destination :
  ∀ st, wf_bk st.2 → sound s st.2 →
  ∃ acts, trace (dijkstra_loop fuel s destination st).2.1 = trace st.1 ++ acts
          ∧ ∀ v x, AMark v x ∈ acts → touched s v.
Proof.
  induction fuel as [|fuel IH]; intros st Hwf Hs; simpl.
  { exists []. rewrite app_nil_r. split; [done|]. by intros v x ?%elem_of_nil. }
  pose proof (dijkstra_iter_wf fuel s destination st Hwf) as Hwf'.
  pose proof (dijkstra_iter_sound fuel s destination st Hwf Hs) as Hs'.
  unfold dijkstra_iter in *. destruct (queue_get _) as [[e q']|] eqn:Hq.
  - destruct (wf_bk_pop _ _ _ Hwf Hq) as (Hin & _ & _).
    destruct st as [w b].
    destruct (dijkstra_body_trace fuel s destination e q' w b) as (tail & Ht & Hf).
    assert (∀ v x, AMark v x ∈ APoll :: quits (events_at (polls w))
                              ++ APop (entry_vertex e) :: tail → touched s v) as Hno.
    { intros v x [?|[H'|[?|H']%elem_of_cons]%elem_of_app]%elem_of_cons; try done.
      - by apply quits_not_mark in H'.
      - by apply (tail_action_touched _ _ _ _ _ _ Hwf Hs Hin Hf v x). }
    destruct (dijkstra_body _ _ _ _ _ _) as [st1|o st1|st1]; simpl in *; eauto.
    destruct (IH st1 Hwf' Hs') as (acts & Ha & Hn).
    eexists. rewrite Ha, Ht, <- app_assoc. split; [done|].
    intros v x [?|?]%elem_of_app; [by eapply Hno|by eapply Hn].
  - simpl. exists []. rewrite app_nil_r. split; [done|]. by intros v x ?%elem_of_nil.
Qed.

Lemma a_star_loop_touched fuel s destination :
  ∀ st, wf_bk st.1.2 → sound s st.1.2 →
  ∃ acts, trace (a_star_loop fuel s destination st).2.1.1 = trace st.1.1 ++ acts
          ∧ ∀ v x, AMark v x ∈ acts → touched s v.
Proof.
  induction fuel as [|fuel IH]; intros st Hwf Hs; simpl.
  { exists []. rewrite app_nil_r. split; [done|]. by intros v x ?%elem_of_nil. }
  pose proof (a_star_iter_wf fuel s destination st Hwf) as Hwf'.
  pose proof (a_star_iter_sound fuel s destination st Hwf Hs) as Hs'.
  unfold a_star_iter in *. destruct (queue_get _) as [[e q']|] eqn:Hq.
  - destruct (wf_bk_pop _ _ _ Hwf Hq) as (Hin & _ & _).
    destruct st as [[w b] f].
    destruct (a_star_body_trace fuel s destination e q' w b f) as (tail & Ht & Hf).
    assert (∀ v x, AMark v x ∈ APoll :: quits (events_at (polls w))
                              ++ APop (entry_vertex e) :: tail → touched s v) as Hno.
    { intros v x [?|[H'|[?|H']%elem_of_cons]%elem_of_app]%elem_of_cons; try done.
      - by apply quits_not_mark in H'.
      - by apply (tail_action_touched _ _ _ _ _ _ Hwf Hs Hin Hf v x). }
    destruct (a_star_body _ _ _ _ _ _) as [st1|o st1|st1]; simpl in *; eauto.
    destruct (IH st1 Hwf' Hs') as (acts & Ha & Hn).
    eexists. rewrite Ha, Ht, <- app_assoc. split; [done|].
    intros v x [?|?]%elem_of_app; [by eapply Hno|by eapply Hn].
  - simpl. exists []. rewrite app_nil_r. split; [done|]. by intros v x ?%elem_of_nil.
Qed.

(** A vertex to which a run writes no marker keeps its state. *)
Lemma tracked_unmarked w w' acts v :
  tracked w w' → trace w' = trace w ++ acts → (∀ x, AMark v x ∉ acts) →
  vstate w' !! v = vstate w !! v.
Proof.
  intros (acts' & Ht & Hv) Ht' Hn. rewrite Ht in Ht'.
  apply app_inv_head in Ht' as ->. rewrite Hv. by apply apply_mark_other.
Qed.

(** X5.  However far a run of either search gets, it leaves the state of a vertex
    as it was when the vertex is the destination and not the start, or when
    it is not the start and in no neighbour list, as a wall is. *)
Theorem search_keeps_states (grid : list (list Vertex)) (fuel : nat) (s d : Vertex)
    (w : World) (v : Vertex) :
  (v = d ∧ s ≠ d) ∨ (v ≠ s ∧ ∀ u, v ∉ neighbors u) →
  vstate (dijkstra fuel (mkPathfinder grid (Some s) (Some d)) w).2 !! v = vstate w !! v
  ∧ vstate (a_star_search fuel (mkPathfinder grid (Some s) (Some d)) w).2 !! v
    = vstate w !! v.
Proof.
  intros Hv. split.
  - unfold dijkstra. simpl.
    pose proof (tracked_dijkstra_loop fuel s (Some d) (w, dijkstra_init grid s)) as Htr.
    assert (∃ acts, trace (dijkstra_loop fuel s (Some d) (w, dijkstra_init grid s)).2.1
                    = trace w ++ acts ∧ ∀ x, AMark v x ∉ acts) as (acts & Ht & Hn).
    { destruct Hv as [[-> Hsd]|[Hvs Hvn]].
      - apply (dijkstra_loop_destination fuel s d (w, dijkstra_init grid s));
          [apply init_wf|done].
      - destruct (dijkstra_loop_touched fuel s (Some d) (w, dijkstra_init grid s)
                    (init_wf grid s) (init_sound grid s)) as (acts & Ht & Hn).
        exists acts. split; [done|]. intros x Hx.
        destruct (Hn v x Hx) as [?|[u Hu]]; [done|by apply (Hvn u)]. }
    destruct (dijkstra_loop _ _ _ _) as [o [w' b']]. simpl in *.
    by eapply tracked_unmarked.
  - unfold a_star_search. simpl.
    pose proof (tracked_a_star_loop fuel s d
                  (w, (a_star_init grid s d).1, (a_star_init grid s d).2)) as Htr.
    assert (∃ acts, trace (a_star_loop fuel s d
                             (w, (a_star_init grid s d).1, (a_star_init grid s d).2)).2.1.1
                    = trace w ++ acts ∧ ∀ x, AMark v x ∉ acts) as (acts & Ht & Hn).
    { destruct Hv as [[-> Hsd]|[Hvs Hvn]].
      - apply (a_star_loop_destination fuel s d
                 (w, (a_star_init grid s d).1, (a_star_init grid s d).2));
          [apply init_wf|done].
      - destruct (a_star_loop_touched fuel s d
                    (w, (a_star_init grid s d).1, (a_star_init grid s d).2)
                    (init_wf grid s) (init_sound grid s)) as (acts & Ht & Hn).
        exists acts. split; [done|]. intros x Hx.
        destruct (Hn v x Hx) as [?|[u Hu]]; [done|by apply (Hvn u)]. }
    simpl in *. destruct (a_star_loop _ _ _ _) as [o [[w' b'] f']]. simpl in *.
    by eapply tracked_unmarked.
Qed.

(** ** What a found path looks like *)

Lemma paint_lookup (l : list Vertex) (m : gmap Vertex VertexState) (u : Vertex) :
  foldl (λ m u, <[u := Path]> m) m l !! u
  = if decide (u ∈ l) then Some Path else m !! u.
Proof.
  revert m. induction l as [|x l IH]; intros m.
  { destruct (decide (u ∈ [])) as [H|]; [by apply elem_of_nil in H|done]. }
  change (foldl (λ m u, <[u := Path]> m) (<[x := Path]> m) l !! u
          = if decide (u ∈ x :: l) then Some Path else m !! u).
  rewrite IH.
  destruct (decide (u ∈ l)) as [Hin|Hout], (decide (u ∈ x :: l)) as [Hin'|Hout'];
    try done.
  - destruct Hout'. by right.
  - apply elem_of_cons in Hin' as [->|?]; [by rewrite lookup_insert_eq|done].
  - rewrite lookup_insert_ne; [done|]. intros ->. apply Hout'. left.
Qed.

Lemma dijkstra_loop_painted s d fuel :
  ∀ st w' b', dijkstra_loop fuel s (Some d) st = (Some (Returned true), (w', b')) →
  ∃ m l, is_chain (came_from b') d l
         ∧ vstate w' = <[s := Start]> (foldl (λ m u, <[u := Path]> m) m l).
Proof.
  induction fuel as [|fuel IH]; intros st w' b'; [done|]. simpl.
  unfold dijkstra_iter.
  destruct (queue_get (queue st.2)) as [[e q']|]; [|done].
  destruct (dijkstra_body fuel s (Some d) e q' st) as [st1|o st1|st1] eqn:Hb;
    [apply IH| |done].
  intros [= -> ->]. destruct st as [w b]. unfold dijkstra_body in Hb.
  case_decide; [|done]. case_decide as Hd.
  - injection Hd as Hd. cbn [came_from] in Hb.
    destruct (reconstruct_path fuel _ _ _) as [w1|w1] eqn:Hr; [|done].
    injection Hb as <- <-. simpl.
    pose proof (reconstruct_path_vstate fuel (came_from b) (entry_vertex e)
                  (record (APop (entry_vertex e)) (poll_events w))) as Hv.
    rewrite Hr in Hv. simpl in Hv. rewrite Hv, <- Hd.
    eexists _, _. split; [|done]. by eapply reconstruct_path_finished.
  - by destruct (for_each _ _ _) as [[??]|? [??]].
Qed.

Lemma a_star_loop_painted s d fuel :
  ∀ st w' b' f', a_star_loop fuel s d st = (Some (Returned true), (w', b', f')) →
  ∃ m l, is_chain (came_from b') d l
         ∧ vstate w' = <[s := Start]> (foldl (λ m u, <[u := Path]> m) m l).
Proof.
  induction fuel as [|fuel IH]; intros st w' b' f'; [done|]. simpl.
  unfold a_star_iter.
  destruct (queue_get (queue st.1.2)) as [[e q']|]; [|done].
  destruct (a_star_body fuel s d e q' st) as [st1|o st1|st1] eqn:Hb;
    [apply IH| |done].
  intros [= -> ->]. destruct st as [[w b] f]. unfold a_star_body in Hb.
  case_decide; [|done]. case_decide as Hd.
  - cbn [came_from] in Hb.
    destruct (reconstruct_path fuel _ _ _) as [w1|w1] eqn:Hr; [|done].
    injection Hb as <- <- <-. simpl.
    pose proof (reconstruct_path_vstate fuel (came_from b) (entry_vertex e)
                  (record (APop (entry_vertex e)) (poll_events w))) as Hv.
    rewrite Hr in Hv. simpl in Hv. rewrite Hv, <- Hd.
    eexists _, _. split; [|done]. by eapply reconstruct_path_finished.
  - by destruct (for_each _ _ _) as [[[??]?]|? [[??]?]].
Qed.

(** X6.  After a search that returned True, the start is in state [Start], and
    every other vertex that was marked as path is in state [Path]. *)
Theorem search_paints_path (grid : list (list Vertex)) (fuel : nat) (s d : Vertex)
    (w w' : World) :
  dijkstra fuel (mkPathfinder grid (Some s) (Some d)) w = (Some (Returned true), w')
  ∨ a_star_search fuel (mkPathfinder grid (Some s) (Some d)) w
    = (Some (Returned true), w') →
  ∃ l, path_marks w' = path_marks w ++ l
       ∧ vstate w' !! s = Some Start
       ∧ ∀ u, u ∈ l → u ≠ s → vstate w' !! u = Some Path.
Proof.
  assert (∀ b' l m l',
            is_chain (came_from b') d l → is_chain (came_from b') d l' →
            vstate w' = <[s := Start]> (foldl (λ m u, <[u := Path]> m) m l') →
            vstate w' !! s = Some Start
            ∧ ∀ u, u ∈ l → u ≠ s → vstate w' !! u = Some Path) as Hgen.
  { intros b' l m l' Hc Hc' Hv. rewrite (is_chain_functional _ _ _ _ Hc Hc'), Hv.
    split; [by rewrite lookup_insert_eq|].
    intros u Hu Hne. rewrite lookup_insert_ne, paint_lookup by done.
    by rewrite decide_True. }
  intros [H|H].
  - unfold dijkstra in H. simpl in H.
    destruct (dijkstra_loop fuel s (Some d) (w, dijkstra_init grid s))
      as [o [w1 b1]] eqn:Hl.
    injection H as -> ->.
    destruct (dijkstra_loop_true fuel s d (w, dijkstra_init grid s) _ _
                (init_wf grid s) Hl) as (_ & l & Hc & Hp).
    destruct (dijkstra_loop_painted s d fuel _ _ _ Hl) as (m & l' & Hc' & Hv).
    exists l. split; [done|]. by eapply Hgen.
  - unfold a_star_search in H. simpl in H.
    destruct (a_star_loop fuel s d
                (w, (a_star_init grid s d).1, (a_star_init grid s d).2))
      as [o [[w1 b1] f1]] eqn:Hl.
    simpl in Hl. rewrite Hl in H. injection H as -> ->.
    destruct (a_star_loop_true fuel s d
                (w, (a_star_init grid s d).1, (a_star_init grid s d).2) _ _ _
                (init_wf grid s) Hl) as (_ & l & Hc & Hp).
    destruct (a_star_loop_painted s d fuel _ _ _ _ Hl) as (m & l' & Hc' & Hv).
    exists l. split; [done|]. by eapply Hgen.
Qed.

(** ** The heuristic on a grid *)

(** X7.  When neighbour lists hold adjacent cells only, the heuristic of
    [a_star_search] never exceeds the number of steps that are left to the
    destination, and it changes by exactly one along a step. *)
Theorem heuristic_admissible (d : Vertex) :
  (∀ v u, u ∈ neighbors v → manhatten_distance v u = 1%Z) →
  (∀ v n, walk_to v n d → (h d v ≤ Z.of_nat n)%Z)
  ∧ (∀ v u, u ∈ neighbors v → h d u = (h d v + 1)%Z ∨ h d u = (h d v - 1)%Z).
Proof.
  intros Hadj.
  assert (∀ v u, u ∈ neighbors v → h d u = (h d v + 1)%Z ∨ h d u = (h d v - 1)%Z)
    as Hstep.
  { intros v u Hu. specialize (Hadj v u Hu). unfold h, get_position, manhatten_distance in *.
    destruct v as [a b], u as [x y], d as [p q]. lia. }
  split; [|done].
  assert (∀ v n u, walk_to v n u → (h d v ≤ h d u + Z.of_nat n)%Z) as Hw.
  { intros v n u. induction 1 as [|n x y _ IH Hy]; [lia|].
    destruct (Hstep x y Hy); lia. }
  intros v n Hv. specialize (Hw v n d Hv).
  assert (h d d = 0%Z) as Hd by (unfold h, get_position, manhatten_distance; destruct d; lia).
  lia.
Qed.

(** ** Path reconstruction on a map that does not end *)

(** X8.  When every vertex that can be reached from [current] along [came_from]
    has a predecessor, [__reconstruct_path] never leaves its loop: whatever
    the number of turns, it is still running, and has marked one vertex per
    turn. *)
Theorem reconstruct_path_endless (inside : Vertex → Prop)
    (came_from : gmap Vertex Vertex) (current : Vertex) (w : World) (fuel : nat) :
  inside current →
  (∀ u, inside u → ∃ p, came_from !! u = Some p ∧ inside p) →
  ∃ w', reconstruct_path fuel came_from current w = OutOfFuel w'
        ∧ length (path_marks w') = length (path_marks w) + fuel.
Proof.
  intros Hin Hcl. revert current w Hin.
  induction fuel as [|fuel IH]; intros current w Hin;
    destruct (Hcl current Hin) as (p & Hp & Hpin); simpl; rewrite Hp.
  - exists w. split; [done|lia].
  - destruct (IH p (draw (make_path p w)) Hpin) as (w' & Hr & Hlen).
    exists w'. split; [done|]. rewrite Hlen.
    assert (path_marks (draw (make_path p w)) = path_marks w ++ [p]) as ->.
    { apply (path_marks_app w [AMark p Path; ADraw]).
      unfold make_path. by rewrite trace_draw, trace_set_state, <- app_assoc. }
    rewrite length_app. simpl. lia.
Qed.

(** ** The set beside the queue, and the second cost map of A* *)

(** X9.  However far a search gets, its set ([visited] in [dijkstra], [open_set] in
    [a_star_search]) holds exactly the vertices that are on the queue, and no
    vertex is on the queue twice. *)
Theorem set_mirrors_queue (grid : list (list Vertex)) (fuel : nat) (s d : Vertex)
    (destination : option Vertex) (w : World) :
  let bd := (dijkstra_loop fuel s destination (w, dijkstra_init grid s)).2.2 in
  let ba := (a_star_loop fuel s d
               (w, (a_star_init grid s d).1, (a_star_init grid s d).2)).2.1.2 in
  (NoDup (entry_vertex <$> queue bd)
   ∧ ∀ v, v ∈ visited bd ↔ v ∈ entry_vertex <$> queue bd)
  ∧ (NoDup (entry_vertex <$> queue ba)
     ∧ ∀ v, v ∈ open_set ba ↔ v ∈ entry_vertex <$> queue ba).
Proof.
  intros bd ba. split.
  - destruct (dijkstra_loop_bk fuel s destination (w, dijkstra_init grid s)) as [Hb _].
    pose proof (search_bk_wf dijkstra_key destination fuel (dijkstra_init grid s)
                  (init_wf grid s)) as Hwf.
    simpl in Hb. unfold bd. rewrite Hb.
    split; [exact (wf_nodup _ Hwf)|exact (wf_open _ Hwf)].
  - destruct (a_star_loop_bk fuel s d
                (w, (a_star_init grid s d).1, (a_star_init grid s d).2)) as [Hb _].
    pose proof (search_bk_wf (a_star_key d) (Some d) fuel (a_star_init grid s d).1
                  (init_wf grid s)) as Hwf.
    simpl in Hb. unfold ba. simpl. rewrite Hb.
    split; [exact (wf_nodup _ Hwf)|exact (wf_open _ Hwf)].
Qed.

(** [f_score] is [g_score] with the heuristic added. *)
Definition f_follows_g (d : Vertex) (st : World * Bk * gmap Vertex num) : Prop :=
  ∀ v, st.2 !! v = (λ x, num_add x (h d v)) <$> g_score st.1.2 !! v.

Lemma a_star_relax_f d current st neighbor :
  f_follows_g d st → f_follows_g d (result_state (a_star_relax d current st neighbor)).
Proof.
  destruct st as [[w b] f]. unfold a_star_relax, f_follows_g. simpl. intros Hf.
  destruct (g_score b !! current); [|done].
  destruct (g_score b !! neighbor); [|done].
  destruct (num_ltb _ _); [|done].
  repeat case_decide; simpl; intros v; rewrite !lookup_insert;
    case_decide; subst; simpl; auto.
Qed.

Lemma a_star_body_f fuel s d e queue' st :
  f_follows_g d st → f_follows_g d (step_state (a_star_body fuel s d e queue' st)).
Proof.
  destruct st as [[w b] f]. unfold a_star_body. intros Hf.
  case_decide; [|done]. case_decide.
  - by destruct (reconstruct_path _ _ _ _).
  - match goal with |- context [for_each ?f0 ?s0 ?l0] =>
      assert (f_follows_g d (result_state (for_each f0 s0 l0))) as H'
    end.
    { apply (for_each_inv (f_follows_g d)); [|done].
      intros ???. apply a_star_relax_f. }
    by destruct (for_each _ _ _) as [[[??]?]|? [[??]?]].
Qed.

(** X10.  In [a_star_search], however far it gets, [f_score] of a vertex is its
    [g_score] plus its Manhattan distance to the destination: infinite where
    [g_score] is, and missing where [g_score] has no entry. *)
Theorem f_score_is_g_plus_h (grid : list (list Vertex)) (fuel : nat) (s d : Vertex)
    (w : World) :
  let st := (a_star_loop fuel s d
               (w, (a_star_init grid s d).1, (a_star_init grid s d).2)).2 in
  ∀ v, st.2 !! v = (λ x, num_add x (h d v)) <$> g_score st.1.2 !! v.
Proof.
  assert (∀ st, f_follows_g d st → f_follows_g d (a_star_loop fuel s d st).2) as Hl.
  { induction fuel as [|fuel IH]; intros st Hf; [done|]. simpl. unfold a_star_iter.
    destruct (queue_get (queue st.1.2)) as [[e q']|]; [|done].
    pose proof (a_star_body_f fuel s d e q' st Hf) as Hb.
    destruct (a_star_body _ _ _ _ _ _) as [st1|o st1|st1]; simpl in *; auto. }
  apply Hl. intros v. simpl. rewrite !lookup_insert. case_decide; [by subst|].
  unfold all_inf. induction (concat grid) as [|x l IH]; simpl.
  - by rewrite !lookup_empty.
  - rewrite !lookup_insert. by case_decide.
Qed.

(** ** After a search that found nothing *)

(** Every settled vertex but the start, and but [skip], is marked as
    visited. *)
Definition visited_marks (s : Vertex) (skip : option Vertex) (w : World) (b : Bk)
  : Prop :=
  ∀ v, settled b v → v ≠ s → Some v ≠ skip → vstate w !! v = Some Visited.

Lemma dijkstra_relax_visited s skip destination current st neighbor :
  visited_marks s skip st.1 st.2 →
  let st' := result_state (dijkstra_relax destination current st neighbor) in
  visited_marks s skip st'.1 st'.2.
Proof.
  destruct st as [w b]. unfold dijkstra_relax, visited_marks. simpl. intros Hv.
  destruct (g_score b !! current); [|done].
  destruct (g_score b !! neighbor); [|done].
  destruct (num_ltb _ _); [|done].
  assert (∀ b' v, settled b' v → g_score b' = <[neighbor := num_add n 1]> (g_score b) →
            neighbor ∈ open_set b' → (∀ u, u ∈ open_set b → u ∈ open_set b') →
            settled b v ∧ v ≠ neighbor) as Hset.
  { intros b' v [[z Hz] Hvo] Hg Hn Ho.
    assert (v ≠ neighbor) as Hne by (by intros ->).
    rewrite Hg, lookup_insert_ne in Hz by done.
    split; [|done]. split; [by exists z|]. intros ?. by apply Hvo, Ho. }
  repeat case_decide; simpl; intros v Hsv Hvs Hsk.
  - destruct (Hset _ v Hsv eq_refl) as [Hs0 _]; auto.
  - destruct (Hset _ v Hsv eq_refl) as [Hs0 _]; simpl;
      [by apply elem_of_union_l, elem_of_singleton
      |by intros u ?; apply elem_of_union_r|].
    auto.
  - destruct (Hset _ v Hsv eq_refl) as [Hs0 Hne]; simpl;
      [by apply elem_of_union_l, elem_of_singleton
      |by intros u ?; apply elem_of_union_r|].
    rewrite lookup_insert_ne by done. auto.
Qed.

Lemma a_star_relax_visited s skip destination current st neighbor :
  visited_marks s skip st.1.1 st.1.2 →
  let st' := result_state (a_star_relax destination current st neighbor) in
  visited_marks s skip st'.1.1 st'.1.2.
Proof.
  destruct st as [[w b] f]. unfold a_star_relax, visited_marks. simpl. intros Hv.
  destruct (g_score b !! current); [|done].
  destruct (g_score b !! neighbor); [|done].
  destruct (num_ltb _ _); [|done].
  assert (∀ b' v, settled b' v → g_score b' = <[neighbor := num_add n 1]> (g_score b) →
            neighbor ∈ open_set b' → (∀ u, u ∈ open_set b → u ∈ open_set b') →
            settled b v ∧ v ≠ neighbor) as Hset.
  { intros b' v [[z Hz] Hvo] Hg Hn Ho.
    assert (v ≠ neighbor) as Hne by (by intros ->).
    rewrite Hg, lookup_insert_ne in Hz by done.
    split; [|done]. split; [by exists z|]. intros ?. by apply Hvo, Ho. }
  repeat case_decide; simpl; intros v Hsv Hvs Hsk.
  - destruct (Hset _ v Hsv eq_refl) as [Hs0 _]; auto.
  - destruct (Hset _ v Hsv eq_refl) as [Hs0 _]; simpl;
      [by apply elem_of_union_l, elem_of_singleton
      |by intros u ?; apply elem_of_union_r|].
    auto.
  - destruct (Hset _ v Hsv eq_refl) as [Hs0 Hne]; simpl;
      [by apply elem_of_union_l, elem_of_singleton
      |by intros u ?; apply elem_of_union_r|].
    rewrite lookup_insert_ne by done. auto.
Qed.

Lemma dijkstra_iter_visited fuel s destination st st' :
  wf_bk st.2 → visited_marks s None st.1 st.2 →
  dijkstra_iter fuel s destination st = Continue st' →
  visited_marks s None st'.1 st'.2.
Proof.
  intros Hwf Hv. unfold dijkstra_iter.
  destruct (queue_get (queue st.2)) as [[e q']|] eqn:Hq; [|done].
  destruct (wf_bk_pop _ _ _ Hwf Hq) as (Hin & Hfin & _).
  destruct st as [w b]. unfold dijkstra_body. simpl in *.
  rewrite decide_True by done. case_decide as Hd; [by destruct (reconstruct_path _ _ _ _)|].
  set (w0 := record (APop (entry_vertex e)) (poll_events w)).
  set (b0 := mkBk (count b) q' (open_set b ∖ {[entry_vertex e]})
                  (came_from b) (g_score b)).
  assert (visited_marks s (Some (entry_vertex e)) w0 b0) as Hv0.
  { intros v [Hdv Hvo] Hvs Hne. unfold w0. simpl. rewrite vstate_poll_events.
    apply Hv; [|done..]. split; [done|]. simpl in Hvo.
    rewrite elem_of_difference, elem_of_singleton in Hvo.
    intros ?. apply Hvo. split; [done|]. congruence. }
  assert (let r := result_state (for_each (dijkstra_relax destination (entry_vertex e))
                                   (w0, b0) (neighbors (entry_vertex e))) in
          visited_marks s (Some (entry_vertex e)) r.1 r.2) as Hv1.
  { apply (for_each_inv (λ st, visited_marks s (Some (entry_vertex e)) st.1 st.2));
      [|done].
    intros st1 x _. apply dijkstra_relax_visited. }
  destruct (for_each _ _ _) as [[w1 b1]|x [w1 b1]]; [|done].
  intros [= <-]. simpl in Hv1. simpl.
  intros v Hsv Hvs _. destruct (decide (v = entry_vertex e)) as [->|Hne].
  - rewrite decide_False by done. simpl. by rewrite lookup_insert_eq.
  - case_decide; simpl; [|rewrite lookup_insert_ne by done]; apply Hv1; congruence.
Qed.

Lemma a_star_iter_visited fuel s d st st' :
  wf_bk st.1.2 → visited_marks s None st.1.1 st.1.2 →
  a_star_iter fuel s d st = Continue st' →
  visited_marks s None st'.1.1 st'.1.2.
Proof.
  intros Hwf Hv. unfold a_star_iter.
  destruct (queue_get (queue st.1.2)) as [[e q']|] eqn:Hq; [|done].
  destruct (wf_bk_pop _ _ _ Hwf Hq) as (Hin & Hfin & _).
  destruct st as [[w b] f]. unfold a_star_body. simpl in *.
  rewrite decide_True by done. case_decide as Hd; [by destruct (reconstruct_path _ _ _ _)|].
  set (w0 := record (APop (entry_vertex e)) (poll_events w)).
  set (b0 := mkBk (count b) q' (open_set b ∖ {[entry_vertex e]})
                  (came_from b) (g_score b)).
  assert (visited_marks s (Some (entry_vertex e)) w0 b0) as Hv0.
  { intros v [Hdv Hvo] Hvs Hne. unfold w0. simpl. rewrite vstate_poll_events.
    apply Hv; [|done..]. split; [done|]. simpl in Hvo.
    rewrite elem_of_difference, elem_of_singleton in Hvo.
    intros ?. apply Hvo. split; [done|]. congruence. }
  assert (let r := result_state (for_each (a_star_relax d (entry_vertex e))
                                   (w0, b0, f) (neighbors (entry_vertex e))) in
          visited_marks s (Some (entry_vertex e)) r.1.1 r.1.2) as Hv1.
  { apply (for_each_inv (λ st, visited_marks s (Some (entry_vertex e)) st.1.1 st.1.2));
      [|done].
    intros st1 x _. apply a_star_relax_visited. }
  destruct (for_each _ _ _) as [[[w1 b1] f1]|x [[w1 b1] f1]]; [|done].
  intros [= <-]. simpl in Hv1. simpl.
  intros v Hsv Hvs _. destruct (decide (v = entry_vertex e)) as [->|Hne].
  - rewrite decide_False by done. simpl. by rewrite lookup_insert_eq.
  - case_decide; simpl; [|rewrite lookup_insert_ne by done]; apply Hv1; congruence.
Qed.

(** The state in which a search gives up. *)
Definition given_up (s : Vertex) (destination : option Vertex) (w : World) (b : Bk)
  : Prop :=
  wf_bk b ∧ sound s b ∧ explored destination None b ∧ visited_marks s None w b.

Lemma given_up_visited s destination w b :
  given_up s destination w b → queue b = [] →
  ∀ n v, walk_to s n v → v ≠ s → vstate w !! v = Some Visited.
Proof.
  intros (Hwf & Hs & He & Hv) Hq n v Hw Hvs.
  apply Hv; [|done..]. by eapply exhausted_settled.
Qed.

Lemma dijkstra_loop_given_up s destination fuel :
  ∀ st st', given_up s destination st.1 st.2 →
  dijkstra_loop fuel s destination st = (Some (Returned false), st') →
  given_up s destination st'.1 st'.2 ∧ queue st'.2 = [].
Proof.
  induction fuel as [|fuel IH]; intros st st' (Hwf & Hs & He & Hv); [done|]. simpl.
  pose proof (dijkstra_iter_wf fuel s destination st Hwf) as Hwf1.
  pose proof (dijkstra_iter_sound fuel s destination st Hwf Hs) as Hs1.
  pose proof (dijkstra_iter_bk fuel s destination st) as Hbk.
  destruct (dijkstra_iter fuel s destination st) as [st1|o st1|st1] eqn:Hi;
    simpl in Hwf1, Hs1, Hbk; [| |done].
  - apply IH. split_and!; [done..| |].
    + by eapply (iter_bk_explored dijkstra_key destination st.2).
    + exact (dijkstra_iter_visited fuel s destination st st1 Hwf Hv Hi).
  - intros [= -> ->]. unfold dijkstra_iter in Hi.
    destruct (queue_get (queue st.2)) as [[e q']|] eqn:Hq.
    + exfalso. destruct st as [w b]. unfold dijkstra_body in Hi. simpl in Hi.
      case_decide; [|done]. case_decide.
      * by destruct (reconstruct_path _ _ _ _).
      * by destruct (for_each _ _ _) as [[??]|? [??]].
    + injection Hi as <-. split; [done|]. by apply queue_get_None.
Qed.

Lemma a_star_loop_given_up s d fuel :
  ∀ st st', given_up s (Some d) st.1.1 st.1.2 →
  a_star_loop fuel s d st = (Some (Returned false), st') →
  given_up s (Some d) st'.1.1 st'.1.2 ∧ queue st'.1.2 = [].
Proof.
  induction fuel as [|fuel IH]; intros st st' (Hwf & Hs & He & Hv); [done|]. simpl.
  pose proof (a_star_iter_wf fuel s d st Hwf) as Hwf1.
  pose proof (a_star_iter_sound fuel s d st Hwf Hs) as Hs1.
  pose proof (a_star_iter_bk fuel s d st) as Hbk.
  destruct (a_star_iter fuel s d st) as [st1|o st1|st1] eqn:Hi;
    simpl in Hwf1, Hs1, Hbk; [| |done].
  - apply IH. split_and!; [done..| |].
    + by eapply (iter_bk_explored (a_star_key d) (Some d) st.1.2).
    + exact (a_star_iter_visited fuel s d st st1 Hwf Hv Hi).
  - intros [= -> ->]. unfold a_star_iter in Hi.
    destruct (queue_get (queue st.1.2)) as [[e q']|] eqn:Hq.
    + exfalso. destruct st as [[w b] f]. unfold a_star_body in Hi. simpl in Hi.
      case_decide; [|done]. case_decide.
      * by destruct (reconstruct_path _ _ _ _).
      * by destruct (for_each _ _ _) as [[[??]?]|? [[??]?]].
    + injection Hi as <-. split; [done|]. by apply queue_get_None.
Qed.

Lemma init_given_up grid s destination w :
  given_up s destination w
    (mkBk 0 (queue_put [] (Int 0, 0, s)) {[s]} ∅ (<[s := Int 0]> (all_inf grid))).
Proof.
  split_and!; [apply init_wf|apply init_sound|apply init_explored|].
  intros v [[z Hz] _] Hvs _. simpl in Hz. rewrite lookup_insert_ne in Hz by done.
  by destruct (all_inf_lookup grid v z).
Qed.

(** X11.  After a search that returned False, every vertex that a walk along
    neighbour lists reaches from the start, the start apart, is in state
    [Visited]. *)
Theorem failed_search_visits_all (grid : list (list Vertex)) (fuel : nat)
    (s d : Vertex) (w w' : World) :
  dijkstra fuel (mkPathfinder grid (Some s) (Some d)) w = (Some (Returned false), w')
  ∨ a_star_search fuel (mkPathfinder grid (Some s) (Some d)) w
    = (Some (Returned false), w') →
  ∀ n v, walk_to s n v → v ≠ s → vstate w' !! v = Some Visited.
Proof.
  intros [H|H].
  - unfold dijkstra in H. simpl in H.
    destruct (dijkstra_loop fuel s (Some d) (w, dijkstra_init grid s))
      as [o [w1 b1]] eqn:Hl.
    injection H as -> ->.
    destruct (dijkstra_loop_given_up s (Some d) fuel (w, dijkstra_init grid s) (w', b1)
                (init_given_up grid s (Some d) w) Hl) as [Hg Hq].
    by eapply given_up_visited.
  - unfold a_star_search in H. simpl in H.
    destruct (a_star_loop fuel s d
                (w, (a_star_init grid s d).1, (a_star_init grid s d).2))
      as [o [[w1 b1] f1]] eqn:Hl.
    simpl in Hl. rewrite Hl in H. injection H as -> ->.
    destruct (a_star_loop_given_up s d fuel
                (w, (a_star_init grid s d).1, (a_star_init grid s d).2) (w', b1, f1)
                (init_given_up grid s (Some d) w) Hl) as [Hg Hq].
    by eapply given_up_visited.
Qed.

(** ** Dijkstra without a destination *)

Lemma search_bk_no_destination key fuel :
  ∀ b b', search_bk key None fuel b ≠ (Some (Returned true), b').
Proof.
  induction fuel as [|fuel IH]; intros b b'; [done|]. simpl.
  destruct (iter_bk key None b) as [b1|o b1|b1] eqn:Hi; [apply IH| |done].
  intros [= -> ->]. unfold iter_bk in Hi.
  destruct (queue_get (queue b)) as [[e q']|]; [|done].
  unfold body_bk in Hi. case_decide; [|done]. case_decide; [done|].
  by destruct (for_each _ _ _).
Qed.

(** X12.  Called with a start and no destination, on a graph whose neighbour
    lists stay on the grid and with no QUIT event arriving, [dijkstra] never
    compares equal to the missing destination: it goes through everything
    that can be reached from the start, marks it as visited, and returns
    False. *)
Theorem dijkstra_no_destination (grid : list (list Vertex)) (s : Vertex) (w : World) :
  (∀ v u, u ∈ neighbors v → u ∈ concat grid) →
  quit_free events_at →
  ∃ fuel w',
    dijkstra fuel (mkPathfinder grid (Some s) None) w = (Some (Returned false), w')
    ∧ ∀ n v, walk_to s n v → v ≠ s → vstate w' !! v = Some Visited.
Proof.
  intros Hg _.
  destruct (bk_terminates dijkstra_key None (dijkstra_init grid s) (init_wf grid s))
    as (fuel & o & b' & Hb).
  assert (o = Returned false) as ->.
  { destruct o as [[|]|x]; [|done|].
    - by destruct (search_bk_no_destination dijkstra_key fuel (dijkstra_init grid s) b').
    - by destruct (search_bk_known dijkstra_key None fuel (dijkstra_init grid s)
                     (init_wf grid s) (init_known grid s Hg) x b'). }
  destruct (dijkstra_loop_bk fuel s None (w, dijkstra_init grid s)) as [Heq Ho].
  simpl in Heq, Ho. rewrite Hb in Heq, Ho. simpl in Heq, Ho.
  destruct Ho as [Ho|[_ Ho]]; [|done].
  destruct (dijkstra_loop fuel s None (w, dijkstra_init grid s)) as [o' [w' b1]] eqn:Hl.
  simpl in Heq, Ho. subst o' b1.
  exists fuel, w'. unfold dijkstra. simpl. rewrite Hl. split; [done|].
  destruct (dijkstra_loop_given_up s None fuel (w, dijkstra_init grid s) (w', b')
              (init_given_up grid s None w) Hl) as [Hgu Hq].
  by eapply given_up_visited.
Qed.

(** ** What a search returns *)












End Engine.

(** ** Maze generation leaves the endpoints alone *)

Section MazeFacts.

Variable round_density : nat → nat.
Variable rand : nat → nat.

(** A vertex that the pathfinder holds as its start or its destination. *)
Definition endpoint (pf : Pathfinder) (v : Vertex) : Prop :=
  Some v = start pf ∨ Some v = destination pf.

Definition wall_action (pf : Pathfinder) (a : action) : Prop :=
  ∃ v, a = AMark v Wall ∧ ¬ endpoint pf v.

Lemma maze_pick_spec pf w k i :
  ∃ acts,
    trace (result_state (maze_pick rand pf (w, k) i)).1 = trace w ++ acts
    ∧ Forall (wall_action pf) acts
    ∧ length acts ≤ 1
    ∧ (∀ v, endpoint pf v →
       vstate (result_state (maze_pick rand pf (w, k) i)).1 !! v = vstate w !! v)
    ∧ (∀ s, maze_pick rand pf (w, k) i = Ok s → s.2 = S (S k)).
Proof.
  unfold maze_pick.
  assert (∀ x st, st.1 = w →
    ∃ acts, trace (result_state (Raise x st)).1 = trace w ++ acts
      ∧ Forall (wall_action pf) acts ∧ length acts ≤ 1
      ∧ (∀ v, endpoint pf v → vstate (result_state (Raise x st)).1 !! v = vstate w !! v)
      ∧ (∀ s, Raise x st = Ok s → s.2 = S (S k))) as Hraise.
  { intros x [w1 k1] Hw. simpl in *. subst w1. exists [].
    rewrite app_nil_r. split_and!; try done. simpl. lia. }
  destruct (randrange rand k _) as [row|]; [|by apply Hraise].
  destruct (randrange rand (S k) _) as [col|]; [|by apply Hraise].
  destruct (grid pf !! row ≫= _) as [v|]; [|by apply Hraise].
  case_decide as Hv; simpl.
  - exists [AMark v Wall]. split_and!; try done.
    + repeat constructor. exists v. split; [done|]. unfold endpoint. tauto.
    + intros u Hu. rewrite lookup_insert_ne; [done|].
      intros ->. unfold endpoint in Hu. tauto.
    + by intros s [= <-].
  - exists []. rewrite app_nil_r. split_and!; first [done | by intros s [= <-] | simpl; lia].
Qed.

Lemma maze_loop_spec pf l w k :
  ∃ acts,
    trace (result_state (for_each (maze_pick rand pf) (w, k) l)).1 = trace w ++ acts
    ∧ Forall (wall_action pf) acts
    ∧ length acts ≤ length l
    ∧ (∀ v, endpoint pf v →
       vstate (result_state (for_each (maze_pick rand pf) (w, k) l)).1 !! v
       = vstate w !! v)
    ∧ (∀ s, for_each (maze_pick rand pf) (w, k) l = Ok s → s.2 = k + 2 * length l).
Proof.
  revert w k. induction l as [|i l IH]; intros w k.
  { exists []. rewrite app_nil_r. split_and!; try done. intros s [= <-]. simpl. lia. }
  destruct (maze_pick_spec pf w k i) as (acts1 & Ht1 & Hf1 & Hl1 & Hv1 & Hk1).
  destruct (maze_pick rand pf (w, k) i) as [[w1 k1]|x [w1 k1]] eqn:Hp;
    simpl in Ht1, Hv1, Hk1.
  - rewrite (for_each_cons_Ok _ _ _ _ _ Hp).
    destruct (IH w1 k1) as (acts2 & Ht2 & Hf2 & Hl2 & Hv2 & Hk2).
    exists (acts1 ++ acts2). rewrite Ht2, Ht1, <- app_assoc. split_and!; try done.
    + by apply Forall_app.
    + rewrite length_app. simpl. lia.
    + intros v Hv. by rewrite Hv2, Hv1.
    + intros s Hs. rewrite (Hk2 s Hs). specialize (Hk1 _ eq_refl). simpl in *. lia.
  - rewrite (for_each_cons_Raise _ _ _ _ _ _ Hp).
    exists acts1. split_and!; try done. simpl. lia.
Qed.

(** C8.  Whatever the grid, the start, the destination and the values that
    [randrange] returns, [generate_maze] writes nothing but wall markers, and
    none to the start or to the destination, whose states stay as they were.
    A pick that lands on either of them changes nothing and is not made up
    for: the loop makes its [n + 1] picks, two calls of [randrange] each, and
    sets at most [n + 1] walls. *)
Theorem generate_maze_spares_endpoints (pf : Pathfinder) (w : World) :
  let n := round_density (length (grid pf) * length (grid pf)) in
  let r := generate_maze round_density rand pf w in
  (∃ acts,
     trace (result_state r).1 = trace w ++ acts
     ∧ Forall (λ a, ∃ v, a = AMark v Wall ∧ Some v ≠ start pf
                         ∧ Some v ≠ destination pf) acts
     ∧ length acts ≤ n + 1)
  ∧ (∀ v, Some v = start pf ∨ Some v = destination pf →
     vstate (result_state r).1 !! v = vstate w !! v)
  ∧ (∀ s, r = Ok s → s.2 = 2 * (n + 1))
  ∧ (∀ k i row col v,
       randrange rand k (length (grid pf)) = Some row →
       randrange rand (S k) (length (grid pf)) = Some col →
       grid pf !! row ≫= (.!! col) = Some v →
       Some v = start pf ∨ Some v = destination pf →
       maze_pick rand pf (w, k) i = Ok (w, S (S k))).
Proof.
  intros n r. unfold r, generate_maze. fold n.
  destruct (maze_loop_spec pf (seq 0 (n + 1)) w 0) as (acts & Ht & Hf & Hl & Hv & Hk).
  rewrite length_seq in Hl, Hk. split_and!.
  - exists acts. split_and!; try done.
    eapply Forall_impl; [exact Hf|]. intros a (v & -> & Hn).
    exists v. unfold endpoint in Hn. split_and!; [done|tauto..].
  - exact Hv.
  - intros s Hs. rewrite (Hk s Hs). lia.
  - intros k i row col v Hr Hc Hg He. unfold maze_pick. rewrite Hr, Hc, Hg.
    rewrite decide_False; [done|]. tauto.
Qed.

End MazeFacts.

(** ** Searches without endpoints *)

(** C6, as the code has it.  The pathfinder does not look at its endpoints
    before it starts, and has no error of its own for a missing one: it is the
    key handler of the GUI that starts [dijkstra] or [a_star_search] only when
    no search has been started yet and both a start and a destination are
    set, so that no traversal loop is entered without them. *)
Theorem search_needs_endpoints (k : key) (user_input : bool)
    (grid : list (list Vertex)) (g : GuiState) (pf : Pathfinder) :
  (on_keydown k user_input grid g).1 = RunDijkstra pf
  ∨ (on_keydown k user_input grid g).1 = RunAStar pf →
  started g = false
  ∧ pf = mkPathfinder grid (gui_start g) (gui_destination g)
  ∧ (∃ s, start pf = Some s) ∧ (∃ d, destination pf = Some d)
  ∧ started (on_keydown k user_input grid g).2 = true.
Proof.
  unfold on_keydown. destruct g as [st gs gd]. simpl.
  destruct st, user_input, k, gs as [s|], gd as [d|]; simpl;
    intros [H|H]; try discriminate H; injection H as <-; simpl; eauto 10.
Qed.

(** ** Concrete runs *)

Definition open_board (rows : nat) : Vertex → list Vertex :=
  update_neighbors rows (λ _, false).

(** A QUIT event is pending when the first turn starts. *)
Definition quit_first : nat → list event_type :=
  λ k, match k with O => [QUIT] | S _ => [] end.

Definition two_cells : list (list Vertex) := [[(0, 0)%Z; (0, 1)%Z]].


(** Witness for C2: the first turn on the board of two by two, which takes
    the start off the queue and relaxes its two neighbours. *)
Lemma dijkstra_relaxation_witness :
  ∃ w' b',
    dijkstra_iter (open_board 2) no_events 0 (0, 0)%Z (Some (1, 1)%Z)
      (blank, dijkstra_init (initialize_grid 2) (0, 0)%Z)
    = Continue (w', b')
    ∧ distance b' !! (0, 1)%Z = Some (Int 1)
    ∧ came_from b' !! (0, 1)%Z = Some (0, 0)%Z
    ∧ (0, 1)%Z ∈ visited b'
    ∧ (∃ k, entries_of (0, 1)%Z (queue b') = [(Int 1, k, (0, 1)%Z)])
    ∧ vstate w' !! (0, 1)%Z = Some Visiting.
Proof.
  assert (open_board 2 (0, 0)%Z = [(1, 0)%Z; (0, 1)%Z]) as Hnbs
    by (vm_compute; reflexivity).
  pose proof (dijkstra_relaxation (open_board 2) no_events 0 (0, 0)%Z (Some (1, 1)%Z)
                (Int 0, 0, (0, 0)%Z) [] blank
                (dijkstra_init (initialize_grid 2) (0, 0)%Z) (Int 0)) as H.
  cbv zeta in H. change (entry_vertex (Int 0, 0, (0, 0)%Z)) with (0, 0)%Z in H.
  rewrite Hnbs in H.
  destruct H as (w' & b' & Hb & Hnb).
  - exact no_events_quit_free.
  - reflexivity.
  - unfold dijkstra_init. simpl. by apply elem_of_singleton.
  - by intros [=].
  - vm_compute. reflexivity.
  - intros u [->|[->|[]%elem_of_nil]%elem_of_cons]%elem_of_cons;
      eexists; vm_compute; reflexivity.
  - destruct (Hnb (0, 1)%Z) as (dn & Hdn & Hlt & _).
    { apply elem_of_cons. right. apply elem_of_cons. by left. }
    assert (dn = Inf) as ->.
    { assert (Some dn = Some Inf) as Hinf
        by (rewrite <- Hdn; vm_compute; reflexivity).
      by injection Hinf. }
    destruct (Hlt eq_refl) as (Hd & Hc & Hv & Hnew & _).
    destruct Hnew as [(k & _ & Hq) Hs].
    { unfold dijkstra_init. simpl. rewrite elem_of_singleton. by intros [=]. }
    exists w', b'. split_and!; try done. by exists k.
Defined.

(** Witness for C3: the same relaxation in [a_star_search]. *)
Lemma a_star_insertion_key_witness :
  ∃ w' b' f_score' key,
    a_star_relax (0, 1)%Z (0, 0)%Z
      (blank, (a_star_init two_cells (0, 0)%Z (0, 1)%Z).1,
              (a_star_init two_cells (0, 0)%Z (0, 1)%Z).2) (0, 1)%Z
    = Ok (w', b', f_score')
    ∧ queue b' = [(key, 1, (0, 1)%Z); (Int 0, 0, (0, 0)%Z)]
    ∧ f_score' !! (0, 1)%Z = Some key
    ∧ key = Int 1.
Proof.
  destruct (a_star_insertion_key (0, 1)%Z (0, 0)%Z (0, 1)%Z blank
              (a_star_init two_cells (0, 0)%Z (0, 1)%Z).1
              (a_star_init two_cells (0, 0)%Z (0, 1)%Z).2 (Int 0) Inf
              eq_refl eq_refl eq_refl)
    as (w' & b' & f' & key & Hr & Hq & Hf & _ & Hk & _).
  { vm_compute. by intros [=]. }
  exists w', b', f', key. split_and!; done.
Defined.

(** Counterexample to C3: the tuple of the start, put on the queue before the
    loop, has priority 0, while the [f_score] of the start is its Manhattan
    distance to the destination, here 1. *)
Lemma a_star_start_key :
  let '(b, f_score) := a_star_init two_cells (0, 0)%Z (0, 1)%Z in
  queue b = [(Int 0, 0, (0, 0)%Z)]
  ∧ f_score !! (0, 0)%Z = Some (Int 1)
  ∧ Int 0 ≠ Int 1.
Proof. split_and!; [reflexivity|reflexivity|by intros [=]]. Qed.

(** Witness for C5: the predecessor map [{(0,1): (0,0)}]. *)
Lemma reconstruct_path_marks_witness :
  ∃ w' l,
    reconstruct_path 1 {[ (0, 1)%Z := (0, 0)%Z ]} (0, 1)%Z blank = Finished w'
    ∧ is_chain {[ (0, 1)%Z := (0, 0)%Z ]} (0, 1)%Z l
    ∧ trace w' = path_actions l
    ∧ (0, 1)%Z ∉ l.
Proof.
  assert (reconstruct_path 1 {[ (0, 1)%Z := (0, 0)%Z ]} (0, 1)%Z blank
          = Finished (draw (make_path (0, 0)%Z blank))) as Hr
    by (vm_compute; reflexivity).
  exists (draw (make_path (0, 0)%Z blank)).
  destruct (reconstruct_path_marks 1 {[ (0, 1)%Z := (0, 0)%Z ]} (0, 1)%Z blank
              (draw (make_path (0, 0)%Z blank)) Hr)
    as (l & Hc & Ht & _ & Hn & _).
  exists l. split_and!; done.
Defined.

(** Counterexample to C5: with the predecessor map [{(0,1): (0,0)}] the
    reconstruction from [(0,1)] marks [(0,0)], the vertex without an entry, as
    path. *)
Lemma reconstruct_path_marks_start :
  ({[ (0, 1)%Z := (0, 0)%Z ]} : gmap Vertex Vertex) !! (0, 0)%Z = None
  ∧ ∃ w', reconstruct_path 1 {[ (0, 1)%Z := (0, 0)%Z ]} (0, 1)%Z blank = Finished w'
          ∧ path_marks w' = [(0, 0)%Z]
          ∧ vstate w' !! (0, 0)%Z = Some Path.
Proof.
  split; [reflexivity|]. exists (draw (make_path (0, 0)%Z blank)).
  split_and!; vm_compute; reflexivity.
Qed.

(** Witness for C10: a board of two by two, from corner to corner. *)
Lemma destination_untouched_witness :
  let pf := mkPathfinder (initialize_grid 2) (Some (0, 0)%Z) (Some (1, 1)%Z) in
  (0, 0)%Z ≠ (1, 1)%Z
  ∧ (∃ acts, trace (dijkstra (open_board 2) no_events 9 pf blank).2
             = trace blank ++ acts
             ∧ ∀ state, AMark (1, 1)%Z state ∉ acts)
  ∧ (∃ acts, trace (a_star_search (open_board 2) no_events 9 pf blank).2
             = trace blank ++ acts
             ∧ ∀ state, AMark (1, 1)%Z state ∉ acts).
Proof.
  assert ((0, 0)%Z ≠ (1, 1)%Z) as Hne by (by intros [=]).
  split; [exact Hne|].
  exact (destination_untouched (open_board 2) no_events 9 (initialize_grid 2)
           (0, 0)%Z (1, 1)%Z blank Hne).
Defined.

(** Counterexample to C10: when the start is the destination, the search
    returns at once and marks that vertex as start. *)
Lemma destination_marked_start :
  let pf := mkPathfinder (initialize_grid 1) (Some (0, 0)%Z) (Some (0, 0)%Z) in
  let w := mkWorld {[ (0, 0)%Z := Destination ]} 0 [] in
  (dijkstra (open_board 1) no_events 2 pf w).1 = Some (Returned true)
  ∧ trace (dijkstra (open_board 1) no_events 2 pf w).2
    = [APoll; APop (0, 0)%Z; AMark (0, 0)%Z Start]
  ∧ vstate w !! (0, 0)%Z = Some Destination
  ∧ vstate (dijkstra (open_board 1) no_events 2 pf w).2 !! (0, 0)%Z = Some Start.
Proof. cbv zeta. split_and!; vm_compute; reflexivity. Qed.

(** Witness for C6: the key [d] with both endpoints set. *)
Lemma search_needs_endpoints_witness :
  let g := mkGuiState false (Some (0, 0)%Z) (Some (0, 1)%Z) in
  let pf := mkPathfinder two_cells (Some (0, 0)%Z) (Some (0, 1)%Z) in
  (on_keydown K_d false two_cells g).1 = RunDijkstra pf
  ∧ started g = false
  ∧ (∃ s, start pf = Some s) ∧ (∃ d, destination pf = Some d).
Proof.
  destruct (search_needs_endpoints K_d false two_cells
              (mkGuiState false (Some (0, 0)%Z) (Some (0, 1)%Z))
              (mkPathfinder two_cells (Some (0, 0)%Z) (Some (0, 1)%Z))
              (or_introl eq_refl)) as (Hs & _ & Hst & Hd & _).
  split_and!; done.
Defined.

(** Counterexample to C6: called without a destination, [dijkstra] raises
    nothing; it goes through its loop and returns False.  Called without a
    start, it raises [AttributeError] in the first turn of the loop, after the
    events have been taken; [a_star_search] raises it before its loop. *)
Lemma dijkstra_without_destination :
  dijkstra (open_board 1) no_events 3
    (mkPathfinder (initialize_grid 1) (Some (0, 0)%Z) None) blank
  = (Some (Returned false), mkWorld ∅ 1 [ADraw; APop (0, 0)%Z; APoll])
  ∧ dijkstra (open_board 1) no_events 3
      (mkPathfinder (initialize_grid 1) None (Some (0, 0)%Z)) blank
    = (Some (Raised AttributeError), mkWorld ∅ 1 [APoll])
  ∧ a_star_search (open_board 1) no_events 3
      (mkPathfinder (initialize_grid 1) (Some (0, 0)%Z) None) blank
    = (Some (Raised AttributeError), blank).
Proof. cbv zeta. split_and!; vm_compute; reflexivity. Qed.

(** C7, at a failing input: a QUIT event is pending when the first turn
    starts.  The search calls [pygame.quit()] and does not leave its loop.  On
    a board of two by two, from corner to corner, the first turn still takes
    the start off the queue, relaxes its neighbours and calls
    [gui.draw(grid)], which is where pygame, once quit, raises its error; and
    when the start is the destination, so that nothing is drawn, the call
    returns True. *)
Lemma quit_does_not_abort :
  trace (dijkstra (open_board 2) quit_first 1
           (mkPathfinder (initialize_grid 2) (Some (0, 0)%Z) (Some (1, 1)%Z)) blank).2
  = [APoll; AQuit; APop (0, 0)%Z; AMark (1, 0)%Z Visiting; AMark (0, 1)%Z Visiting;
     ADraw]
  ∧ trace (a_star_search (open_board 2) quit_first 1
           (mkPathfinder (initialize_grid 2) (Some (0, 0)%Z) (Some (1, 1)%Z)) blank).2
  = [APoll; AQuit; APop (0, 0)%Z; AMark (1, 0)%Z Visiting; AMark (0, 1)%Z Visiting;
     ADraw]
  ∧ (let pf := mkPathfinder (initialize_grid 2) (Some (0, 0)%Z) (Some (0, 0)%Z) in
     dijkstra (open_board 2) quit_first 2 pf blank
     = (Some (Returned true),
        mkWorld {[ (0, 0)%Z := Start ]} 1
                [AMark (0, 0)%Z Start; APop (0, 0)%Z; AQuit; APoll])
     ∧ (a_star_search (open_board 2) quit_first 2 pf blank).1
       = Some (Returned true)).
Proof. cbv zeta. split_and!; vm_compute; reflexivity. Qed.

(** ** Boards without walls *)

(** The neighbour lists that [update_neighbors] fills in on a board without
    walls are those of an open board. *)
Lemma update_neighbors_open rows : open_neighbors (open_board rows) rows.
Proof.
  intros [r c] u Hv. unfold open_board, update_neighbors.
  rewrite list_elem_of_filter, andb_true_r, !elem_of_cons, elem_of_nil.
  unfold bounded, manhatten_distance. destruct u as [r' c']. split.
  - intros [Hu [H|[H|[H|[H|[]]]]]]; injection H as -> ->;
      (split; [by apply Is_true_true|lia]).
  - intros [Hu Hd]. split; [by apply Is_true_true|].
    assert ((r' = r - 1 ∧ c' = c) ∨ (r' = r + 1 ∧ c' = c)
            ∨ (r' = r ∧ c' = c - 1) ∨ (r' = r ∧ c' = c + 1))%Z
      as [[-> ->]|[[-> ->]|[[-> ->]|[-> ->]]]] by lia; tauto.
Qed.

(** C4.  On a square board without walls, whatever the start and the
    destination on it, and as long as no QUIT event arrives during the
    search, [dijkstra] and [a_star_search] both return True, and the paths
    they mark have the same length, the Manhattan distance between start and
    destination: each walks from the destination to the start, from cell to
    adjacent cell.  In particular, on the empty board of five by five, from
    (0,0) to (4,4), both find a path of length 8. *)
Theorem open_board_paths :
  (∀ (neighbors : Vertex → list Vertex) (events_at : nat → list event_type)
     (rows : nat) (s d : Vertex) (w : World),
     in_bounds rows s = true → in_bounds rows d = true →
     open_neighbors neighbors rows →
     quit_free events_at →
     let pf := mkPathfinder (initialize_grid rows) (Some s) (Some d) in
     ∃ fuel wd wa pd pa,
       dijkstra neighbors events_at fuel pf w = (Some (Returned true), wd)
       ∧ a_star_search neighbors events_at fuel pf w = (Some (Returned true), wa)
       ∧ path_marks wd = path_marks w ++ pd
       ∧ path_marks wa = path_marks w ++ pa
       ∧ walk rows d pd ∧ walk rows d pa
       ∧ last (d :: pd) = Some s ∧ last (d :: pa) = Some s
       ∧ length pd = Z.to_nat (manhatten_distance s d)
       ∧ length pa = length pd)
  ∧ (let pf := mkPathfinder (initialize_grid 5) (Some (0, 0)%Z) (Some (4, 4)%Z) in
     (dijkstra (open_board 5) no_events 40 pf blank).1 = Some (Returned true)
     ∧ (a_star_search (open_board 5) no_events 40 pf blank).1 = Some (Returned true)
     ∧ length (path_marks (dijkstra (open_board 5) no_events 40 pf blank).2) = 8
     ∧ length (path_marks (a_star_search (open_board 5) no_events 40 pf blank).2) = 8
     ∧ manhatten_distance (0, 0)%Z (4, 4)%Z = 8%Z).
Proof.
  split.
  - intros neighbors events_at rows s d w Hs Hd Hnb _ pf.
    destruct (open_board_search neighbors events_at rows s d Hs Hd Hnb w)
      as (wd & wa & pd & pa & H1 & H2 & H3 & H4 & H5 & H6 & H7 & H8 & H9 & H10).
    eexists _, wd, wa, pd, pa. split_and!; try done. congruence.
  - cbv zeta. split_and!; vm_compute; reflexivity.
Qed.

(** Witness for C4: the board of five by five, from corner to corner. *)
Lemma open_board_paths_witness :
  ∃ fuel wd wa pd pa,
    dijkstra (open_board 5) no_events fuel
      (mkPathfinder (initialize_grid 5) (Some (0, 0)%Z) (Some (4, 4)%Z)) blank
    = (Some (Returned true), wd)
    ∧ a_star_search (open_board 5) no_events fuel
        (mkPathfinder (initialize_grid 5) (Some (0, 0)%Z) (Some (4, 4)%Z)) blank
      = (Some (Returned true), wa)
    ∧ path_marks wd = pd ∧ path_marks wa = pa
    ∧ length pd = 8 ∧ length pa = 8.
Proof.
  destruct (proj1 open_board_paths (open_board 5) no_events 5 (0, 0)%Z (4, 4)%Z blank
              eq_refl eq_refl (update_neighbors_open 5) no_events_quit_free)
    as (fuel & wd & wa & pd & pa & H1 & H2 & H3 & H4 & _ & _ & _ & _ & H9 & H10).
  exists fuel, wd, wa, pd, pa. split_and!; try done. by rewrite H10.
Defined.

(** * More on maze generation *)

Section MazeMore.

Variable round_density : nat → nat.
Variable rand : nat → nat.

(** X13.  On an empty grid the first call of [randrange] raises, and nothing has
    been touched. *)
Theorem generate_maze_empty_grid (pf : Pathfinder) (w : World) :
  grid pf = [] → generate_maze round_density rand pf w = Raise ValueError (w, 0).
Proof.
  intros Hg. unfold generate_maze. rewrite Hg, Nat.add_1_r. simpl.
  unfold maze_pick, randrange. rewrite Hg. simpl. done.
Qed.

Lemma concat_lookup (grid : list (list Vertex)) i j r v :
  grid !! i = Some r → r !! j = Some v → v ∈ concat grid.
Proof.
  revert i. induction grid as [|x grid IH]; intros i; [done|]. simpl.
  rewrite elem_of_app. destruct i as [|i]; simpl.
  - intros [= ->] Hv. left. by eapply list_elem_of_lookup_2.
  - intros Hr Hv. right. by eapply IH.
Qed.

(** A pick on a square grid that is not empty. *)
Lemma maze_pick_square pf w k i :
  grid pf ≠ [] → (∀ r, r ∈ grid pf → length r = length (grid pf)) →
  ∃ v, v ∈ concat (grid pf)
       ∧ maze_pick rand pf (w, k) i
         = Ok (if decide (Some v ≠ start pf ∧ Some v ≠ destination pf)
               then make_wall v w else w, S (S k)).
Proof.
  intros Hne Hsq. unfold maze_pick, randrange.
  assert (length (grid pf) ≠ 0) as Hlen by (by destruct (grid pf)).
  rewrite !decide_False by done.
  destruct (lookup_lt_is_Some_2 (grid pf) (rand k mod length (grid pf))) as [r Hr].
  { by apply Nat.mod_upper_bound. }
  destruct (lookup_lt_is_Some_2 r (rand (S k) mod length (grid pf))) as [v Hv].
  { rewrite (Hsq r) by (by eapply list_elem_of_lookup_2). by apply Nat.mod_upper_bound. }
  exists v. split; [by eapply concat_lookup|].
  rewrite Hr. simpl. rewrite Hv. by case_decide.
Qed.

(** X14.  On a square grid that is not empty [generate_maze] does not raise: it
    makes its [n + 1] picks, with two calls of [randrange] each. *)
Theorem generate_maze_square (pf : Pathfinder) (w : World) :
  grid pf ≠ [] → (∀ r, r ∈ grid pf → length r = length (grid pf)) →
  ∃ w', generate_maze round_density rand pf w
        = Ok (w', 2 * (round_density (length (grid pf) * length (grid pf)) + 1)).
Proof.
  intros Hne Hsq. unfold generate_maze.
  generalize (round_density (length (grid pf) * length (grid pf)) + 1). intros n.
  assert (∀ l w k, ∃ w', for_each (maze_pick rand pf) (w, k) l
                         = Ok (w', k + 2 * length l)) as Hl.
  { induction l as [|i l IH]; intros w1 k.
    - exists w1. simpl. f_equal. f_equal. lia.
    - destruct (maze_pick_square pf w1 k i Hne Hsq) as (v & _ & Hp).
      rewrite (for_each_cons_Ok _ _ _ _ _ Hp).
      destruct (IH (if decide (Some v ≠ start pf ∧ Some v ≠ destination pf)
                    then make_wall v w1 else w1) (S (S k))) as (w' & ->).
      exists w'. f_equal. f_equal. simpl. lia. }
  destruct (Hl (seq 0 n) w 0) as (w' & ->). exists w'. by rewrite length_seq.
Qed.

(** X15.  [generate_maze] only adds walls, and only on the grid: every vertex is
    in the state it was in, or it is a vertex of the grid other than the start
    and the destination and is now a wall, whatever it was before. *)
Theorem generate_maze_only_adds_walls (pf : Pathfinder) (w : World) (v : Vertex) :
  let w' := (result_state (generate_maze round_density rand pf w)).1 in
  vstate w' !! v = vstate w !! v
  ∨ (vstate w' !! v = Some Wall ∧ v ∈ concat (grid pf)
     ∧ Some v ≠ start pf ∧ Some v ≠ destination pf).
Proof.
  unfold generate_maze.
  apply (for_each_inv
           (λ st : World * nat,
              vstate st.1 !! v = vstate w !! v
              ∨ (vstate st.1 !! v = Some Wall ∧ v ∈ concat (grid pf)
                 ∧ Some v ≠ start pf ∧ Some v ≠ destination pf))
           (maze_pick rand pf)); [|by left].
  intros [w1 k] i _ Hinv. unfold maze_pick.
  destruct (randrange rand k _) as [row|]; [|done].
  destruct (randrange rand (S k) _) as [col|]; [|done].
  destruct (grid pf !! row) as [r|] eqn:Hr; [|done]. simpl.
  destruct (r !! col) as [u|] eqn:Hu; [|done].
  case_decide as Hend; [|done]. simpl.
  destruct (decide (v = u)) as [->|Hne].
  - right. rewrite lookup_insert_eq. split_and!; [done| |tauto..].
    by eapply concat_lookup.
  - by rewrite lookup_insert_ne.
Qed.

End MazeMore.

(** * The distance between two positions *)

(** X16.  [__manhatten_distance] is a metric on positions. *)
Theorem manhatten_distance_metric (a b c : Z * Z) :
  (0 ≤ manhatten_distance a b)%Z
  ∧ (manhatten_distance a b = 0%Z ↔ a = b)
  ∧ manhatten_distance a b = manhatten_distance b a
  ∧ (manhatten_distance a c ≤ manhatten_distance a b + manhatten_distance b c)%Z.
Proof.
  destruct a as [a1 a2], b as [b1 b2], c as [c1 c2]. unfold manhatten_distance.
  split_and!; try lia. split.
  - intros H. f_equal; lia.
  - intros [= -> ->]. lia.
Qed.

(** * The mouse and the window of the GUI *)

(** ** Where a click lands *)

Lemma initialize_grid_lookup (rows : nat) (row col : nat) :
  row < rows → col < rows →
  initialize_grid rows !! row ≫= (.!! col) = Some (Z.of_nat row, Z.of_nat col).
Proof.
  intros Hr Hc. unfold initialize_grid.
  rewrite list_lookup_fmap, lookup_seq_lt by done. simpl.
  by rewrite list_lookup_fmap, lookup_seq_lt.
Qed.

Lemma initialize_grid_lookup_None (rows : nat) (row col : nat) :
  rows ≤ row ∨ rows ≤ col → initialize_grid rows !! row ≫= (.!! col) = None.
Proof.
  intros Hout. unfold initialize_grid.
  rewrite list_lookup_fmap.
  destruct (decide (row < rows)) as [Hr|Hr].
  - rewrite lookup_seq_lt by done. simpl.
    rewrite list_lookup_fmap, lookup_seq_ge; [done|lia].
  - rewrite lookup_seq_ge; [done|lia].
Qed.

(** X17.  A click at [(x, y)] inside a window of [width] pixels, on a board of
    [rows] rows with [rows ≤ width]: the cells are [gap = width // rows] pixels
    wide, and the click falls on the vertex of row [x // gap] and column
    [y // gap], which holds the pixel, when both coordinates are below
    [gap * rows]; beyond that the lookup in the grid raises IndexError.  No
    click raises when [rows] divides [width]. *)
Theorem click_on_board (rows : nat) (width x y : Z) :
  0 < rows → (Z.of_nat rows ≤ width)%Z → (0 ≤ x < width)%Z → (0 ≤ y < width)%Z →
  ∃ gap, gui_gap (Z.of_nat rows) width = Some gap ∧ (0 < gap)%Z
    ∧ (gap * Z.of_nat rows ≤ width < gap * Z.of_nat rows + Z.of_nat rows)%Z
    ∧ ((x < gap * Z.of_nat rows)%Z ∧ (y < gap * Z.of_nat rows)%Z →
       clicked_node gap (initialize_grid rows) (x, y) = Some (x / gap, y / gap)%Z
       ∧ in_bounds rows (x / gap, y / gap)%Z = true
       ∧ (gap * (x / gap) ≤ x < gap * (x / gap) + gap)%Z
       ∧ (gap * (y / gap) ≤ y < gap * (y / gap) + gap)%Z)
    ∧ ((gap * Z.of_nat rows ≤ x)%Z ∨ (gap * Z.of_nat rows ≤ y)%Z →
       clicked_node gap (initialize_grid rows) (x, y) = None)
    ∧ ((width mod Z.of_nat rows = 0)%Z → (gap * Z.of_nat rows)%Z = width).
Proof.
  intros Hrows Hw Hx Hy. exists (width / Z.of_nat rows)%Z.
  set (n := Z.of_nat rows) in *. set (gap := (width / n)%Z).
  assert (0 < n)%Z as Hn by lia.
  assert (0 < gap)%Z as Hgap by (apply Z.div_str_pos; lia).
  pose proof (Z.div_mod width n ltac:(lia)) as Hdm.
  pose proof (Z.mod_pos_bound width n Hn) as Hmb.
  assert (∀ t, (0 ≤ t)%Z → (0 ≤ t / gap)%Z ∧ (gap * (t / gap) ≤ t < gap * (t / gap) + gap)%Z)
    as Hcell.
  { intros t Ht. pose proof (Z.div_mod t gap ltac:(lia)).
    pose proof (Z.mod_pos_bound t gap Hgap). split; [apply Z.div_pos; lia|lia]. }
  assert (∀ t, (0 ≤ t)%Z → (t < gap * n)%Z ↔ (t / gap < n)%Z) as Hlt.
  { intros t Ht. destruct (Hcell t Ht) as [H0 H1]. split; intros H'; nia. }
  unfold gui_gap. rewrite decide_False by lia. split_and!; try done; try (fold gap; nia).
  - intros [Hxl Hyl].
    destruct (Hcell x ltac:(lia)) as [Hx0 Hxc], (Hcell y ltac:(lia)) as [Hy0 Hyc].
    apply Hlt in Hxl; [|lia]. apply Hlt in Hyl; [|lia].
    split_and!; try lia.
    + unfold clicked_node, get_clicked_position. rewrite decide_False by lia. simpl.
      unfold py_index. rewrite decide_True by done.
      pose proof (initialize_grid_lookup rows (Z.to_nat (x / gap)) (Z.to_nat (y / gap))
                    ltac:(lia) ltac:(lia)) as Hl.
      destruct (initialize_grid rows !! Z.to_nat (x / gap)) as [r|]; [|done]. simpl in *.
      destruct (decide (0 ≤ y / gap)%Z); [|done].
      etrans; [exact Hl|]. f_equal. f_equal; lia.
    + unfold in_bounds. simpl. fold n.
      rewrite !andb_true_iff, !Z.leb_le, !Z.ltb_lt. lia.
  - intros Hout.
    destruct (Hcell x ltac:(lia)) as [Hx0 Hxc], (Hcell y ltac:(lia)) as [Hy0 Hyc].
    assert (rows ≤ Z.to_nat (x / gap) ∨ rows ≤ Z.to_nat (y / gap)) as Hout'.
    { destruct Hout as [H'|H']; [left|right].
      - assert (¬ (x / gap < n)%Z) by (rewrite <- Hlt; lia). lia.
      - assert (¬ (y / gap < n)%Z) by (rewrite <- Hlt; lia). lia. }
    unfold clicked_node, get_clicked_position. rewrite decide_False by lia. simpl.
    unfold py_index. rewrite decide_True by done.
    pose proof (initialize_grid_lookup_None rows _ _ Hout') as Hl.
    destruct (initialize_grid rows !! Z.to_nat (x / gap)) as [r|]; [|done]. simpl in *.
    by destruct (decide (0 ≤ y / gap)%Z).
Qed.

(** ** What the event loop keeps *)

(** The start and the destination are not the same vertex. *)
Definition distinct_endpoints (g : GuiState) : Prop :=
  ∀ s d, gui_start g = Some s → gui_destination g = Some d → s ≠ d.

Lemma on_mouse_distinct left right node node_is_wall g :
  distinct_endpoints g →
  distinct_endpoints (on_mouse left right node node_is_wall g).2.
Proof.
  intros Hd. destruct g as [st gs gd]. unfold on_mouse, distinct_endpoints in *.
  simpl in *. destruct left; [|destruct right; [|done]].
  - destruct gs as [s0|], gd as [d0|], node_is_wall, st; simpl;
      repeat case_bool_decide; simpl; intros s d ? ?; simplify_eq;
      first [by eapply Hd | congruence].
  - simpl. repeat case_bool_decide; intros s d ? ?; simplify_eq; by eapply Hd.
Qed.

Lemma on_keydown_distinct k user_input grid g :
  distinct_endpoints g →
  distinct_endpoints (on_keydown k user_input grid g).2
  ∧ ∀ pf, (on_keydown k user_input grid g).1 = RunDijkstra pf
          ∨ (on_keydown k user_input grid g).1 = RunAStar pf →
      ∃ s d, start pf = Some s ∧ destination pf = Some d ∧ s ≠ d.
Proof.
  intros Hd. destruct g as [st gs gd]. unfold on_keydown, distinct_endpoints in *.
  simpl in *.
  destruct st, user_input, k, gs as [s|], gd as [d|]; simpl; split; try done;
    intros pf [H|H]; try discriminate H; injection H as <-; simpl;
    exists s, d; split_and!; try done; by apply Hd.
Qed.

(** X18.  From the moment the window opens, whatever the events, the start and the
    destination that the event loop holds are never the same vertex, and
    every search that it starts has a start and a destination that differ. *)
Theorem gui_endpoints_distinct (evs : list gui_event) :
  distinct_endpoints (handle_events evs (mkGuiState false None None)).2
  ∧ ∀ pf, RunDijkstra pf ∈ (handle_events evs (mkGuiState false None None)).1
          ∨ RunAStar pf ∈ (handle_events evs (mkGuiState false None None)).1 →
      ∃ s d, start pf = Some s ∧ destination pf = Some d ∧ s ≠ d.
Proof.
  assert (∀ g, distinct_endpoints g →
            distinct_endpoints (handle_events evs g).2
            ∧ ∀ pf, RunDijkstra pf ∈ (handle_events evs g).1
                    ∨ RunAStar pf ∈ (handle_events evs g).1 →
                ∃ s d, start pf = Some s ∧ destination pf = Some d ∧ s ≠ d) as Hgen.
  { induction evs as [|ev evs IH]; intros g Hg.
    { split; [done|]. intros pf [H|H]; by apply elem_of_nil in H. }
    simpl. unfold handle_event.
    pose proof (on_mouse_distinct (ev_left ev) (ev_right ev) (ev_node ev)
                  (ev_node_is_wall ev) g Hg) as Hm.
    destruct (on_mouse _ _ _ _ g) as [m g1]. simpl in Hm.
    destruct (decide (ev_type ev = KEYDOWN)).
    - destruct (on_keydown_distinct (ev_key ev) (ev_answer ev) (ev_grid ev) g1 Hm)
        as [Hk Hrun].
      destruct (on_keydown _ _ _ g1) as [c g2]. simpl in Hk, Hrun.
      destruct (IH g2 Hk) as [Hd Hcs].
      destruct (handle_events evs g2) as [cs g3]. simpl in *.
      split; [done|].
      intros pf [[Heq|H]%elem_of_cons|[Heq|H]%elem_of_cons]; eauto.
    - destruct (IH g1 Hm) as [Hd Hcs].
      destruct (handle_events evs g1) as [cs g3]. simpl in *.
      split; [done|].
      intros pf [[?|H]%elem_of_cons|[?|H]%elem_of_cons]; try done; eauto. }
  apply Hgen. by intros s d.
Qed.

(** * Runs on a board with a wall *)

Lemma in_bounds_grid (rows : nat) (u : Vertex) :
  in_bounds rows u = true → u ∈ concat (initialize_grid rows).
Proof.
  unfold in_bounds. rewrite !andb_true_iff, !Z.leb_le, !Z.ltb_lt.
  destruct u as [r c]. simpl. intros [[[Hr0 Hr] Hc0] Hc].
  pose proof (initialize_grid_lookup rows (Z.to_nat r) (Z.to_nat c)
                ltac:(lia) ltac:(lia)) as Hl.
  destruct (initialize_grid rows !! Z.to_nat r) as [row|] eqn:Hrow; [|done].
  simpl in Hl. rewrite !Z2Nat.id in Hl by done.
  by eapply concat_lookup.
Qed.

(** The neighbour lists that [update_neighbors] fills in hold cells of the
    board that are next to the vertex and are not walls. *)
Lemma update_neighbors_spec (rows : nat) (is_wall : Vertex → bool) (v u : Vertex) :
  u ∈ update_neighbors rows is_wall v →
  u ∈ concat (initialize_grid rows) ∧ is_wall u = false
  ∧ manhatten_distance v u = 1%Z.
Proof.
  destruct v as [r c]. unfold update_neighbors.
  rewrite list_elem_of_filter, andb_True, negb_True, !elem_of_cons, elem_of_nil.
  intros [[Hb%Is_true_true Hw] Hu].
  split_and!; [by apply in_bounds_grid|by destruct (is_wall u)|].
  unfold manhatten_distance. destruct u as [r' c'].
  destruct Hu as [H|[H|[H|[H|[]]]]]; injection H as -> ->; lia.
Qed.

(** The board of three by three with a wall in the middle. *)
Definition walled_board : Vertex → list Vertex :=
  update_neighbors 3 (λ v, bool_decide (v = (1, 1)%Z)).

Definition corner_to_corner : Pathfinder :=
  mkPathfinder (initialize_grid 3) (Some (0, 0)%Z) (Some (2, 2)%Z).

(** Witness for X1: Dijkstra from corner to corner round the wall. *)
Lemma search_marks_a_path_witness :
  ∃ l, path_marks (dijkstra walled_board no_events 20 corner_to_corner blank).2
       = path_marks blank ++ l
       ∧ follows walled_board (2, 2)%Z l ∧ last ((2, 2)%Z :: l) = Some (0, 0)%Z
       ∧ NoDup ((2, 2)%Z :: l)
       ∧ walk_to walled_board (0, 0)%Z (length l) (2, 2)%Z.
Proof.
  apply (search_marks_a_path walled_board no_events (initialize_grid 3) 20
           (0, 0)%Z (2, 2)%Z blank).
  left. vm_compute. reflexivity.
Defined.

(** Witness for X2: both searches on the board with the wall. *)
Lemma search_decides_reachability_witness :
  ∃ fuel r wd wa,
    dijkstra walled_board no_events fuel corner_to_corner blank = (Some (Returned r), wd)
    ∧ a_star_search walled_board no_events fuel corner_to_corner blank
      = (Some (Returned r), wa)
    ∧ (r = true ↔ ∃ n, walk_to walled_board (0, 0)%Z n (2, 2)%Z).
Proof.
  apply (search_decides_reachability walled_board no_events (initialize_grid 3)
           (0, 0)%Z (2, 2)%Z blank).
  - intros v u Hu. by apply update_neighbors_spec in Hu as [? _].
  - exact no_events_quit_free.
Defined.

(** Witness for X3: Dijkstra from corner to corner round the wall. *)
Lemma dijkstra_path_shortest_witness :
  ∃ l, path_marks (dijkstra walled_board no_events 20 corner_to_corner blank).2
       = path_marks blank ++ l
       ∧ walk_to walled_board (0, 0)%Z (length l) (2, 2)%Z
       ∧ ∀ n, walk_to walled_board (0, 0)%Z n (2, 2)%Z → length l ≤ n.
Proof.
  apply (dijkstra_path_shortest walled_board no_events (initialize_grid 3) 20
           (0, 0)%Z (2, 2)%Z blank).
  vm_compute. reflexivity.
Defined.

(** Witness for X5: the wall in the middle keeps its state. *)
Lemma search_keeps_states_witness :
  vstate (dijkstra walled_board no_events 20 corner_to_corner blank).2 !! (1, 1)%Z
  = vstate blank !! (1, 1)%Z
  ∧ vstate (a_star_search walled_board no_events 20 corner_to_corner blank).2 !! (1, 1)%Z
    = vstate blank !! (1, 1)%Z.
Proof.
  apply (search_keeps_states walled_board no_events (initialize_grid 3) 20
           (0, 0)%Z (2, 2)%Z blank (1, 1)%Z).
  right. split; [done|]. intros u Hu.
  apply update_neighbors_spec in Hu as (_ & Hw & _). done.
Defined.

(** Witness for X6: A* from corner to corner round the wall. *)
Lemma search_paints_path_witness :
  ∃ l, path_marks (a_star_search walled_board no_events 20 corner_to_corner blank).2
       = path_marks blank ++ l
       ∧ vstate (a_star_search walled_board no_events 20 corner_to_corner blank).2
           !! (0, 0)%Z = Some Start
       ∧ ∀ u, u ∈ l → u ≠ (0, 0)%Z →
           vstate (a_star_search walled_board no_events 20 corner_to_corner blank).2
             !! u = Some Path.
Proof.
  apply (search_paints_path walled_board no_events (initialize_grid 3) 20
           (0, 0)%Z (2, 2)%Z blank).
  right. vm_compute. reflexivity.
Defined.

(** Witness for X7: the board with the wall, towards the corner (2,2). *)
Lemma heuristic_admissible_witness :
  (∀ v n, walk_to walled_board v n (2, 2)%Z → (h (2, 2)%Z v ≤ Z.of_nat n)%Z)
  ∧ (∀ v u, u ∈ walled_board v →
       h (2, 2)%Z u = (h (2, 2)%Z v + 1)%Z ∨ h (2, 2)%Z u = (h (2, 2)%Z v - 1)%Z).
Proof.
  apply (heuristic_admissible walled_board (2, 2)%Z).
  intros v u Hu. by apply update_neighbors_spec in Hu as (_ & _ & ?).
Defined.

(** Two vertices that are each other's predecessor. *)
Definition two_cycle : gmap Vertex Vertex :=
  <[(0, 0)%Z := (0, 1)%Z]> (<[(0, 1)%Z := (0, 0)%Z]> ∅).

(** Witness for X8: five turns on the cycle of two. *)
Lemma reconstruct_path_endless_witness :
  ∃ w', reconstruct_path 5 two_cycle (0, 0)%Z blank = OutOfFuel w'
        ∧ length (path_marks w') = length (path_marks blank) + 5.
Proof.
  apply (reconstruct_path_endless (λ v, v = (0, 0)%Z ∨ v = (0, 1)%Z)).
  - by left.
  - intros u [->| ->]; [exists (0, 1)%Z|exists (0, 0)%Z]; split; auto.
Defined.

(** The board of three by three with the corner (2,2) walled in. *)
Definition sealed_board : Vertex → list Vertex :=
  update_neighbors 3 (λ v, bool_decide (v = (1, 2)%Z) || bool_decide (v = (2, 1)%Z)).

(** Witness for X11: Dijkstra towards the corner that is walled in; the cell
    in the middle, two steps from the start, ends up visited. *)
Lemma failed_search_visits_all_witness :
  vstate (dijkstra sealed_board no_events 20 corner_to_corner blank).2 !! (1, 1)%Z
  = Some Visited.
Proof.
  apply (failed_search_visits_all sealed_board no_events (initialize_grid 3) 20
           (0, 0)%Z (2, 2)%Z blank) with (n := 2); [| |done].
  - left. vm_compute. reflexivity.
  - apply (walk_on _ _ 1 (0, 1)%Z); [apply (walk_on _ _ 0 (0, 0)%Z); [constructor|]|];
      apply (bool_decide_unpack _); vm_compute; exact I.
Defined.

(** Witness for X12: Dijkstra without a destination on the board with the
    wall in the middle. *)
Lemma dijkstra_no_destination_witness :
  ∃ fuel w',
    dijkstra walled_board no_events fuel
      (mkPathfinder (initialize_grid 3) (Some (0, 0)%Z) None) blank
    = (Some (Returned false), w')
    ∧ ∀ n v, walk_to walled_board (0, 0)%Z n v → v ≠ (0, 0)%Z →
        vstate w' !! v = Some Visited.
Proof.
  apply (dijkstra_no_destination walled_board no_events (initialize_grid 3)
           (0, 0)%Z blank).
  - intros v u Hu. by apply update_neighbors_spec in Hu as [? _].
  - exact no_events_quit_free.
Defined.

(** Witness for X13: a pathfinder without a grid. *)
Lemma generate_maze_empty_grid_witness :
  generate_maze (λ _, 0) (λ k, k) (mkPathfinder [] None None) blank
  = Raise ValueError (blank, 0).
Proof. apply generate_maze_empty_grid. reflexivity. Defined.

(** Witness for X14: the board of two by two. *)
Lemma generate_maze_square_witness :
  ∃ w', generate_maze (λ n, n / 3) (λ k, k)
          (mkPathfinder (initialize_grid 2) (Some (0, 0)%Z) (Some (1, 1)%Z)) blank
        = Ok (w', 2 * (4 / 3 + 1)).
Proof.
  apply (generate_maze_square (λ n, n / 3) (λ k, k)
           (mkPathfinder (initialize_grid 2) (Some (0, 0)%Z) (Some (1, 1)%Z)) blank).
  - done.
  - intros r [->|[->|[]%elem_of_nil]%elem_of_cons]%elem_of_cons; reflexivity.
Defined.

(** Witness for X17: a window of 800 pixels with 30 rows, and a click on its
    right edge. *)
Lemma click_on_board_witness :
  ∃ gap, gui_gap 30 800 = Some gap ∧ (0 < gap)%Z
    ∧ (gap * 30 ≤ 800 < gap * 30 + 30)%Z
    ∧ ((799 < gap * 30)%Z ∧ (0 < gap * 30)%Z →
       clicked_node gap (initialize_grid 30) (799, 0)%Z = Some (799 / gap, 0 / gap)%Z
       ∧ in_bounds 30 (799 / gap, 0 / gap)%Z = true
       ∧ (gap * (799 / gap) ≤ 799 < gap * (799 / gap) + gap)%Z
       ∧ (gap * (0 / gap) ≤ 0 < gap * (0 / gap) + gap)%Z)
    ∧ ((gap * 30 ≤ 799)%Z ∨ (gap * 30 ≤ 0)%Z →
       clicked_node gap (initialize_grid 30) (799, 0)%Z = None)
    ∧ ((800 mod 30 = 0)%Z → (gap * 30)%Z = 800%Z).
Proof.
  apply (click_on_board 30 800 799 0); lia.
Defined.

(** * A* and walls *)

(** A board of nine by nine with seven walls between the start (7,0) and the
    destination (7,8). *)
Definition detour_walls : list Vertex :=
  [(6, 2); (6, 7); (7, 2); (7, 4); (7, 5); (7, 7); (8, 8)]%Z.

Definition detour_board : Vertex → list Vertex :=
  update_neighbors 9 (λ v, bool_decide (v ∈ detour_walls)).

(** X19.  [a_star_search] does not always mark a shortest path.  A vertex that
    is on the queue keeps its priority when its cost improves, and so the
    destination can come off the queue before its cost is final: on this
    board both searches return True, [dijkstra] with a path of 12 steps, than
    which no walk from the start to the destination is shorter, and
    [a_star_search] with a path of 14 steps. *)
Theorem a_star_not_shortest :
  let pf := mkPathfinder (initialize_grid 9) (Some (7, 0)%Z) (Some (7, 8)%Z) in
  (dijkstra detour_board no_events 80 pf blank).1 = Some (Returned true)
  ∧ (a_star_search detour_board no_events 80 pf blank).1 = Some (Returned true)
  ∧ length (path_marks (dijkstra detour_board no_events 80 pf blank).2) = 12
  ∧ (∀ n, walk_to detour_board (7, 0)%Z n (7, 8)%Z → 12 ≤ n)
  ∧ length (path_marks (a_star_search detour_board no_events 80 pf blank).2) = 14
  ∧ path_marks (a_star_search detour_board no_events 80 pf blank).2
    = [(6, 8); (5, 8); (5, 7); (5, 6); (6, 6); (7, 6); (8, 6); (8, 5); (8, 4);
       (8, 3); (8, 2); (8, 1); (7, 1); (7, 0)]%Z.
Proof.
  cbv zeta. split_and!; try (vm_compute; reflexivity).
  assert ((dijkstra_loop detour_board no_events 80 (7, 0)%Z (Some (7, 8)%Z)
             (blank, dijkstra_init (initialize_grid 9) (7, 0)%Z)).1
          = Some (Returned true)) as Ho by (vm_compute; reflexivity).
  assert (length (path_marks
                    (dijkstra_loop detour_board no_events 80 (7, 0)%Z (Some (7, 8)%Z)
                       (blank, dijkstra_init (initialize_grid 9) (7, 0)%Z)).2.1) = 12)
    as Hlen by (vm_compute; reflexivity).
  destruct (dijkstra_loop detour_board no_events 80 (7, 0)%Z (Some (7, 8)%Z)
              (blank, dijkstra_init (initialize_grid 9) (7, 0)%Z))
    as [o [w' b']] eqn:Hl.
  simpl in Ho, Hlen. subst o.
  destruct (dijkstra_loop_shortest detour_board no_events (initialize_grid 9) 80
              (7, 0)%Z (7, 8)%Z blank w' b' Hl) as (l & Hp & _ & Hmin).
  rewrite Hp, length_app in Hlen. simpl in Hlen. intros n Hn.
  specialize (Hmin n Hn). lia.
Qed.

(** * Events during a search *)

(** Everything a run logs except its looking at the events. *)
Definition quiet (a : action) : bool :=
  match a with APoll | AQuit => false | _ => true end.

Definition work (w : World) : list action := filter (λ a, quiet a) (trace w).

(** Two worlds with the same states of the vertices and, the polling apart,
    the same log. *)
Definition same_work (w1 w2 : World) : Prop :=
  vstate w1 = vstate w2 ∧ work w1 = work w2.

Lemma work_app w w' acts :
  trace w' = trace w ++ acts → work w' = work w ++ filter (λ a, quiet a) acts.
Proof. unfold work. intros ->. apply filter_app. Qed.

Lemma same_work_record a w1 w2 :
  same_work w1 w2 → same_work (record a w1) (record a w2).
Proof.
  intros [Hv Hw]. split; [done|].
  rewrite (work_app w1 _ [a] (trace_record a w1)),
          (work_app w2 _ [a] (trace_record a w2)).
  by rewrite Hw.
Qed.

Lemma same_work_set_state v s w1 w2 :
  same_work w1 w2 → same_work (set_state v s w1) (set_state v s w2).
Proof.
  intros [Hv Hw]. split; [simpl; by rewrite Hv|].
  rewrite (work_app w1 _ [AMark v s] (trace_set_state v s w1)),
          (work_app w2 _ [AMark v s] (trace_set_state v s w2)).
  by rewrite Hw.
Qed.

Lemma quiet_quits evs : filter (λ a, quiet a) (quits evs) = [].
Proof.
  induction evs as [|ev evs IH]; [done|]. rewrite quits_cons.
  case_decide; [|done]. rewrite filter_cons_False; [done|]. by intros [].
Qed.

Lemma work_poll_events events_at w : work (poll_events events_at w) = work w.
Proof.
  rewrite (work_app w _ _ (trace_poll_events events_at w)).
  rewrite filter_cons_False by (by intros []). by rewrite quiet_quits, app_nil_r.
Qed.

Lemma same_work_poll_events events1 events2 w1 w2 :
  same_work w1 w2 → same_work (poll_events events1 w1) (poll_events events2 w2).
Proof.
  intros [Hv Hw]. split.
  - by rewrite !vstate_poll_events.
  - by rewrite !work_poll_events.
Qed.

Definition fueled_rel {S : Type} (R : S → S → Prop) (r1 r2 : fueled S) : Prop :=
  match r1, r2 with
  | Finished s1, Finished s2 => R s1 s2
  | OutOfFuel s1, OutOfFuel s2 => R s1 s2
  | _, _ => False
  end.

Lemma same_work_reconstruct_path fuel cf :
  ∀ v w1 w2, same_work w1 w2 →
  fueled_rel same_work (reconstruct_path fuel cf v w1) (reconstruct_path fuel cf v w2).
Proof.
  induction fuel as [|fuel IH]; intros v w1 w2 Hw; simpl;
    destruct (cf !! v) as [u|]; simpl; try done.
  apply IH. unfold draw, make_path. by apply same_work_record, same_work_set_state.
Qed.

Definition dijkstra_same (st1 st2 : World * Bk) : Prop :=
  same_work st1.1 st2.1 ∧ st1.2 = st2.2.

Definition a_star_same (st1 st2 : World * Bk * gmap Vertex num) : Prop :=
  same_work st1.1.1 st2.1.1 ∧ st1.1.2 = st2.1.2 ∧ st1.2 = st2.2.

Lemma dijkstra_relax_same destination current st1 st2 neighbor :
  dijkstra_same st1 st2 →
  result_rel dijkstra_same (dijkstra_relax destination current st1 neighbor)
                           (dijkstra_relax destination current st2 neighbor).
Proof.
  destruct st1 as [w1 b1], st2 as [w2 b2]. intros [Hw Hb]. simpl in *. subst b2.
  unfold dijkstra_relax.
  destruct (g_score b1 !! current); [|by split].
  destruct (g_score b1 !! neighbor); [|by split].
  destruct (num_ltb _ _); [|by split].
  repeat case_decide; split; simpl; try done. by apply same_work_set_state.
Qed.

Lemma a_star_relax_same destination current st1 st2 neighbor :
  a_star_same st1 st2 →
  result_rel a_star_same (a_star_relax destination current st1 neighbor)
                         (a_star_relax destination current st2 neighbor).
Proof.
  destruct st1 as [[w1 b1] f1], st2 as [[w2 b2] f2]. intros (Hw & Hb & Hf).
  simpl in *. subst b2 f2. unfold a_star_relax.
  destruct (g_score b1 !! current); [|by split].
  destruct (g_score b1 !! neighbor); [|by split].
  destruct (num_ltb _ _); [|by split].
  repeat case_decide; split; simpl; try done. by apply same_work_set_state.
Qed.

Lemma dijkstra_body_same neighbors events1 events2 fuel s destination e queue' st1 st2 :
  dijkstra_same st1 st2 →
  step_rel dijkstra_same
    (dijkstra_body neighbors events1 fuel s destination e queue' st1)
    (dijkstra_body neighbors events2 fuel s destination e queue' st2).
Proof.
  destruct st1 as [w1 b1], st2 as [w2 b2]. intros [Hw Hb]. simpl in *. subst b2.
  unfold dijkstra_body.
  assert (same_work (record (APop (entry_vertex e)) (poll_events events1 w1))
                    (record (APop (entry_vertex e)) (poll_events events2 w2))) as Hpre.
  { by apply same_work_record, same_work_poll_events. }
  case_decide; [|by split]. case_decide.
  - pose proof (same_work_reconstruct_path fuel (came_from b1) (entry_vertex e) _ _ Hpre)
      as Hr. cbn [came_from].
    destruct (reconstruct_path _ _ _ (record _ (poll_events events1 w1))),
             (reconstruct_path _ _ _ (record _ (poll_events events2 w2)));
      simpl in *; try done.
    split; [done|]. split; [|done]. by apply same_work_set_state.
  - match goal with
    | |- step_rel _ (match for_each ?f0 ?s1 ?l0 with _ => _ end)
                    (match for_each _ ?s2 _ with _ => _ end) =>
        pose proof (for_each_rel dijkstra_same f0 l0 s1 s2
                      (λ a b x, dijkstra_relax_same destination (entry_vertex e) a b x)
                      (conj Hpre eq_refl)) as Hf;
        destruct (for_each f0 s1 l0) as [[w3 b3]|x3 [w3 b3]],
                 (for_each f0 s2 l0) as [[w4 b4]|x4 [w4 b4]]
    end; simpl in *; try done.
    + destruct Hf as [Hw' Hb']. simpl in *. subst b4.
      case_decide; split; simpl; try done;
        [by apply same_work_record|].
      by apply same_work_set_state, same_work_record.
    + destruct Hf as [-> [Hw' Hb']]. simpl in *. by subst b4.
Qed.

Lemma a_star_body_same neighbors events1 events2 fuel s d e queue' st1 st2 :
  a_star_same st1 st2 →
  step_rel a_star_same
    (a_star_body neighbors events1 fuel s d e queue' st1)
    (a_star_body neighbors events2 fuel s d e queue' st2).
Proof.
  destruct st1 as [[w1 b1] f1], st2 as [[w2 b2] f2]. intros (Hw & Hb & Hf0).
  simpl in *. subst b2 f2. unfold a_star_body.
  assert (same_work (record (APop (entry_vertex e)) (poll_events events1 w1))
                    (record (APop (entry_vertex e)) (poll_events events2 w2))) as Hpre.
  { by apply same_work_record, same_work_poll_events. }
  case_decide; [|by split]. case_decide.
  - pose proof (same_work_reconstruct_path fuel (came_from b1) (entry_vertex e) _ _ Hpre)
      as Hr. cbn [came_from].
    destruct (reconstruct_path _ _ _ (record _ (poll_events events1 w1))),
             (reconstruct_path _ _ _ (record _ (poll_events events2 w2)));
      simpl in *; try done.
    split; [done|]. split; [|done]. by apply same_work_set_state.
  - match goal with
    | |- step_rel _ (match for_each ?f0 ?s1 ?l0 with _ => _ end)
                    (match for_each _ ?s2 _ with _ => _ end) =>
        pose proof (for_each_rel a_star_same f0 l0 s1 s2
                      (λ a b x, a_star_relax_same d (entry_vertex e) a b x)
                      (conj Hpre (conj eq_refl eq_refl))) as Hf;
        destruct (for_each f0 s1 l0) as [[[w3 b3] f3]|x3 [[w3 b3] f3]],
                 (for_each f0 s2 l0) as [[[w4 b4] f4]|x4 [[w4 b4] f4]]
    end; simpl in *; try done.
    + destruct Hf as (Hw' & Hb' & Hf'). simpl in *. subst b4 f4.
      case_decide; split; simpl; try done;
        [by apply same_work_record|].
      by apply same_work_set_state, same_work_record.
    + destruct Hf as [-> (Hw' & Hb' & Hf')]. simpl in *. by subst b4 f4.
Qed.

Lemma dijkstra_loop_same neighbors events1 events2 s destination fuel :
  ∀ st1 st2, dijkstra_same st1 st2 →
  (dijkstra_loop neighbors events1 fuel s destination st1).1
  = (dijkstra_loop neighbors events2 fuel s destination st2).1
  ∧ dijkstra_same (dijkstra_loop neighbors events1 fuel s destination st1).2
                  (dijkstra_loop neighbors events2 fuel s destination st2).2.
Proof.
  induction fuel as [|fuel IH]; intros st1 st2 Hst; [done|]. simpl.
  unfold dijkstra_iter. destruct Hst as [Hw Hb]. rewrite <- Hb.
  destruct (queue_get (queue st1.2)) as [[e q']|]; [|done].
  pose proof (dijkstra_body_same neighbors events1 events2 fuel s destination e q'
                st1 st2 (conj Hw Hb)) as Hs.
  destruct (dijkstra_body _ events1 _ _ _ _ _ _) as [a|o a|a],
           (dijkstra_body _ events2 _ _ _ _ _ _) as [b|o' b|b]; simpl in *; try done.
  - by apply IH.
  - by destruct Hs as [-> ?].
Qed.

Lemma a_star_loop_same neighbors events1 events2 s d fuel :
  ∀ st1 st2, a_star_same st1 st2 →
  (a_star_loop neighbors events1 fuel s d st1).1
  = (a_star_loop neighbors events2 fuel s d st2).1
  ∧ a_star_same (a_star_loop neighbors events1 fuel s d st1).2
                (a_star_loop neighbors events2 fuel s d st2).2.
Proof.
  induction fuel as [|fuel IH]; intros st1 st2 Hst; [done|]. simpl.
  unfold a_star_iter. destruct Hst as (Hw & Hb & Hf). rewrite <- Hb.
  destruct (queue_get (queue st1.1.2)) as [[e q']|]; [|done].
  pose proof (a_star_body_same neighbors events1 events2 fuel s d e q'
                st1 st2 (conj Hw (conj Hb Hf))) as Hs.
  destruct (a_star_body _ events1 _ _ _ _ _ _) as [a|o a|a],
           (a_star_body _ events2 _ _ _ _ _ _) as [b|o' b|b]; simpl in *; try done.
  - by apply IH.
  - by destruct Hs as [-> ?].
Qed.

(** A stream of key presses and mouse moves. *)
Definition key_presses : nat → list event_type := λ _, [KEYDOWN; OTHER_EVENT].

Lemma key_presses_quit_free : quit_free key_presses.
Proof.
  intros k [?|[?|[]%elem_of_nil]%elem_of_cons]%elem_of_cons; done.
Qed.

(** X20.  The events other than QUIT that arrive during a search change
    nothing but the log of the polling: on two streams without a QUIT,
    whatever else [pygame.event.get()] returns, a search started with both
    endpoints ends in the same way, leaves the vertices in the same states,
    and has taken the same vertices off the queue and marked the same
    vertices in the same order. *)
Theorem events_do_not_matter (neighbors : Vertex → list Vertex)
    (events1 events2 : nat → list event_type) (fuel : nat)
    (grid : list (list Vertex)) (s d : Vertex) (w : World) :
  quit_free events1 → quit_free events2 →
  let pf := mkPathfinder grid (Some s) (Some d) in
  ((dijkstra neighbors events1 fuel pf w).1 = (dijkstra neighbors events2 fuel pf w).1
   ∧ vstate (dijkstra neighbors events1 fuel pf w).2
     = vstate (dijkstra neighbors events2 fuel pf w).2
   ∧ work (dijkstra neighbors events1 fuel pf w).2
     = work (dijkstra neighbors events2 fuel pf w).2)
  ∧ ((a_star_search neighbors events1 fuel pf w).1
     = (a_star_search neighbors events2 fuel pf w).1
     ∧ vstate (a_star_search neighbors events1 fuel pf w).2
       = vstate (a_star_search neighbors events2 fuel pf w).2
     ∧ work (a_star_search neighbors events1 fuel pf w).2
       = work (a_star_search neighbors events2 fuel pf w).2).
Proof.
  intros _ _ pf. split.
  - unfold dijkstra. simpl.
    destruct (dijkstra_loop_same neighbors events1 events2 s (Some d) fuel
                (w, dijkstra_init grid s) (w, dijkstra_init grid s))
      as (Ho & [Hv Hw] & _); [by split|].
    destruct (dijkstra_loop neighbors events1 _ _ _ _) as [o1 [w1 b1]],
             (dijkstra_loop neighbors events2 _ _ _ _) as [o2 [w2 b2]]. done.
  - unfold a_star_search. simpl.
    destruct (a_star_loop_same neighbors events1 events2 s d fuel
                (w, (a_star_init grid s d).1, (a_star_init grid s d).2)
                (w, (a_star_init grid s d).1, (a_star_init grid s d).2))
      as (Ho & [Hv Hw] & _); [by split|].
    simpl in *.
    destruct (a_star_loop neighbors events1 _ _ _ _) as [o1 [[w1 b1] f1]],
             (a_star_loop neighbors events2 _ _ _ _) as [o2 [[w2 b2] f2]]. done.
Qed.

(** Witness for X20: the board with the wall in the middle, searched once
    with no events and once under key presses. *)
Lemma events_do_not_matter_witness :
  ((dijkstra walled_board no_events 20 corner_to_corner blank).1
   = (dijkstra walled_board key_presses 20 corner_to_corner blank).1
   ∧ vstate (dijkstra walled_board no_events 20 corner_to_corner blank).2
     = vstate (dijkstra walled_board key_presses 20 corner_to_corner blank).2
   ∧ work (dijkstra walled_board no_events 20 corner_to_corner blank).2
     = work (dijkstra walled_board key_presses 20 corner_to_corner blank).2)
  ∧ ((a_star_search walled_board no_events 20 corner_to_corner blank).1
     = (a_star_search walled_board key_presses 20 corner_to_corner blank).1
     ∧ vstate (a_star_search walled_board no_events 20 corner_to_corner blank).2
       = vstate (a_star_search walled_board key_presses 20 corner_to_corner blank).2
     ∧ work (a_star_search walled_board no_events 20 corner_to_corner blank).2
       = work (a_star_search walled_board key_presses 20 corner_to_corner blank).2).
Proof.
  apply (events_do_not_matter walled_board no_events key_presses 20
           (initialize_grid 3) (0, 0)%Z (2, 2)%Z blank).
  - exact no_events_quit_free.
  - exact key_presses_quit_free.
Defined.
